(** * estuary-shuttle: a shallow embedding of cmd/estuary-shuttle/main.go

    The shuttle keeps three relational tables (Pin, Object, ObjRef) behind
    gorm, talks to the coordinator over one websocket, and runs a handful of
    background loops.  The embedding below follows main.go function by
    function.  Calls that leave the file (gorm, the websocket, the DAG
    service, the pin manager) are represented by what main.go can observe of
    them: a result that is either a value or an error, and an entry in an
    event log. *)

From Stdlib Require Import String Ascii List ZArith NArith Bool Lia Arith.
From Stdlib Require DecimalString.
Import ListNotations.

Set Implicit Arguments.

(** ** Go values *)

(** Go's [uint] is used for database keys only; main.go never does arithmetic
    on them, so they are plain naturals of [N]. *)
Definition uint := N.
Bind Scope N_scope with uint.

(** [int64] arithmetic wraps around in two's complement. *)
Definition int64_wrap (z : Z) : Z :=
  ((z + 2 ^ 63) mod 2 ^ 64 - 2 ^ 63)%Z.

Definition int64_add (a b : Z) : Z := int64_wrap (a + b).

(** [uint64] multiplication, as in [st.Blocks * uint64(st.Bsize)]. *)
Definition uint64_wrap (z : Z) : Z := (z mod 2 ^ 64)%Z.

Definition uint64_mul (a b : Z) : Z := uint64_wrap (a * b).

(** An [error] value: an ordinary error with its message, or the
    [util.HttpError] that the HTTP layer turns into a structured reply. *)
Inductive error :=
| Errorf (msg : string)
| HttpError (Code : nat) (Message : string).

(** The [Error()] method. *)
Definition Error (e : error) : string :=
  match e with
  | Errorf msg => msg
  | HttpError _ msg => msg
  end.

(** A Go result [(T, error)]: a value, or an error. *)
Inductive Result (A : Type) : Type :=
| Ok (a : A)
| Err (e : error).

Arguments Ok {A} a.
Arguments Err {A} e.

(** How a call ends: it returns a value, returns an error, or panics and
    unwinds the calling goroutine. *)
Inductive Exit (A : Type) : Type :=
| Done (a : A)
| Failed (e : error)
| Panicked (msg : string).

Arguments Done {A} a.
Arguments Failed {A} e.
Arguments Panicked {A} msg.

(** ** Content addresses *)

Module cid.

(** A content address: its codec ([c.Type()]) and its printed form
    ([c.String()]). *)
Record Cid := mk { Type_ : N; String_ : string }.

(** The codec of raw leaves, [cid.Raw]. *)
Definition Raw : N := 85.

Definition eqb (a b : Cid) : bool :=
  N.eqb (Type_ a) (Type_ b) && String.eqb (String_ a) (String_ b).

(** [cid.Set]: [Visit] reports whether the address is new and records it. *)
Definition Set_ := list Cid.

Definition NewSet : Set_ := [].

Definition Has (s : Set_) (c : Cid) : bool := existsb (eqb c) s.

Definition Visit (s : Set_) (c : Cid) : bool * Set_ :=
  if Has s c then (false, s) else (true, c :: s).

End cid.

(** ** Tables *)

(** Modelled from the spec: the declarations of the three row types are not
    in main.go.  The fields are the ones main.go reads, writes or names as
    columns (spec, section 3): the primary key [ID], the coordinator's
    [Content] id, the root address, the owner, the three lifecycle flags,
    the measured size and the creation time. *)
Record Pin := mkPin {
  Pin_ID : uint;
  Pin_CreatedAt : Z;
  Pin_Content : uint;
  Pin_Cid : cid.Cid;
  Pin_UserID : uint;
  Pin_Active : bool;
  Pin_Pinning : bool;
  Pin_Failed : bool;
  Pin_Size : Z
}.

(** Modelled from the spec: an Object row, one per node met on a walk. *)
Record Object := mkObject {
  Object_ID : uint;
  Object_Cid : cid.Cid;
  Object_Size : Z
}.

(** Modelled from the spec: an ObjRef row joins a Pin to an Object. *)
Record ObjRef := mkObjRef {
  ObjRef_ID : uint;
  ObjRef_Pin : uint;
  ObjRef_Object : uint
}.

(** The database: the rows of each table in primary-key order, and the last
    key handed out by each table's auto-increment counter. *)
Record DB := mkDB {
  pins : list Pin;
  objects : list Object;
  obj_refs : list ObjRef;
  pin_seq : uint;
  object_seq : uint;
  obj_ref_seq : uint
}.

Definition empty_db : DB := mkDB [] [] [] 0%N 0%N 0%N.

(** A column value in the [map[string]interface{}] given to
    [UpdateColumns]. *)
Inductive ColVal := ColBool (b : bool) | ColInt (z : Z).

Definition Columns := list (string * ColVal).

Definition set_column (p : Pin) (kv : string * ColVal) : Pin :=
  let (k, v) := kv in
  match v with
  | ColBool b =>
      if String.eqb k "active" then
        mkPin (Pin_ID p) (Pin_CreatedAt p) (Pin_Content p) (Pin_Cid p)
              (Pin_UserID p) b (Pin_Pinning p) (Pin_Failed p) (Pin_Size p)
      else if String.eqb k "pinning" then
        mkPin (Pin_ID p) (Pin_CreatedAt p) (Pin_Content p) (Pin_Cid p)
              (Pin_UserID p) (Pin_Active p) b (Pin_Failed p) (Pin_Size p)
      else if String.eqb k "failed" then
        mkPin (Pin_ID p) (Pin_CreatedAt p) (Pin_Content p) (Pin_Cid p)
              (Pin_UserID p) (Pin_Active p) (Pin_Pinning p) b (Pin_Size p)
      else p
  | ColInt z =>
      if String.eqb k "size" then
        mkPin (Pin_ID p) (Pin_CreatedAt p) (Pin_Content p) (Pin_Cid p)
              (Pin_UserID p) (Pin_Active p) (Pin_Pinning p) (Pin_Failed p) z
      else p
  end.

Definition set_columns (cols : Columns) (p : Pin) : Pin :=
  fold_left set_column cols p.

(** The lifecycle flags of a row, in the order pinning, active, failed. *)
Definition flags (p : Pin) : bool * bool * bool :=
  (Pin_Pinning p, Pin_Active p, Pin_Failed p).

(** ** Collaborators' data *)

Module peer.

(** [peer.AddrInfo]: a peer identity and the addresses it listens on. *)
Record AddrInfo := mk { ID : string; Addrs : list string }.

End peer.

Module datatransfer.

(** What main.go reads of a [datatransfer.ChannelState]: the channel id in
    its printed form, the status code, and the byte counters that change
    without the status changing. *)
Record ChannelState := mk {
  ChannelID : string;
  Status : N;
  Sent : N;
  Received : N
}.

(** [datatransfer.Event]. *)
Record Event := mkEvent { Code : N; Message : string }.

End datatransfer.

Module filclient.

(** Modelled from the spec: the declaration of [filclient.ChannelState] is
    not in main.go, which reads only [Status] from it (the last recorded
    status of section 4.3). *)
Record ChannelState := mk {
  Status : N;
  Sent : N;
  Received : N
}.

(** Modelled from the spec: [ChannelStateConv] is not in main.go.  It turns
    the transfer subsystem's state into the record that is stored as the
    last-observed status and sent upstream, so it keeps the status. *)
Definition ChannelStateConv (st : datatransfer.ChannelState) : ChannelState :=
  mk (datatransfer.Status st) (datatransfer.Sent st)
     (datatransfer.Received st).

End filclient.

Module drpc.

(** Modelled from the spec (section 6): the wire types are declared outside
    main.go. *)
Record Hello := mkHello {
  Host : string;
  PeerID : string;
  Address : string;
  AddrInfo : peer.AddrInfo
}.

Record ShuttleUpdate := mkShuttleUpdate {
  BlockstoreSize : Z;
  BlockstoreFree : Z;
  NumPins : Z;
  PinQueueSize : Z
}.

Record TransferStatus := mkTransferStatus {
  Chanid : string;
  DealDBID : uint;
  State : filclient.ChannelState
}.

Record UpdatePinStatus := mkUpdatePinStatus {
  DBID : uint;
  Status : string
}.

(** [MsgParams] holds one pointer per kind of message; [None] is [nil]. *)
Record MsgParams := mkMsgParams {
  Params_ShuttleUpdate : option ShuttleUpdate;
  Params_TransferStatus : option TransferStatus;
  Params_UpdatePinStatus : option UpdatePinStatus
}.

Record Message := mkMessage { Op : string; Params : MsgParams }.

Definition OP_ShuttleUpdate : string := "ShuttleUpdate".

(** An inbound command is opaque to main.go, which only passes it on. *)
Record Command := mkCommand { Command_Op : string }.

End drpc.

Module pinner.

(** Modelled from the spec: [pinner.PinningOperation] as [addPinToQueue]
    fills it in. *)
Record PinningOperation := mk {
  ContId : uint;
  UserId : uint;
  Obj : cid.Cid;
  Peers : list peer.AddrInfo;
  Started : Z;
  Status : string;
  Replace : uint
}.

End pinner.

(** ** The world main.go acts on *)

(** The statements gorm is asked to run.  The condition of a query is kept
    as the SQL fragment main.go passes. *)
Inductive Stmt :=
| SelectFirstPin (query : string) (arg : uint)
| SelectPins (query : string)
| CountPins (query : string)
| InsertPin (p : Pin)
| InsertObjects (batch : list Object)
| InsertObjRefs (batch : list ObjRef)
| UpdatePins (query : string) (arg : uint) (cols : Columns)
| DeletePin (id : uint)
| DeleteObjRefs (query : string) (arg : uint).

(** What a run leaves behind besides the database: log lines, statements,
    and calls into the other components. *)
Inductive Event :=
| EvLog (msg : string)
| EvSql (s : Stmt)
| EvLock (name : string)
| EvUnlock (name : string)
| EvConnect (p : peer.AddrInfo)
| EvFullRTProvide (c : cid.Cid)
| EvProvide (c : cid.Cid)
| EvPinComplete (cont : uint) (size : Z) (objs : list Object)
| EvPinMgrAdd (op : pinner.PinningOperation)
| EvRpcSend (m : drpc.Message)
| EvPutMany (blks : list cid.Cid)
| EvStagingCleanUp (bsid : string)
| EvFileClose
| EvFormRemoveAll.

(** [db_faults] scripts the database: each statement takes the next entry,
    and [true] makes that statement fail.  [rpc_faults] does the same for
    the hand-over of a message to the RPC session.  An exhausted script
    means no further failure. *)
Record World := mkWorld {
  db : DB;
  db_faults : list bool;
  rpc_faults : list bool;
  trace : list Event
}.

Definition world_of (d : DB) : World := mkWorld d [] [] [].

(** State and error passing: a computation maps a world to the way it ends
    and the world it leaves.  After an error or a panic the rest is
    skipped. *)
Definition M (A : Type) : Type := World -> Exit A * World.

Definition ret {A} (a : A) : M A := fun w => (Done a, w).

Definition bind {A B} (m : M A) (k : A -> M B) : M B :=
  fun w =>
    match m w with
    | (Done a, w') => k a w'
    | (Failed e, w') => (Failed e, w')
    | (Panicked s, w') => (Panicked s, w')
    end.

Definition throw {A} (e : error) : M A := fun w => (Failed e, w).

(** [fmt.Errorf] and [return err] with a fresh message. *)
Definition errorf {A} (msg : string) : M A := throw (Errorf msg).

Definition panic {A} (msg : string) : M A := fun w => (Panicked msg, w).

Declare Scope shuttle_scope.
Delimit Scope shuttle_scope with shuttle.
Notation "x <- m ;; k" := (bind m (fun x => k))
  (at level 61, m at next level, right associativity) : shuttle_scope.
Notation "m ;; k" := (bind m (fun _ => k))
  (at level 61, right associativity) : shuttle_scope.
Open Scope shuttle_scope.

Definition emit (e : Event) : M unit :=
  fun w =>
    (Done tt, mkWorld (db w) (db_faults w) (rpc_faults w) (trace w ++ [e])).

Definition get_db : M DB := fun w => (Done (db w), w).

Definition put_db (d : DB) : M unit :=
  fun w => (Done tt, mkWorld d (db_faults w) (rpc_faults w) (trace w)).

(** [xerrors.Errorf("...: %w", err)]. *)
Definition wrap_error {A} (prefix : string) (m : M A) : M A :=
  fun w =>
    match m w with
    | (Failed e, w') => (Failed (Errorf (prefix ++ Error e)), w')
    | r => r
    end.

(** [defer f()]: [f] runs when the body returns, fails or panics. *)
Definition defer {A} (body : M A) (f : M unit) : M A :=
  fun w =>
    let (r, w') := body w in
    let (_, w'') := f w' in
    (r, w'').

(** Every statement is logged, then succeeds or fails as scripted. *)
Definition statement (s : Stmt) : M unit :=
  fun w =>
    let w' := mkWorld (db w) (tl (db_faults w)) (rpc_faults w)
                      (trace w ++ [EvSql s]) in
    match db_faults w with
    | true :: _ => (Failed (Errorf "database error"), w')
    | _ => (Done tt, w')
    end.

(** ** gorm, as main.go uses it *)

(** The conditions main.go puts on the pins table. *)
Definition where_pin (query : string) (arg : uint) (p : Pin) : bool :=
  if String.eqb query "content = ?" then N.eqb (Pin_Content p) arg
  else if String.eqb query "id = ?" then N.eqb (Pin_ID p) arg
  else if String.eqb query "active = false and pinning = true"
       then negb (Pin_Active p) && Pin_Pinning p
  else if String.eqb query "active" then Pin_Active p
  else false.

(** The condition main.go puts on the obj_refs table. *)
Definition where_obj_ref (query : string) (arg : uint) (r : ObjRef) : bool :=
  if String.eqb query "pin = ?" then N.eqb (ObjRef_Pin r) arg else false.

(** [ORDER BY id LIMIT 1]. *)
Definition lowest_id (l : list Pin) : option Pin :=
  fold_left
    (fun acc p =>
       match acc with
       | None => Some p
       | Some q => if N.ltb (Pin_ID p) (Pin_ID q) then Some p else Some q
       end) l None.

(** [DB.First(&pin, query, arg)]: the matching row of lowest primary key, or
    the record-not-found error. *)
Definition gorm_First (query : string) (arg : uint) : M Pin :=
  statement (SelectFirstPin query arg) ;;
  d <- get_db ;;
  match lowest_id (filter (where_pin query arg) (pins d)) with
  | Some p => ret p
  | None => errorf "record not found"
  end.

(** [DB.Find(&pins, query)]. *)
Definition gorm_Find (query : string) : M (list Pin) :=
  statement (SelectPins query) ;;
  d <- get_db ;;
  ret (filter (where_pin query 0%N) (pins d)).

(** [DB.Model(Pin{}).Where(query).Count(&n)]. *)
Definition gorm_Count (query : string) : M Z :=
  statement (CountPins query) ;;
  d <- get_db ;;
  ret (Z.of_nat (length (filter (where_pin query 0%N) (pins d)))).

(** [DB.Create(pin)]: the row gets the next primary key and the current
    time, and is handed back. *)
Definition gorm_Create (now : Z) (p : Pin) : M Pin :=
  d <- get_db ;;
  let id := N.succ (pin_seq d) in
  let row := mkPin id now (Pin_Content p) (Pin_Cid p) (Pin_UserID p)
                   (Pin_Active p) (Pin_Pinning p) (Pin_Failed p) (Pin_Size p) in
  statement (InsertPin row) ;;
  put_db (mkDB (pins d ++ [row]) (objects d) (obj_refs d)
               id (object_seq d) (obj_ref_seq d)) ;;
  ret row.

(** The slices [value[i:min(i+batchSize,len)]] for [i = 0, batchSize, ...]
    below [len], as gorm's [CreateInBatches] cuts them. *)
Definition batches {A} (batchSize : nat) (value : list A) : list (list A) :=
  map (fun k => firstn batchSize (skipn (k * batchSize) value))
      (seq 0 ((length value + batchSize - 1) / batchSize)).

Fixpoint insert_batches {A} (stmt : list A -> Stmt) (bs : list (list A))
  : M unit :=
  match bs with
  | [] => ret tt
  | b :: rest => statement (stmt b) ;; insert_batches stmt rest
  end.

(** Primary keys [seq+1, seq+2, ...] for rows about to be inserted. *)
Fixpoint number_objects (seq : uint) (l : list Object) : list Object :=
  match l with
  | [] => []
  | o :: rest =>
      mkObject (N.succ seq) (Object_Cid o) (Object_Size o)
      :: number_objects (N.succ seq) rest
  end.

Fixpoint number_obj_refs (seq : uint) (l : list ObjRef) : list ObjRef :=
  match l with
  | [] => []
  | r :: rest =>
      mkObjRef (N.succ seq) (ObjRef_Pin r) (ObjRef_Object r)
      :: number_obj_refs (N.succ seq) rest
  end.

(** [DB.CreateInBatches(objects, batchSize)]: one insert statement per
    batch inside one transaction, so the rows are stored only when every
    batch went through.  The rows come back with their primary keys set. *)
Definition CreateInBatches_objects (value : list Object) (batchSize : nat)
  : M (list Object) :=
  d <- get_db ;;
  let rows := number_objects (object_seq d) value in
  insert_batches InsertObjects (batches batchSize rows) ;;
  put_db (mkDB (pins d) (objects d ++ rows) (obj_refs d) (pin_seq d)
               (object_seq d + N.of_nat (length rows))%N (obj_ref_seq d)) ;;
  ret rows.

Definition CreateInBatches_refs (value : list ObjRef) (batchSize : nat)
  : M (list ObjRef) :=
  d <- get_db ;;
  let rows := number_obj_refs (obj_ref_seq d) value in
  insert_batches InsertObjRefs (batches batchSize rows) ;;
  put_db (mkDB (pins d) (objects d) (obj_refs d ++ rows) (pin_seq d)
               (object_seq d) (obj_ref_seq d + N.of_nat (length rows))%N) ;;
  ret rows.

(** [DB.Model(Pin{}).Where(query, arg).UpdateColumns(cols)]. *)
Definition gorm_UpdateColumns (query : string) (arg : uint) (cols : Columns)
  : M unit :=
  statement (UpdatePins query arg cols) ;;
  d <- get_db ;;
  put_db (mkDB (map (fun p => if where_pin query arg p
                              then set_columns cols p else p) (pins d))
               (objects d) (obj_refs d)
               (pin_seq d) (object_seq d) (obj_ref_seq d)).

(** [DB.Delete(Pin{}, id)]: delete by primary key. *)
Definition gorm_Delete_Pin (id : uint) : M unit :=
  statement (DeletePin id) ;;
  d <- get_db ;;
  put_db (mkDB (filter (fun p => negb (N.eqb (Pin_ID p) id)) (pins d))
               (objects d) (obj_refs d)
               (pin_seq d) (object_seq d) (obj_ref_seq d)).

(** [DB.Where(query, arg).Delete(ObjRef{})]. *)
Definition gorm_Delete_ObjRef (query : string) (arg : uint) : M unit :=
  statement (DeleteObjRefs query arg) ;;
  d <- get_db ;;
  put_db (mkDB (pins d) (objects d)
               (filter (fun r => negb (where_obj_ref query arg r)) (obj_refs d))
               (pin_seq d) (object_seq d) (obj_ref_seq d)).

(** ** The DAG service and the walk *)

Module ipld.

(** An [ipld.Node]: its serialized bytes and the addresses it links to. *)
Record Node := mk { RawData : list Byte.byte; Links : list cid.Cid }.

(** [ipld.NodeGetter]: [Get] returns the node or an error. *)
Definition NodeGetter := cid.Cid -> Result Node.

End ipld.

Module context.

(** How callbacks that several goroutines run at once come out when they
    update the variables they share without a lock.  Each update reads the
    variable and writes it back, so an update that another goroutine makes
    between the two is overwritten.  [InTurn]: no two callbacks overlap and
    nothing is lost.  [Overlapping kept added]: [kept] names, by position
    in the order the nodes were entered, the callbacks whose append is
    still in the slice at the end, in the order the slice has them, and
    [added] those whose addition is still in the sum. *)
Inductive Interleaving :=
| InTurn
| Overlapping (kept added : list nat).

(** What the model keeps of the [context.Context] of a call: how deep a
    walk under it gets before the context is done, and how the goroutines
    started under it interleave. *)
Record Context := mk { Depth : nat; Goroutines : Interleaving }.

(** A context under which callbacks run one at a time. *)
Definition in_turn (depth : nat) : Context := mk depth InTurn.

End context.

Coercion context.in_turn : nat >-> context.Context.

Module merkledag.

Section Walk.

Variable S : Type.

(** The callback given to [Walk]; the variables it captures and updates
    are passed through as [S]. *)
Variable getLinks : cid.Cid -> S -> Result (list cid.Cid * S).

(** [merkledag.Walk(ctx, getLinks, root, cset.Visit)] with the callbacks run
    one after another: a node is entered when [Visit] says it is new, the
    callback gives its links, and each link is walked in turn; the first
    error ends the walk.  [depth] stands for [ctx]: a branch that would go
    deeper ends the walk with the error of an expired context.  What
    [merkledag.Concurrent()] adds to this is in [Concurrent] below. *)
Fixpoint Walk (depth : nat) (c : cid.Cid) (st : cid.Set_ * S)
  : Result (cid.Set_ * S) :=
  match depth with
  | O => Err (Errorf "context canceled")
  | Datatypes.S d =>
      let (fresh, cset) := cid.Visit (fst st) c in
      if fresh then
        match getLinks c (snd st) with
        | Ok (links, s') =>
            (fix each (ls : list cid.Cid) (st : cid.Set_ * S) :=
               match ls with
               | [] => Ok st
               | l :: rest =>
                   match Walk d l st with
                   | Ok st' => each rest st'
                   | Err e => Err e
                   end
               end) links (cset, s')
        | Err e => Err e
        end
      else Ok st
  end.

End Walk.

End merkledag.

(** ** The shuttle *)

(** Run [m]; an error it returns goes to [handler] and is not passed on
    ([if err := ...; err != nil { log... }]). *)
Definition on_error (m : M unit) (handler : error -> M unit) : M unit :=
  fun w =>
    match m w with
    | (Failed e, w') => handler e w'
    | r => r
    end.

Fixpoint for_each {A} (l : list A) (body : A -> M unit) : M unit :=
  match l with
  | [] => ret tt
  | a :: rest => body a ;; for_each rest body
  end.

(** [log.Errorf], [log.Warnf], [log.Infof]: the line's fixed text. *)
Definition log (msg : string) : M unit := emit (EvLog msg).

(** [go f()]: the new goroutine's effects are recorded where it is started;
    what happens inside it does not reach the caller. *)
Definition go (f : M unit) : M unit :=
  fun w => let (_, w') := f w in (Done tt, w').

(** What main.go reads of [node.Node]. *)
Record Node := mkNode {
  Wallet_GetDefault : Result string;
  Host_ID : string;
  Host_Addrs : list string;
  Host_Connect : peer.AddrInfo -> option error;
  FullRT_Provide : cid.Cid -> option error;
  Provider_Provide : cid.Cid -> option error;
  Node_DAG : ipld.NodeGetter
}.

Record Shuttle := mkShuttle {
  Shuttle_Node : Node;
  hostname : string;
  estuaryHost : string;
  shuttleHandle : string;
  shuttleToken : string
}.

(** Modelled from the spec: [sendRpcMessage] is not in main.go.  It hands
    the message to the RPC session's outbound queue and returns an error
    when the hand-over did not happen. *)
Definition sendRpcMessage (msg : drpc.Message) : M unit :=
  fun w =>
    let w' := mkWorld (db w) (db_faults w) (tl (rpc_faults w)) (trace w) in
    match rpc_faults w with
    | true :: _ => (Failed (Errorf "context done"), w')
    | _ => (Done tt, mkWorld (db w') (db_faults w') (rpc_faults w')
                             (trace w' ++ [EvRpcSend msg]))
    end.

(** Modelled from the spec: [sendPinCompleteMessage] is not in main.go; the
    call is recorded with its arguments. *)
Definition sendPinCompleteMessage (cont : uint) (size : Z)
  (objs : list Object) : M unit :=
  emit (EvPinComplete cont size objs).

(** The closure given to [merkledag.Walk] in
    [addDatabaseTrackingToContent]; it appends to [objects] and adds to
    [totalSize]. *)
Definition walk_callback (dserv : ipld.NodeGetter) (c : cid.Cid)
  (acc : list Object * Z) : Result (list cid.Cid * (list Object * Z)) :=
  let (objs, totalSize) := acc in
  match dserv c with
  | Err e => Err e
  | Ok node =>
      let len := Z.of_nat (length (ipld.RawData node)) in
      let objs := objs ++ [mkObject 0 c len] in
      let totalSize := int64_add totalSize len in
      if N.eqb (cid.Type_ c) cid.Raw then Ok ([], (objs, totalSize))
      else Ok (ipld.Links node, (objs, totalSize))
  end.

(** The elements of [l] at the given positions, each position once;
    positions past the end name nothing. *)
Definition pick {A} (positions : list nat) (l : list A) : list A :=
  flat_map (fun i => match nth_error l i with Some a => [a] | None => [] end)
           (nodup Nat.eq_dec positions).

(** [merkledag.Concurrent()]: the walk enters the same nodes, [cset.Visit]
    being called under the walk's own lock, but it runs the callback for
    several of them at once, and the callback appends to [objects] and adds
    to [totalSize] without a lock.  From what the callbacks would leave
    when run one after another, this gives what the two variables hold at
    the end: the records whose append survived, and the sum of the sizes
    whose addition survived.  Each append and each addition is taken as one
    read and one write of the variable. *)
Definition Concurrent (i : context.Interleaving) (acc : list Object * Z)
  : list Object * Z :=
  match i with
  | context.InTurn => acc
  | context.Overlapping kept added =>
      (pick kept (fst acc),
       fold_left (fun t o => int64_add t (Object_Size o))
                 (pick added (fst acc)) 0%Z)
  end.

(** [merkledag.Walk(ctx, func..., root, cset.Visit, merkledag.Concurrent())]
    as [addDatabaseTrackingToContent] calls it: the visited set, and
    [objects] and [totalSize] as the callbacks leave them. *)
Definition walk_concurrent (dserv : ipld.NodeGetter) (ctx : context.Context)
  (root : cid.Cid) : Result (cid.Set_ * (list Object * Z)) :=
  match merkledag.Walk (walk_callback dserv) (context.Depth ctx) root
                       (cid.NewSet, ([], 0%Z)) with
  | Ok (cset, acc) => Ok (cset, Concurrent (context.Goroutines ctx) acc)
  | Err e => Err e
  end.

(** [v, err := f(); if err != nil { return err }]. *)
Definition lift {A} (r : Result A) : M A :=
  match r with
  | Ok a => ret a
  | Err e => throw e
  end.

Definition active_columns (totalSize : Z) : Columns :=
  [("active"%string, ColBool true); ("size"%string, ColInt totalSize);
   ("pinning"%string, ColBool false)].

Definition addDatabaseTrackingToContent (d : Shuttle)
  (ctx : context.Context) (contid : uint) (dserv : ipld.NodeGetter)
  (root : cid.Cid) : M unit :=
  dbpin <- gorm_First "content = ?" contid ;;
  walked <- lift (walk_concurrent dserv ctx root) ;;
  let (objs, totalSize) := snd walked in
  objs <- wrap_error "failed to create objects in db: "
            (CreateInBatches_objects objs 300) ;;
  wrap_error "failed to update content in database: "
    (gorm_UpdateColumns "content = ?" contid (active_columns totalSize)) ;;
  let refs := map (fun o => mkObjRef 0 (Pin_ID dbpin) (Object_ID o)) objs in
  wrap_error "failed to create refs: " (CreateInBatches_refs refs 500) ;;
  sendPinCompleteMessage (Pin_Content dbpin) totalSize objs.

Definition doPinning (d : Shuttle) (ctx : context.Context)
  (op : pinner.PinningOperation) : M unit :=
  for_each (pinner.Peers op)
    (fun pi =>
       emit (EvConnect pi) ;;
       match Host_Connect (Shuttle_Node d) pi with
       | Some _ =>
           log "failed to connect to origin node for pinning operation"
       | None => ret tt
       end) ;;
  addDatabaseTrackingToContent d ctx (pinner.ContId op)
    (Node_DAG (Shuttle_Node d)) (pinner.Obj op) ;;
  emit (EvFullRTProvide (pinner.Obj op)) ;;
  match FullRT_Provide (Shuttle_Node d) (pinner.Obj op) with
  | Some _ => log "provider broadcast failed"
  | None => ret tt
  end ;;
  emit (EvProvide (pinner.Obj op)) ;;
  match Provider_Provide (Shuttle_Node d) (pinner.Obj op) with
  | Some _ => log "providing failed"
  | None => ret tt
  end.

Definition failed_columns : Columns :=
  [("pinning"%string, ColBool false); ("active"%string, ColBool false);
   ("failed"%string, ColBool true)].

Definition onPinStatusUpdate (cont : uint) (status : string) : M unit :=
  log "updating pin status" ;;
  (if String.eqb status "failed" then
     on_error (gorm_UpdateColumns "content = ?" cont failed_columns)
       (fun _ => log "failed to mark pin as failed in database")
   else ret tt) ;;
  go (on_error
        (sendRpcMessage
           (drpc.mkMessage "UpdatePinStatus"
              (drpc.mkMsgParams None None
                 (Some (drpc.mkUpdatePinStatus cont status)))))
        (fun _ => log "failed to send pin status update")).

(** Modelled from the spec: [PinMgr.Add] is not in main.go; it admits the
    operation to the pin queue, recorded here as the call. *)
Definition PinMgr_Add (op : pinner.PinningOperation) : M unit :=
  emit (EvPinMgrAdd op).

Definition addPinToQueue (p : Pin) (peers : list peer.AddrInfo)
  (replace : uint) : M unit :=
  let op := pinner.mk (Pin_Content p) (Pin_UserID p) (Pin_Cid p) peers
                      (Pin_CreatedAt p) "queued" replace in
  PinMgr_Add op.

Definition refreshPinQueue : M unit :=
  toPin <- gorm_Find "active = false and pinning = true" ;;
  log "refreshing pins" ;;
  for_each toPin (fun c => addPinToQueue c [] 0%N).

(** The call of [refreshPinQueue] in [main]: an error is logged and
    start-up goes on. *)
Definition main_refresh : M unit :=
  on_error refreshPinQueue (fun _ => log "failed to refresh pin queue").

Definition clearUnreferencedObjects (pin : uint) : M unit :=
  emit (EvLock "addPinLk") ;;
  defer (panic "nyi") (emit (EvUnlock "addPinLk")).

Definition Unpin (contid : uint) : M unit :=
  pin <- gorm_First "id = ?" contid ;;
  gorm_Delete_Pin (Pin_ID pin) ;;
  gorm_Delete_ObjRef "pin = ?" (Pin_ID pin) ;;
  clearUnreferencedObjects (Pin_ID pin).

(** ** Update reporter *)

(** [unix.Statfs_t], the fields read. *)
Record Statfs_t := mkStatfs { Blocks : Z; Bavail : Z; Bsize : Z }.

(** What one snapshot reads from outside the database: the pin manager's
    queue size and the result of [unix.Statfs] on the blockstore path. *)
Record Probe := mkProbe {
  PinQueueSize : Z;
  Statfs : Result Statfs_t
}.

Definition getUpdatePacket (pr : Probe) : M drpc.ShuttleUpdate :=
  st <- lift (Statfs pr) ;;
  let size := uint64_mul (Blocks st) (uint64_wrap (Bsize st)) in
  let free := uint64_mul (Bavail st) (uint64_wrap (Bsize st)) in
  n <- gorm_Count "active" ;;
  ret (drpc.mkShuttleUpdate size free n (PinQueueSize pr)).

(** [upd, err := f(); if err != nil { log... }]: after the log line the
    code goes on with whatever [upd] holds, which is [nil] on error. *)
Definition or_nil {A} (m : M A) (msg : string) : M (option A) :=
  fun w =>
    match m w with
    | (Done a, w') => (Done (Some a), w')
    | (Failed _, w') => (Done None, snd (log msg w'))
    | (Panicked s, w') => (Panicked s, w')
    end.

(** The body shared by the first report and every tick. *)
Definition report (pr : Probe) : M unit :=
  upd <- or_nil (getUpdatePacket pr) "failed to get update packet" ;;
  on_error
    (sendRpcMessage
       (drpc.mkMessage drpc.OP_ShuttleUpdate (drpc.mkMsgParams upd None None)))
    (fun _ => log "failed to send shuttle update").

(** The reporter goroutine of [main]: one report at once, then one for each
    tick of [time.Tick(time.Minute)]; [ticks] holds what each tick finds. *)
Definition reporter (first : Probe) (ticks : list Probe) : M unit :=
  report first ;;
  for_each ticks report.

(** ** Channel tracker *)

Record chanTrack := mkChanTrack {
  dbid : uint;
  last : option filclient.ChannelState
}.

(** [map[string]*chanTrack]. *)
Definition trackingChannels := list (string * chanTrack).

Fixpoint map_get (m : trackingChannels) (k : string) : option chanTrack :=
  match m with
  | [] => None
  | (k', v) :: rest => if String.eqb k k' then Some v else map_get rest k
  end.

(** Assignment through the pointer held in the map: the entry for [k] is
    replaced in place. *)
Fixpoint map_set (m : trackingChannels) (k : string) (v : chanTrack)
  : trackingChannels :=
  match m with
  | [] => [(k, v)]
  | (k', v') :: rest =>
      if String.eqb k k' then (k, v) :: rest else (k', v') :: map_set rest k v
  end.

(** The callback given to [SubscribeToDataTransferEvents].  It runs under
    [tcLk], so calls do not overlap.  The result is the map afterwards and
    the status updates handed to [go d.sendTransferStatusUpdate]. *)
Definition onTransferEvent (tc : trackingChannels)
  (event : datatransfer.Event) (st : datatransfer.ChannelState)
  : trackingChannels * list drpc.TransferStatus :=
  let chid := datatransfer.ChannelID st in
  match map_get tc chid with
  | None => (tc, [])
  | Some trk =>
      let changed :=
        match last trk with
        | None => true
        | Some l => negb (N.eqb (filclient.Status l) (datatransfer.Status st))
        end in
      if changed then
        let cst := filclient.ChannelStateConv st in
        (map_set tc chid (mkChanTrack (dbid trk) (Some cst)),
         [drpc.mkTransferStatus chid (dbid trk) cst])
      else (tc, [])
  end.

(** A run of the callback over the events as they are delivered. *)
Fixpoint onTransferEvents (tc : trackingChannels)
  (evs : list (datatransfer.Event * datatransfer.ChannelState))
  : trackingChannels * list drpc.TransferStatus :=
  match evs with
  | [] => (tc, [])
  | (event, st) :: rest =>
      let (tc', out) := onTransferEvent tc event st in
      let (tc'', out') := onTransferEvents tc' rest in
      (tc'', out ++ out')
  end.

(** ** RPC session *)

Inductive Frame :=
| HelloFrame (h : drpc.Hello)
| MessageFrame (m : drpc.Message).

(** What can happen next to a session inside its loops. *)
Inductive SessionEvent :=
| Receive (r : Result drpc.Command)
    (* the read goroutine's [websocket.JSON.Receive] returns *)
| ReadDone
    (* the [select] of the write loop takes [<-readDone] *)
| Outgoing (msg : drpc.Message) (send : option error).
    (* the [select] takes [msg := <-d.outgoing]; [Send] returns *)

(** A connection, seen from [runRpc]: the result of sending the first
    frame, and what happens afterwards, in order. *)
Record Conn := mkConn {
  hello_send : option error;
  schedule : list SessionEvent
}.

(** A session in progress: whether the read goroutine is still in its loop,
    whether [readDone] has been closed, every write tried on the connection
    with its success, the commands handed to handlers, the log, and how
    many events of the schedule were taken. *)
Record Session := mkSession {
  reading : bool;
  readDone : bool;
  wire : list (Frame * bool);
  dispatched : list drpc.Command;
  session_log : list string;
  taken : nat
}.

Inductive Run :=
| Running (s : Session)
    (* the schedule ended with the session still in its loops *)
| Returned (err : option error) (s : Session)
    (* [runRpc] returned; [conn.Close()] has run *)
| Impossible (s : Session).
    (* the next event of the schedule cannot happen in this state *)

Definition session_of (o : Run) : Session :=
  match o with Running s | Returned _ s | Impossible s => s end.

Definition getHelloMessage (d : Shuttle) : Result drpc.Hello :=
  match Wallet_GetDefault (Shuttle_Node d) with
  | Ok addr =>
      Ok (drpc.mkHello (hostname d) (Host_ID (Shuttle_Node d)) addr
            (peer.mk (Host_ID (Shuttle_Node d)) (Host_Addrs (Shuttle_Node d))))
  | Err e => Err e
  end.

(** One turn of the loops of [runRpc]. *)
Definition session_step (s : Session) (e : SessionEvent) : Run :=
  let n := S (taken s) in
  match e with
  | Receive (Ok cmd) =>
      if reading s then
        Running (mkSession true (readDone s) (wire s) (dispatched s ++ [cmd])
                           (session_log s) n)
      else Impossible s
  | Receive (Err _) =>
      if reading s then
        Running (mkSession false true (wire s) (dispatched s)
                   (session_log s
                    ++ ["failed to read command from websocket"%string]) n)
      else Impossible s
  | ReadDone =>
      if readDone s then
        Returned
          (Some (Errorf "read routine exited, assuming socket is closed"))
          (mkSession (reading s) true (wire s) (dispatched s)
                     (session_log s) n)
      else Impossible s
  | Outgoing msg None =>
      Running (mkSession (reading s) (readDone s)
                 (wire s ++ [(MessageFrame msg, true)]) (dispatched s)
                 (session_log s) n)
  | Outgoing msg (Some _) =>
      Running (mkSession (reading s) (readDone s)
                 (wire s ++ [(MessageFrame msg, false)]) (dispatched s)
                 (session_log s ++ ["failed to send message"%string]) n)
  end.

Fixpoint session_loop (s : Session) (evs : list SessionEvent) : Run :=
  match evs with
  | [] => Running s
  | e :: rest =>
      match session_step s e with
      | Running s' => session_loop s' rest
      | o => o
      end
  end.

Definition new_session : Session := mkSession false false [] [] [] 0.

Definition runRpc (d : Shuttle) (conn : Conn) : Run :=
  match getHelloMessage d with
  | Ok hello =>
      match hello_send conn with
      | Some e =>
          Returned (Some e)
            (mkSession false false [(HelloFrame hello, false)] [] [] 0)
      | None =>
          session_loop
            (mkSession true false [(HelloFrame hello, true)] [] [] 0)
            (schedule conn)
      end
  | Err e => Returned (Some e) new_session
  end.

(** What the supervising loop does, in order. *)
Inductive SupervisorEvent :=
| Dialed (ok : bool)
| Ran (o : Run)
| Logged (msg : string)
| Slept (seconds : nat).

(** [RunRpcConnection]: one turn per attempt; [None] is a dial that fails.
    A session that is still running when its schedule ends keeps the loop
    inside [runRpc], so no later attempt is made. *)
Fixpoint RunRpcConnection (d : Shuttle) (attempts : list (option Conn))
  : list SupervisorEvent :=
  match attempts with
  | [] => []
  | None :: rest =>
      [Dialed false; Logged "failed to dial estuary rpc endpoint"; Slept 10]
      ++ RunRpcConnection d rest
  | Some conn :: rest =>
      let o := runRpc d conn in
      match o with
      | Returned (Some _) _ =>
          [Dialed true; Ran o; Logged "rpc routine exited with an error";
           Slept 10] ++ RunRpcConnection d rest
      | Returned None _ =>
          [Dialed true; Ran o;
           Logged "rpc routine exited with no error, reconnecting...";
           Slept 1] ++ RunRpcConnection d rest
      | _ => [Dialed true; Ran o]
      end
  end.

(** ** HTTP surface *)

Module util.

(** Modelled from the spec: the error codes and the permission level are
    declared outside main.go. *)
Definition ERR_CONTENT_ADDING_DISABLED : string :=
  "ERR_CONTENT_ADDING_DISABLED".

Definition ERR_NOT_AUTHORIZED : string := "ERR_NOT_AUTHORIZED".

Definition PermLevelUser : Z := 2.

End util.

Record User := mkUser {
  User_ID : uint;
  Username : string;
  Perms : Z;
  AuthToken : string;
  StorageDisabled : bool
}.

(** A reply written with [c.JSON(code, map[string]string{...})]. *)
Record JSON := mkJSON {
  status_code : nat;
  body : list (string * string)
}.

(** [blocks.Block]. *)
Record Block := mkBlock { Block_Cid : cid.Cid; Block_RawData : list Byte.byte }.

(** The source side of a [blockstore.Blockstore]. *)
Record Blockstore := mkBlockstore {
  AllKeysChan : Result (list cid.Cid);
  Get : cid.Cid -> Result Block
}.

(** The request, as [handleAdd] reads it from the [echo.Context]. *)
Record Upload := mkUpload {
  MultipartForm : option error;
  FormFile_data : Result string;
  Open : option error;
  FormValue_collection : string;
  Request_Context : context.Context
}.

Record createContentBody := mkCreateContentBody {
  Root : cid.Cid;
  Name : string;
  Collections : list string;
  Location : string
}.

(** What [handleAdd] reaches outside the database: the staging manager, the
    importer with the DAG service over the staging store, the coordinator's
    [/content/create] endpoint (URL, authorization header and body to the
    decoded id), the main blockstore and the clock. *)
Record AddEnv := mkAddEnv {
  AllocNew : Result (string * Blockstore);
  BuildDagFromReader : Result cid.Cid;
  staging_dag : ipld.NodeGetter;
  post_json : string -> string -> createContentBody -> Result uint;
  PutMany : list Block -> option error;
  now : Z
}.

(** [if err := f(); err != nil { return err }]. *)
Definition check (r : option error) : M unit :=
  match r with
  | Some e => throw e
  | None => ret tt
  end.

Definition importFile (env : AddEnv) : Result cid.Cid :=
  BuildDagFromReader env.

Definition createContent (s : Shuttle) (env : AddEnv) (u : User)
  (root : cid.Cid) (fname collection : string) : Result uint :=
  let cols := if String.eqb collection EmptyString then [] else [collection] in
  match post_json env
          ("https://" ++ estuaryHost s ++ "/content/create")%string
          ("Bearer " ++ AuthToken u)%string
          (mkCreateContentBody root fname cols (shuttleHandle s)) with
  | Err e => Err e
  | Ok id =>
      if N.eqb id 0 then
        Err (Errorf
               "create content request failed, got back content ID zero")
      else Ok id
  end.

Definition put_many (env : AddEnv) (batch : list Block) : M unit :=
  emit (EvPutMany (map Block_Cid batch)) ;;
  check (PutMany env batch).

(** The loop of [dumpBlockstoreTo] over the keys; it returns the batch
    left over. *)
Fixpoint dump_keys (env : AddEnv) (from : Blockstore) (keys : list cid.Cid)
  (batch : list Block) : M (list Block) :=
  match keys with
  | [] => ret batch
  | k :: rest =>
      blk <- lift (Get from k) ;;
      let batch := batch ++ [blk] in
      if Nat.ltb 500 (length batch) then
        put_many env batch ;; dump_keys env from rest []
      else dump_keys env from rest batch
  end.

Definition dumpBlockstoreTo (env : AddEnv) (from : Blockstore) : M unit :=
  keys <- lift (AllKeysChan from) ;;
  batch <- dump_keys env from keys [] ;;
  if Nat.ltb 0 (length batch) then put_many env batch else ret tt.

(** The three deferred calls run when the handler returns, the one
    deferred last first: the goroutine that cleans the staging store up is
    started, then [fi.Close()] runs, then [form.RemoveAll()]. *)
Definition handleAdd (s : Shuttle) (env : AddEnv) (c : Upload) (u : User)
  : M JSON :=
  if StorageDisabled u then
    throw (HttpError 400 util.ERR_CONTENT_ADDING_DISABLED)
  else
    check (MultipartForm c) ;;
    defer
      (fname <- lift (FormFile_data c) ;;
       check (Open c) ;;
       defer
         (let collection := FormValue_collection c in
          staging <- lift (AllocNew env) ;;
          let (bsid, bs) := staging in
          defer
            (nd <- lift (importFile env) ;;
             contid <- lift (createContent s env u nd fname collection) ;;
             let pin := mkPin 0 0 contid nd (User_ID u) false true false 0 in
             gorm_Create (now env) pin ;;
             wrap_error "encountered problem computing object references: "
               (addDatabaseTrackingToContent s (Request_Context c) contid
                  (staging_dag env) nd) ;;
             wrap_error
               "failed to move data from staging to main blockstore: "
               (dumpBlockstoreTo env bs) ;;
             go (emit (EvProvide nd)) ;;
             ret (mkJSON 200 [("cid"%string, cid.String_ nd)]))
            (go (emit (EvStagingCleanUp bsid))))
         (emit EvFileClose))
      (emit EvFormRemoveAll).

(** [AuthRequired(level)] around a handler wrapped by [withUser]: [auth] is
    the token taken from the request and [checkTokenAuth] the coordinator's
    answer for it. *)
Definition AuthRequired (level : Z) (auth : Result string)
  (checkTokenAuth : string -> Result User) (next : User -> M JSON) : M JSON :=
  token <- lift auth ;;
  u <- lift (checkTokenAuth token) ;;
  if Z.leb level (Perms u) then next u
  else log "User not authorized" ;;
       throw (HttpError 401 util.ERR_NOT_AUTHORIZED).

(** The route [POST /content/add] as [ServeAPI] mounts it. *)
Definition content_add (s : Shuttle) (env : AddEnv) (auth : Result string)
  (checkTokenAuth : string -> Result User) (c : Upload) : M JSON :=
  AuthRequired util.PermLevelUser auth checkTokenAuth (handleAdd s env c).

Definition handleHealth : M JSON :=
  ret (mkJSON 200 [("status"%string, "ok"%string)]).

(** ** Token check *)

(** An [int] printed by [%d]. *)
Definition itoa (z : Z) : string :=
  DecimalString.NilZero.string_of_int (Z.to_int z).

(** Modelled from the spec: [util.ViewerResponse] is declared outside
    main.go; these are the fields [checkTokenAuth] reads, with
    [Settings.ContentAddingDisabled] flattened. *)
Record ViewerResponse := mkViewerResponse {
  Viewer_ID : uint;
  Viewer_Username : string;
  Viewer_Perms : Z;
  ContentAddingDisabled : bool
}.

(** The coordinator's answer to [GET /viewer]: the status code, and what
    decoding the body gives when it is read as a [util.HttpError] (code and
    message) and when it is read as a [util.ViewerResponse]. *)
Record ViewerReply := mkViewerReply {
  StatusCode : Z;
  decode_HttpError : Result (Z * string);
  decode_ViewerResponse : Result ViewerResponse
}.

(** [Do] is [http.DefaultClient.Do] on the request: from the URL and the
    authorization header to the reply, or the transport's error. *)
Definition checkTokenAuth (d : Shuttle)
  (Do : string -> string -> Result ViewerReply) (token : string)
  : Result User :=
  match Do ("https://" ++ estuaryHost d ++ "/viewer")%string
           ("Bearer " ++ token)%string with
  | Err e => Err e
  | Ok resp =>
      if negb (Z.eqb (StatusCode resp) 200) then
        match decode_HttpError resp with
        | Err _ =>
            Err (Errorf
                   ("authentication check returned unexpected error, code "
                    ++ itoa (StatusCode resp)))
        | Ok (code, message) =>
            Err (Errorf ("authentication check failed: " ++ message ++ "("
                         ++ itoa code ++ ")"))
        end
      else
        match decode_ViewerResponse resp with
        | Err e => Err e
        | Ok out =>
            Ok (mkUser (Viewer_ID out) (Viewer_Username out)
                       (Viewer_Perms out) token (ContentAddingDisabled out))
        end
  end.

(** ** Vocabulary of the properties *)

(** The effect of the update in [addDatabaseTrackingToContent] on one row. *)
Definition mark_active (contid : uint) (total : Z) (p : Pin) : Pin :=
  if where_pin "content = ?" contid p
  then set_columns (active_columns total) p else p.

(** The effect of the update in [onPinStatusUpdate] on one row. *)
Definition mark_failed (cont : uint) (p : Pin) : Pin :=
  if where_pin "content = ?" cont p
  then set_columns failed_columns p else p.

(** The sizes of the recorded objects, added up the way the walk's callback
    adds them. *)
Definition sum_sizes (objs : list Object) : Z :=
  fold_left (fun acc o => int64_add acc (Object_Size o)) objs 0%Z.

(** A computation that returns normally and leaves the world as it was but
    for lines added to the event log. *)
Definition log_only (m : M unit) : Prop :=
  forall w, exists tr,
    m w = (Done tt,
           mkWorld (db w) (db_faults w) (rpc_faults w) (trace w ++ tr)).

(** The operation [refreshPinQueue] queues for a row. *)
Definition restored_op (p : Pin) : pinner.PinningOperation :=
  pinner.mk (Pin_Content p) (Pin_UserID p) (Pin_Cid p) []
            (Pin_CreatedAt p) "queued" 0.

(** ** Sample data *)

Definition root_a : cid.Cid := cid.mk 112 "bafyroot-a".
Definition root_b : cid.Cid := cid.mk 112 "bafyroot-b".
Definition leaf_x : cid.Cid := cid.mk 85 "bafkleaf-x".
Definition leaf_y : cid.Cid := cid.mk 85 "bafkleaf-y".

(** Two roots sharing the leaf [leaf_y]; [leaf_x] is under [root_a] only. *)
Definition sample_dag : ipld.NodeGetter :=
  fun c =>
    if cid.eqb c root_a then
      Ok (ipld.mk [Byte.x0a; Byte.x0b] [leaf_x; leaf_y; leaf_x])
    else if cid.eqb c root_b then Ok (ipld.mk [Byte.x0c] [leaf_y])
    else if cid.eqb c leaf_x then Ok (ipld.mk [Byte.x01; Byte.x02; Byte.x03] [])
    else if cid.eqb c leaf_y then Ok (ipld.mk [Byte.x04] [root_a])
    else Err (Errorf "block not found").

Definition sample_node : Node :=
  mkNode (Ok "f1wallet"%string) "12D3KooWShuttle" ["/ip4/10.0.0.1/tcp/6745"%string]
         (fun _ => None) (fun _ => None) (fun _ => None) sample_dag.

Definition sample_shuttle : Shuttle :=
  mkShuttle sample_node "shuttle.example" "api.estuary.tech" "handle"
            "secret".

(** A context under which the callbacks for the two leaves of [root_a]
    overlap: both read the two variables as the root's callback left them,
    and the one for [leaf_y] writes last, over what the one for [leaf_x]
    wrote. *)
Definition overlapping_leaves : context.Context :=
  context.mk 4 (context.Overlapping [0; 2] [0; 2]).

(** A pin waiting to be processed: primary key 1, content id 7. *)
Definition queued_pin : Pin := mkPin 1 100 7 root_a 3 false true false 0.

Definition queued_db : DB := mkDB [queued_pin] [] [] 1 0 0.

Definition queued_op : pinner.PinningOperation :=
  pinner.mk 7 3 root_a [] 100 "queued" 0.

(** Two active pins: pin 1 holds [root_a], [leaf_x] and [leaf_y]; pin 2
    holds [root_b] and [leaf_y].  The primary key of pin 1 is the content id
    of pin 2. *)
Definition pin_one : Pin := mkPin 1 100 5 root_a 3 true false false 6.
Definition pin_two : Pin := mkPin 2 200 1 root_b 3 true false false 2.

Definition two_pins_db : DB :=
  mkDB [pin_one; pin_two]
       [mkObject 1 root_a 2; mkObject 2 leaf_x 3; mkObject 3 leaf_y 1;
        mkObject 4 root_b 1]
       [mkObjRef 1 1 1; mkObjRef 2 1 2; mkObjRef 3 1 3;
        mkObjRef 4 2 4; mkObjRef 5 2 3]
       2 4 5.

(** Pins in every state a restart can find them in: waiting (keys 1 and 5),
    active (2), failed (3), and neither pinning nor active nor failed (4). *)
Definition restart_db : DB :=
  mkDB [queued_pin;
        mkPin 2 110 8 root_b 3 true false false 2;
        mkPin 3 120 9 leaf_x 4 false false true 0;
        mkPin 4 130 10 leaf_y 4 false false false 0;
        mkPin 5 140 11 root_b 6 false true false 0]
       [mkObject 1 root_b 1; mkObject 2 leaf_y 1]
       [mkObjRef 1 2 1; mkObjRef 2 2 2] 5 2 2.

(** A probe that succeeds and one whose [Statfs] fails. *)
Definition good_probe : Probe := mkProbe 3 (Ok (mkStatfs 1000 400 4096)).
Definition bad_probe : Probe :=
  mkProbe 3 (Err (Errorf "no such file or directory")).

(** The update message that carries no update. *)
Definition nil_update : drpc.Message :=
  drpc.mkMessage drpc.OP_ShuttleUpdate (drpc.mkMsgParams None None None).

(** Dropping every element equal to the one before it; [prev] is the
    element before the first. *)
Fixpoint compress (prev : option N) (l : list N) : list N :=
  match l with
  | [] => []
  | x :: rest =>
      if match prev with Some y => N.eqb y x | None => false end
      then compress (Some x) rest
      else x :: compress (Some x) rest
  end.

(** The statuses of the events delivered for one channel. *)
Definition statuses_for (chid : string)
  (evs : list (datatransfer.Event * datatransfer.ChannelState)) : list N :=
  map (fun e => datatransfer.Status (snd e))
      (filter (fun e => String.eqb (datatransfer.ChannelID (snd e)) chid) evs).

(** The statuses of the updates sent for one channel. *)
Definition sent_for (chid : string) (out : list drpc.TransferStatus)
  : list N :=
  map (fun m => filclient.Status (drpc.State m))
      (filter (fun m => String.eqb (drpc.Chanid m) chid) out).

(** One tracked channel, and a transfer that goes 1, 1, 2, 2, 1 on it with
    an event for an unknown channel in between. *)
Definition one_channel : trackingChannels :=
  [("chan-1"%string, mkChanTrack 42 None)].

Definition transfer_event (chid : string) (status sent : N)
  : datatransfer.Event * datatransfer.ChannelState :=
  (datatransfer.mkEvent 0 EmptyString, datatransfer.mk chid status sent 0).

Definition back_and_forth
  : list (datatransfer.Event * datatransfer.ChannelState) :=
  [transfer_event "chan-1" 1 0; transfer_event "chan-1" 1 10;
   transfer_event "chan-9" 5 0; transfer_event "chan-1" 2 20;
   transfer_event "chan-1" 2 30; transfer_event "chan-1" 1 30].

(** An upload of a file whose DAG is [root_a] with its two leaves, by a
    user with storage enabled and by one with storage disabled. *)
Definition sample_staging : Blockstore :=
  mkBlockstore (Ok [root_a; leaf_x; leaf_y])
               (fun c => Ok (mkBlock c [Byte.x00])).

Definition sample_env : AddEnv :=
  mkAddEnv (Ok ("staging-1"%string, sample_staging)) (Ok root_a) sample_dag
           (fun _ _ _ => Ok 7%N) (fun _ => None) 100.

Definition sample_upload : Upload :=
  mkUpload None (Ok "photo.jpg"%string) None EmptyString 4.

Definition enabled_user : User := mkUser 3 "alice" 2 "token-a" false.
Definition disabled_user : User := mkUser 4 "bob" 2 "token-b" true.

(** Two messages waiting in the outbound queue, and a connection on which
    the first of them cannot be written. *)
Definition status_msg (cont : uint) : drpc.Message :=
  drpc.mkMessage "UpdatePinStatus"
    (drpc.mkMsgParams None None
       (Some (drpc.mkUpdatePinStatus cont "pinned"))).

Definition lossy_conn : Conn :=
  mkConn None
         [Outgoing (status_msg 1) (Some (Errorf "i/o timeout"));
          Outgoing (status_msg 2) None].

(** A connection that refuses the first write. *)
Definition refusing_conn : Conn :=
  mkConn (Some (Errorf "broken pipe")) [Outgoing (status_msg 1) None].

(** A connection whose read side breaks after one command. *)
Definition broken_conn : Conn :=
  mkConn None
         [Receive (Ok (drpc.mkCommand "AddPin"));
          Outgoing (status_msg 1) None;
          Receive (Err (Errorf "unexpected EOF"));
          Outgoing (status_msg 2) None;
          ReadDone;
          Outgoing (status_msg 3) None].

Definition sample_hello : drpc.Hello :=
  drpc.mkHello "shuttle.example" "12D3KooWShuttle" "f1wallet"
    (peer.mk "12D3KooWShuttle" ["/ip4/10.0.0.1/tcp/6745"%string]).

(** Events after which the loops of a session are still running. *)
Definition keeps_running (e : SessionEvent) : bool :=
  match e with
  | Receive (Ok _) => true
  | Outgoing _ _ => true
  | _ => false
  end.

Definition is_outgoing (e : SessionEvent) : bool :=
  match e with
  | Outgoing _ _ => true
  | _ => false
  end.

Definition is_message_frame (f : Frame * bool) : bool :=
  match fst f with
  | MessageFrame _ => true
  | HelloFrame _ => false
  end.

(** The object graph the walk is after. *)
Section Graph.

Variable dserv : ipld.NodeGetter.
Variable root : cid.Cid.

(** The addresses the walk can get to: the root, and the links of every
    node it can get to that the DAG service returns and that is not a raw
    leaf. *)
Inductive reachable : cid.Cid -> Prop :=
| reach_root : reachable root
| reach_link (c : cid.Cid) (node : ipld.Node) (l : cid.Cid) :
    reachable c -> dserv c = Ok node -> cid.Type_ c <> cid.Raw ->
    In l (ipld.Links node) -> reachable l.

(** An Object as the callback makes it: not yet stored, with the size of
    the node the DAG service returns for its address. *)
Definition measured (o : Object) : Prop :=
  exists node, dserv (Object_Cid o) = Ok node /\
               Object_Size o = Z.of_nat (length (ipld.RawData node)).

(** What holds of the visited set and the recorded objects between two
    calls of the callback. *)
Definition walk_inv (st : cid.Set_ * (list Object * Z)) : Prop :=
  (forall x, In x (fst st) <-> In x (map Object_Cid (fst (snd st)))) /\
  NoDup (map Object_Cid (fst (snd st))) /\
  Forall measured (fst (snd st)) /\
  (forall x, In x (fst st) -> reachable x).

(** The links of [x], if it has any to follow, are all in [seen]. *)
Definition links_in (seen : cid.Set_) (x : cid.Cid) : Prop :=
  forall node l,
    dserv x = Ok node -> cid.Type_ x <> cid.Raw ->
    In l (ipld.Links node) -> In l seen.

End Graph.

(** The calls of [PutMany] that a list of batches leaves in the log. *)
Definition put_events (bs : list (list Block)) : list Event :=
  map (fun b => EvPutMany (map Block_Cid b)) bs.

(** A batch flushed from inside the loop of [dumpBlockstoreTo]. *)
Definition full_batch (env : AddEnv) (b : list Block) : Prop :=
  length b = 501 /\ PutMany env b = None.

(** The row [handleAdd] creates for an upload. *)
Definition uploaded_row (env : AddEnv) (u : User) (d : DB) (root : cid.Cid)
  (contid : uint) : Pin :=
  mkPin (N.succ (pin_seq d)) (now env) contid root (User_ID u)
        false true false 0.

(** A staging store of 502 blocks, one whose third block cannot be read,
    and a main blockstore that refuses every write. *)
Definition many_keys : list cid.Cid :=
  map (fun n => cid.mk 85 (itoa (Z.of_nat n))) (seq 0 502).

Definition big_staging : Blockstore :=
  mkBlockstore (Ok many_keys) (fun c => Ok (mkBlock c [Byte.x00])).

Definition broken_staging : Blockstore :=
  mkBlockstore (Ok [root_a; leaf_x; leaf_y])
               (fun c => if cid.eqb c leaf_y
                         then Err (Errorf "block not found")
                         else Ok (mkBlock c [Byte.x00])).

Definition full_disk_env : AddEnv :=
  mkAddEnv (Ok ("staging-1"%string, sample_staging)) (Ok root_a) sample_dag
           (fun _ _ _ => Ok 7%N)
           (fun _ => Some (Errorf "no space left on device")) 100.

(** The messages handed to [sendRpcMessage] that a log holds, in order. *)
Definition sends (tr : list Event) : list drpc.Message :=
  flat_map (fun e => match e with EvRpcSend m => [m] | _ => [] end) tr.

(** The last element of [l], or [prev] when [l] is empty. *)
Definition latest (prev : option N) (l : list N) : option N :=
  fold_left (fun _ s => Some s) l prev.

(** What one event of a session writes to the connection, and what it hands
    to the command handler. *)
Definition frame_of (e : SessionEvent) : list (Frame * bool) :=
  match e with
  | Outgoing msg None => [(MessageFrame msg, true)]
  | Outgoing msg (Some _) => [(MessageFrame msg, false)]
  | _ => []
  end.

Definition command_of (e : SessionEvent) : list drpc.Command :=
  match e with
  | Receive (Ok cmd) => [cmd]
  | _ => []
  end.

(** A row that the scan of [refreshPinQueue] selects. *)
Definition waiting (p : Pin) : bool := negb (Pin_Active p) && Pin_Pinning p.

(** No scan of the pins table as [w1] has it queues an operation for the
    content id [cont]. *)
Definition not_restored (cont : uint) (w1 : World) : Prop :=
  forall w2,
    db w2 = db w1 ->
    exists tr,
      trace (snd (refreshPinQueue w2)) = trace w2 ++ tr /\
      forall op, In (EvPinMgrAdd op) tr -> pinner.ContId op <> cont.

(** At most one of the flags pinning, active and failed is set. *)
Definition at_most_one_flag (p : Pin) : bool :=
  negb (Pin_Pinning p && Pin_Active p)
  && negb (Pin_Pinning p && Pin_Failed p)
  && negb (Pin_Active p && Pin_Failed p).

(** A coordinator that knows one token. *)
Definition sample_viewer (url auth : string) : Result ViewerReply :=
  if String.eqb auth "Bearer token-a" then
    Ok (mkViewerReply 200 (Err (Errorf "cannot unmarshal"))
          (Ok (mkViewerResponse 3 "alice" 2 false)))
  else
    Ok (mkViewerReply 401 (Ok (401%Z, "ERR_INVALID_TOKEN"%string))
          (Err (Errorf "cannot unmarshal"))).

(** A pin that failed earlier and is processed again. *)
Definition retried_db : DB :=
  mkDB [mkPin 1 100 7 root_a 3 false false true 0] [] [] 1 0 0.

(** * Properties *)

(** ** Content addresses and small list facts *)

Lemma cid_eqb_eq (a b : cid.Cid) : cid.eqb a b = true <-> a = b.
Proof.
  destruct a as [ta sa], b as [tb sb]; unfold cid.eqb; simpl.
  rewrite andb_true_iff, N.eqb_eq, String.eqb_eq.
  split; [intros [-> ->]; reflexivity | intros H; inversion H; auto].
Qed.

Lemma lowest_id_fold (l : list Pin) (acc : option Pin) :
  forall p,
    fold_left
      (fun acc p =>
         match acc with
         | None => Some p
         | Some q => if N.ltb (Pin_ID p) (Pin_ID q) then Some p else Some q
         end) l acc = Some p ->
    acc = Some p \/ In p l.
Proof.
  revert acc; induction l as [|x l IH]; simpl; intros acc p H.
  - left; exact H.
  - apply IH in H. destruct H as [H | H]; [| right; right; exact H].
    destruct acc as [q|].
    + destruct (N.ltb (Pin_ID x) (Pin_ID q)); inversion H; subst; auto.
    + inversion H; subst; auto.
Qed.

Lemma lowest_id_In (l : list Pin) (p : Pin) :
  lowest_id l = Some p -> In p l.
Proof.
  unfold lowest_id; intros H.
  apply lowest_id_fold in H. destruct H as [H | H]; [discriminate | exact H].
Qed.

Lemma lowest_id_nonempty (l : list Pin) :
  l <> [] -> exists p, lowest_id l = Some p.
Proof.
  unfold lowest_id. destruct l as [|x l]; [congruence | intros _; simpl].
  generalize x; clear x.
  induction l as [|y l IH]; simpl; intros x; [eauto |].
  destruct (N.ltb (Pin_ID y) (Pin_ID x)); apply IH.
Qed.

(** A row found by [First] satisfies the condition of the query. *)
Lemma lowest_id_filter (f : Pin -> bool) (l : list Pin) (p : Pin) :
  lowest_id (filter f l) = Some p -> In p l /\ f p = true.
Proof.
  intros H. apply lowest_id_In in H. apply filter_In in H. exact H.
Qed.

(** ** How the primitives run *)

Lemma statement_run (s : Stmt) (w : World) :
  statement s w =
    (if hd false (db_faults w) then Failed (Errorf "database error")
     else Done tt,
     mkWorld (db w) (tl (db_faults w)) (rpc_faults w)
             (trace w ++ [EvSql s])).
Proof.
  unfold statement. destruct (db_faults w) as [|[|] fs]; reflexivity.
Qed.

Lemma gorm_First_run (q : string) (a : uint) (w : World) :
  gorm_First q a w =
    let w' := mkWorld (db w) (tl (db_faults w)) (rpc_faults w)
                      (trace w ++ [EvSql (SelectFirstPin q a)]) in
    if hd false (db_faults w) then (Failed (Errorf "database error"), w')
    else match lowest_id (filter (where_pin q a) (pins (db w))) with
         | Some p => (Done p, w')
         | None => (Failed (Errorf "record not found"), w')
         end.
Proof.
  unfold gorm_First, bind. rewrite statement_run.
  destruct (hd false (db_faults w)); [reflexivity |].
  unfold get_db; simpl.
  destruct (lowest_id _); reflexivity.
Qed.

Lemma gorm_Delete_Pin_run (id : uint) (w : World) :
  gorm_Delete_Pin id w =
    let tr := trace w ++ [EvSql (DeletePin id)] in
    if hd false (db_faults w) then
      (Failed (Errorf "database error"),
       mkWorld (db w) (tl (db_faults w)) (rpc_faults w) tr)
    else
      (Done tt,
       mkWorld (mkDB (filter (fun p => negb (N.eqb (Pin_ID p) id))
                             (pins (db w)))
                     (objects (db w)) (obj_refs (db w)) (pin_seq (db w))
                     (object_seq (db w)) (obj_ref_seq (db w)))
               (tl (db_faults w)) (rpc_faults w) tr).
Proof.
  unfold gorm_Delete_Pin, bind. rewrite statement_run.
  destruct (hd false (db_faults w)); reflexivity.
Qed.

Lemma gorm_Delete_ObjRef_run (q : string) (a : uint) (w : World) :
  gorm_Delete_ObjRef q a w =
    let tr := trace w ++ [EvSql (DeleteObjRefs q a)] in
    if hd false (db_faults w) then
      (Failed (Errorf "database error"),
       mkWorld (db w) (tl (db_faults w)) (rpc_faults w) tr)
    else
      (Done tt,
       mkWorld (mkDB (pins (db w)) (objects (db w))
                     (filter (fun r => negb (where_obj_ref q a r))
                             (obj_refs (db w)))
                     (pin_seq (db w)) (object_seq (db w))
                     (obj_ref_seq (db w)))
               (tl (db_faults w)) (rpc_faults w) tr).
Proof.
  unfold gorm_Delete_ObjRef, bind. rewrite statement_run.
  destruct (hd false (db_faults w)); reflexivity.
Qed.

Lemma gorm_UpdateColumns_run (q : string) (a : uint) (cols : Columns)
  (w : World) :
  gorm_UpdateColumns q a cols w =
    let tr := trace w ++ [EvSql (UpdatePins q a cols)] in
    if hd false (db_faults w) then
      (Failed (Errorf "database error"),
       mkWorld (db w) (tl (db_faults w)) (rpc_faults w) tr)
    else
      (Done tt,
       mkWorld (mkDB (map (fun p => if where_pin q a p
                                    then set_columns cols p else p)
                          (pins (db w)))
                     (objects (db w)) (obj_refs (db w)) (pin_seq (db w))
                     (object_seq (db w)) (obj_ref_seq (db w)))
               (tl (db_faults w)) (rpc_faults w) tr).
Proof.
  unfold gorm_UpdateColumns, bind. rewrite statement_run.
  destruct (hd false (db_faults w)); reflexivity.
Qed.

Lemma gorm_Find_run (q : string) (w : World) :
  gorm_Find q w =
    let w' := mkWorld (db w) (tl (db_faults w)) (rpc_faults w)
                      (trace w ++ [EvSql (SelectPins q)]) in
    if hd false (db_faults w) then (Failed (Errorf "database error"), w')
    else (Done (filter (where_pin q 0%N) (pins (db w))), w').
Proof.
  unfold gorm_Find, bind. rewrite statement_run.
  destruct (hd false (db_faults w)); reflexivity.
Qed.

(** ** Unpin *)

(** [clearUnreferencedObjects] has no way to return. *)
Lemma clearUnreferencedObjects_run (pin : uint) (w : World) :
  clearUnreferencedObjects pin w =
    (Panicked "nyi",
     mkWorld (db w) (db_faults w) (rpc_faults w)
             (trace w ++ [EvLock "addPinLk"; EvUnlock "addPinLk"])).
Proof.
  unfold clearUnreferencedObjects, bind, defer, panic, emit; simpl.
  rewrite <- app_assoc. reflexivity.
Qed.

(** The rows [Unpin] can take out of the pins table are those whose primary
    key is the argument; it never returns normally. *)
Lemma Unpin_outcome (contid : uint) (w : World) :
  fst (Unpin contid w) <> Done tt /\
  objects (db (snd (Unpin contid w))) = objects (db w) /\
  (pins (db (snd (Unpin contid w))) = pins (db w) \/
   pins (db (snd (Unpin contid w))) =
     filter (fun p => negb (N.eqb (Pin_ID p) contid)) (pins (db w))).
Proof.
  unfold Unpin, bind. rewrite gorm_First_run; cbv zeta.
  destruct (hd false (db_faults w));
    [repeat split; auto; discriminate |].
  destruct (lowest_id _) as [pin|] eqn:Hfirst;
    [| repeat split; auto; discriminate].
  apply lowest_id_filter in Hfirst. destruct Hfirst as [_ Hid].
  unfold where_pin in Hid; simpl in Hid. apply N.eqb_eq in Hid.
  rewrite gorm_Delete_Pin_run; cbn [db db_faults rpc_faults trace hd tl].
  destruct (hd false (tl (db_faults w)));
    [repeat split; auto; discriminate |].
  rewrite gorm_Delete_ObjRef_run; cbn [db db_faults rpc_faults trace hd tl].
  destruct (hd false (tl (tl (db_faults w)))).
  - repeat split; [discriminate | right; rewrite Hid; reflexivity].
  - rewrite clearUnreferencedObjects_run.
    repeat split; [discriminate | right; rewrite Hid; reflexivity].
Qed.

(** ** Batches *)







(** ** The walk *)

Section WalkInvariant.

Variable S : Type.
Variable getLinks : cid.Cid -> S -> Result (list cid.Cid * S).
Variable P : S -> Prop.
Hypothesis callback_keeps :
  forall c s links s', getLinks c s = Ok (links, s') -> P s -> P s'.

(** What every call of the callback keeps, a successful walk keeps. *)
Lemma Walk_keeps (depth : nat) :
  forall c st st',
    merkledag.Walk getLinks depth c st = Ok st' -> P (snd st) -> P (snd st').
Proof.
  induction depth as [|d IH]; intros c st st' Hwalk HP; simpl in Hwalk.
  - discriminate.
  - destruct (cid.Visit (fst st) c) as [fresh cset].
    destruct fresh; [| inversion Hwalk; subst; exact HP].
    destruct (getLinks c (snd st)) as [[links s1]|e] eqn:Hcb; [| discriminate].
    assert (HP1 : P (snd (cset, s1))) by (simpl; eauto).
    revert Hwalk HP1. generalize (cset, s1). clear Hcb.
    induction links as [|l rest IHl]; intros st1 Hwalk HP1.
    + inversion Hwalk; subst; exact HP1.
    + destruct (merkledag.Walk getLinks d l st1) as [st2|e] eqn:Hl;
        [| discriminate].
      apply (IHl st2 Hwalk). eapply IH; eauto.
Qed.

End WalkInvariant.

Lemma walk_callback_total (dserv : ipld.NodeGetter) (c : cid.Cid)
  (acc : list Object * Z) links acc' :
  walk_callback dserv c acc = Ok (links, acc') ->
  snd acc = sum_sizes (fst acc) -> snd acc' = sum_sizes (fst acc').
Proof.
  destruct acc as [objs total]; unfold walk_callback; simpl.
  destruct (dserv c) as [node|e]; [| discriminate].
  intros H Hsum.
  assert (Hacc : acc' = (objs ++ [mkObject 0 c
                          (Z.of_nat (length (ipld.RawData node)))],
                         int64_add total
                          (Z.of_nat (length (ipld.RawData node))))).
  { destruct (N.eqb (cid.Type_ c) cid.Raw); inversion H; reflexivity. }
  subst acc'; simpl. unfold sum_sizes. rewrite fold_left_app; simpl.
  unfold sum_sizes in Hsum. rewrite Hsum. reflexivity.
Qed.

(** The size a successful walk reports is the sum of the sizes of the
    objects it recorded. *)
Lemma Walk_total (dserv : ipld.NodeGetter) (depth : nat) (root : cid.Cid)
  cset objs total :
  merkledag.Walk (walk_callback dserv) depth root (cid.NewSet, ([], 0%Z))
    = Ok (cset, (objs, total)) ->
  total = sum_sizes objs.
Proof.
  intros H.
  exact (@Walk_keeps _ (walk_callback dserv)
           (fun acc => snd acc = sum_sizes (fst acc))
           (@walk_callback_total dserv) depth root _ _ H eq_refl).
Qed.

(** ** Bulk inserts *)

Lemma insert_batches_inv {A} (stmt : list A -> Stmt) (bs : list (list A)) :
  forall w r w',
    insert_batches stmt bs w = (r, w') ->
    db w' = db w /\ rpc_faults w' = rpc_faults w /\
    ((exists e, r = Failed e) \/
     (r = Done tt /\
      trace w' = trace w ++ map (fun b => EvSql (stmt b)) bs /\
      db_faults w' = skipn (length bs) (db_faults w))).
Proof.
  induction bs as [|b rest IH]; intros w r w' H; simpl in H.
  - inversion H; subst. repeat split; right.
    rewrite app_nil_r. auto.
  - unfold bind in H. rewrite statement_run in H.
    destruct (hd false (db_faults w)).
    + inversion H; subst; simpl. repeat split; left; eauto.
    + apply IH in H; simpl in H.
      destruct H as (Hdb & Hrpc & H). repeat split; auto.
      destruct H as [H | (Hr & Htr & Hf)]; [left; exact H | right].
      repeat split; auto.
      * rewrite Htr, <- app_assoc. reflexivity.
      * rewrite Hf. destruct (db_faults w); [destruct (length rest) |];
          reflexivity.
Qed.

Lemma CreateInBatches_objects_inv (value : list Object) (n : nat) :
  forall w r w',
    CreateInBatches_objects value n w = (r, w') ->
    let rows := number_objects (object_seq (db w)) value in
    rpc_faults w' = rpc_faults w /\
    ((exists e, r = Failed e /\ db w' = db w) \/
     (r = Done rows /\
      db w' = mkDB (pins (db w)) (objects (db w) ++ rows) (obj_refs (db w))
                   (pin_seq (db w))
                   (object_seq (db w) + N.of_nat (length rows))%N
                   (obj_ref_seq (db w)) /\
      trace w' = trace w ++ map (fun b => EvSql (InsertObjects b))
                                (batches n rows) /\
      db_faults w' = skipn (length (batches n rows)) (db_faults w))).
Proof.
  intros w r w' H. unfold CreateInBatches_objects, bind, get_db in H.
  destruct (insert_batches InsertObjects _ w) as [r1 w1] eqn:Hins.
  apply insert_batches_inv in Hins.
  destruct Hins as (Hdb & Hrpc & [[e He] | (Hr & Htr & Hf)]); subst r1.
  - inversion H; subst. split; [exact Hrpc | left; eauto].
  - unfold put_db, ret in H. inversion H; subst; simpl.
    split; [exact Hrpc | right]. repeat split; auto.
Qed.

Lemma CreateInBatches_refs_inv (value : list ObjRef) (n : nat) :
  forall w r w',
    CreateInBatches_refs value n w = (r, w') ->
    let rows := number_obj_refs (obj_ref_seq (db w)) value in
    rpc_faults w' = rpc_faults w /\
    ((exists e, r = Failed e /\ db w' = db w) \/
     (r = Done rows /\
      db w' = mkDB (pins (db w)) (objects (db w)) (obj_refs (db w) ++ rows)
                   (pin_seq (db w)) (object_seq (db w))
                   (obj_ref_seq (db w) + N.of_nat (length rows))%N /\
      trace w' = trace w ++ map (fun b => EvSql (InsertObjRefs b))
                                (batches n rows) /\
      db_faults w' = skipn (length (batches n rows)) (db_faults w))).
Proof.
  intros w r w' H. unfold CreateInBatches_refs, bind, get_db in H.
  destruct (insert_batches InsertObjRefs _ w) as [r1 w1] eqn:Hins.
  apply insert_batches_inv in Hins.
  destruct Hins as (Hdb & Hrpc & [[e He] | (Hr & Htr & Hf)]); subst r1.
  - inversion H; subst. split; [exact Hrpc | left; eauto].
  - unfold put_db, ret in H. inversion H; subst; simpl.
    split; [exact Hrpc | right]. repeat split; auto.
Qed.

(** ** Walk-and-record *)

Lemma wrap_error_inv {A} (prefix : string) (m : M A) (w : World) r w' :
  wrap_error prefix m w = (r, w') ->
  (exists e, m w = (Failed e, w') /\ r = Failed (Errorf (prefix ++ Error e)))
  \/ (m w = (r, w') /\ forall e, r <> Failed e).
Proof.
  unfold wrap_error. destruct (m w) as [[a|e|s] w1]; intros H; inversion H; subst.
  - right; split; [reflexivity | discriminate].
  - left; eauto.
  - right; split; [reflexivity | discriminate].
Qed.

(** Every way [addDatabaseTrackingToContent] can end.  It does not panic;
    when it fails the pins are as before, unless the failure is the insert
    of the ObjRefs, which comes after the update of the Pin; when it
    returns, the statements it ran are those listed, in that order. *)
Lemma addDatabaseTrackingToContent_inv (d : Shuttle)
  (ctx : context.Context) (contid : uint) (dserv : ipld.NodeGetter)
  (root : cid.Cid) (w : World) r w' :
  addDatabaseTrackingToContent d ctx contid dserv root w = (r, w') ->
  match r with
  | Panicked _ => False
  | Failed e =>
      pins (db w') = pins (db w) \/
      exists total msg,
        e = Errorf ("failed to create refs: " ++ msg) /\
        pins (db w') = map (mark_active contid total) (pins (db w))
  | Done _ =>
      exists dbpin cset objs0 total,
        lowest_id (filter (where_pin "content = ?" contid) (pins (db w)))
          = Some dbpin /\
        walk_concurrent dserv ctx root = Ok (cset, (objs0, total)) /\
        let objs := number_objects (object_seq (db w)) objs0 in
        let refs := number_obj_refs (obj_ref_seq (db w))
                      (map (fun o => mkObjRef 0 (Pin_ID dbpin) (Object_ID o))
                           objs) in
        db w' = mkDB (map (mark_active contid total) (pins (db w)))
                     (objects (db w) ++ objs) (obj_refs (db w) ++ refs)
                     (pin_seq (db w))
                     (object_seq (db w) + N.of_nat (length objs))%N
                     (obj_ref_seq (db w) + N.of_nat (length refs))%N /\
        trace w' =
          trace w
          ++ [EvSql (SelectFirstPin "content = ?" contid)]
          ++ map (fun b => EvSql (InsertObjects b)) (batches 300 objs)
          ++ [EvSql (UpdatePins "content = ?" contid (active_columns total))]
          ++ map (fun b => EvSql (InsertObjRefs b)) (batches 500 refs)
          ++ [EvPinComplete (Pin_Content dbpin) total objs]
  end.
Proof.
  intros H. unfold addDatabaseTrackingToContent, bind in H.
  rewrite gorm_First_run in H; cbv zeta in H.
  destruct (hd false (db_faults w)); [inversion H; subst; left; reflexivity |].
  destruct (lowest_id _) as [dbpin|] eqn:Hfirst;
    [| inversion H; subst; left; reflexivity].
  destruct (walk_concurrent dserv ctx root)
    as [[cset [objs0 total]]|e] eqn:Hwalk;
    unfold lift, ret, throw in H;
    [| inversion H; subst; left; reflexivity].
  cbn [snd] in H.
  match type of H with context [wrap_error ?p ?m ?w0] =>
    destruct (wrap_error p m w0) as [r1 w1] eqn:Hobj end.
  apply wrap_error_inv in Hobj.
  destruct Hobj as [(e & Hc & ->) | (Hc & Hne)];
    apply CreateInBatches_objects_inv in Hc;
    cbn [db trace db_faults rpc_faults] in Hc;
    destruct Hc as (Hrpc1 & [(e1 & He1 & Hdb1) | (Hr1 & Hdb1 & Htr1 & Hf1)]);
    try discriminate.
  - injection H as <- <-. left. rewrite Hdb1. reflexivity.
  - exfalso. exact (Hne e1 He1).
  - subst r1. clear Hne.
    match type of H with context [wrap_error ?p ?m ?w0] =>
      destruct (wrap_error p m w0) as [r2 w2] eqn:Hupd end.
    apply wrap_error_inv in Hupd. rewrite gorm_UpdateColumns_run in Hupd.
    cbv zeta in Hupd.
    destruct (hd false (db_faults w1)).
    + destruct Hupd as [(e & Hc & ->) | (Hc & Hne)].
      * injection Hc as <- <-. injection H as <- <-. cbn [db]. left.
        rewrite Hdb1. reflexivity.
      * injection Hc as <- <-. exfalso. eapply Hne; reflexivity.
    + destruct Hupd as [(e & Hc & ->) | (Hc & Hne)]; [discriminate |].
      injection Hc as <- <-. clear Hne.
      match type of H with context [wrap_error ?p ?m ?w0] =>
        destruct (wrap_error p m w0) as [r3 w3] eqn:Href end.
      apply wrap_error_inv in Href.
      destruct Href as [(e & Hc & ->) | (Hc & Hne)];
        apply CreateInBatches_refs_inv in Hc;
        cbn [db trace db_faults rpc_faults obj_ref_seq] in Hc;
        destruct Hc as (Hrpc3 & [(e3 & He3 & Hdb3) | (Hr3 & Hdb3 & Htr3 & Hf3)]);
        try discriminate.
      * injection H as <- <-. right. exists total, (Error e).
        split; [reflexivity |]. rewrite Hdb3. cbn [pins]. rewrite Hdb1.
        reflexivity.
      * exfalso. exact (Hne e3 He3).
      * subst r3. unfold sendPinCompleteMessage, emit in H.
        injection H as <- <-. cbn [db trace].
        exists dbpin, cset, objs0, total. split; [reflexivity |].
        split; [reflexivity |]. cbv zeta. split.
        -- rewrite Hdb3.
           cbn [pins objects obj_refs pin_seq object_seq obj_ref_seq].
           rewrite Hdb1. reflexivity.
        -- rewrite Htr3. rewrite Htr1. rewrite Hdb1. cbn [obj_ref_seq].
           repeat rewrite <- app_assoc. reflexivity.
Qed.

Lemma where_content (contid : uint) (p : Pin) :
  where_pin "content = ?" contid p = N.eqb (Pin_Content p) contid.
Proof. reflexivity. Qed.

Lemma where_id (id : uint) (p : Pin) :
  where_pin "id = ?" id p = N.eqb (Pin_ID p) id.
Proof. reflexivity. Qed.

Lemma mark_active_other (contid : uint) (total : Z) (p : Pin) :
  Pin_Content p <> contid -> mark_active contid total p = p.
Proof.
  intros Hne. unfold mark_active. rewrite where_content.
  apply N.eqb_neq in Hne. rewrite Hne. reflexivity.
Qed.

Lemma mark_failed_other (cont : uint) (p : Pin) :
  Pin_Content p <> cont -> mark_failed cont p = p.
Proof.
  intros Hne. unfold mark_failed. rewrite where_content.
  apply N.eqb_neq in Hne. rewrite Hne. reflexivity.
Qed.

Lemma mark_active_Failed (contid : uint) (total : Z) (p : Pin) :
  Pin_Failed (mark_active contid total p) = Pin_Failed p.
Proof.
  unfold mark_active. destruct (where_pin _ contid p); reflexivity.
Qed.

Lemma In_map_fixed {A} (f : A -> A) (l : list A) (a : A) :
  f a = a -> In a l -> In a (map f l).
Proof.
  intros Hf Hin. rewrite <- Hf. apply in_map. exact Hin.
Qed.

(** ** Processing a pin *)

Lemma log_only_ret : log_only (ret tt).
Proof.
  intros w. exists []. rewrite app_nil_r. destruct w; reflexivity.
Qed.

Lemma log_only_emit (e : Event) : log_only (emit e).
Proof. intros w. exists [e]. reflexivity. Qed.

Lemma log_only_bind (m : M unit) (k : unit -> M unit) :
  log_only m -> (forall x, log_only (k x)) -> log_only (bind m k).
Proof.
  intros Hm Hk w. unfold bind.
  destruct (Hm w) as [tr1 ->].
  destruct (Hk tt (mkWorld (db w) (db_faults w) (rpc_faults w)
                           (trace w ++ tr1))) as [tr2 ->].
  exists (tr1 ++ tr2). cbn [db db_faults rpc_faults trace].
  rewrite app_assoc. reflexivity.
Qed.

Lemma log_only_for_each {A} (l : list A) (body : A -> M unit) :
  (forall a, log_only (body a)) -> log_only (for_each l body).
Proof.
  intros Hbody. induction l as [|a rest IH]; simpl.
  - apply log_only_ret.
  - apply log_only_bind; [apply Hbody | intros _; exact IH].
Qed.

(** Connecting to the peers of an operation touches only the event log. *)
Lemma connect_peers_run (d : Shuttle) (peers : list peer.AddrInfo) :
  log_only
    (for_each peers
       (fun pi =>
          emit (EvConnect pi) ;;
          match Host_Connect (Shuttle_Node d) pi with
          | Some _ =>
              log "failed to connect to origin node for pinning operation"
          | None => ret tt
          end)).
Proof.
  apply log_only_for_each. intros pi.
  apply log_only_bind; [apply log_only_emit | intros _].
  destruct (Host_Connect (Shuttle_Node d) pi);
    [apply log_only_emit | apply log_only_ret].
Qed.

(** Announcing the root touches only the event log. *)
Lemma provide_run (d : Shuttle) (c : cid.Cid) :
  log_only
    (emit (EvFullRTProvide c) ;;
     match FullRT_Provide (Shuttle_Node d) c with
     | Some _ => log "provider broadcast failed"
     | None => ret tt
     end ;;
     emit (EvProvide c) ;;
     match Provider_Provide (Shuttle_Node d) c with
     | Some _ => log "providing failed"
     | None => ret tt
     end).
Proof.
  apply log_only_bind; [apply log_only_emit | intros _].
  apply log_only_bind;
    [destruct (FullRT_Provide _ c); [apply log_only_emit | apply log_only_ret]
    | intros _].
  apply log_only_bind; [apply log_only_emit | intros _].
  destruct (Provider_Provide _ c); [apply log_only_emit | apply log_only_ret].
Qed.

(** [doPinning] ends the way its call of [addDatabaseTrackingToContent]
    ends, and changes the database only through it. *)
Lemma doPinning_inv (d : Shuttle) (ctx : context.Context)
  (op : pinner.PinningOperation)
  (w : World) r w' :
  doPinning d ctx op w = (r, w') ->
  exists w0 w1,
    db w0 = db w /\
    addDatabaseTrackingToContent d ctx (pinner.ContId op)
      (Node_DAG (Shuttle_Node d)) (pinner.Obj op) w0 = (r, w1) /\
    db w' = db w1.
Proof.
  unfold doPinning. unfold bind at 1.
  destruct (connect_peers_run d (pinner.Peers op) w) as [tr Htr].
  rewrite Htr. set (w0 := mkWorld _ _ _ _).
  unfold bind at 1.
  destruct (addDatabaseTrackingToContent _ _ _ _ _ w0) as [r1 w1] eqn:Hadd.
  intros H. exists w0, w1. split; [reflexivity |].
  destruct r1 as [[]|e|s].
  - destruct (provide_run d (pinner.Obj op) w1) as [tr2 Htr2].
    rewrite Htr2 in H. injection H as <- <-.
    split; [exact Hadd | reflexivity].
  - injection H as <- <-. split; [exact Hadd | reflexivity].
  - injection H as <- <-. split; [exact Hadd | reflexivity].
Qed.

(** ** Status updates *)

(** A message handed over in a goroutine leaves the database alone. *)
Lemma go_send_db (msg : drpc.Message) (line : string) (w : World) :
  fst (go (on_error (sendRpcMessage msg) (fun _ => log line)) w) = Done tt /\
  db (snd (go (on_error (sendRpcMessage msg) (fun _ => log line)) w)) = db w.
Proof.
  unfold go, on_error, sendRpcMessage, log, emit.
  destruct (rpc_faults w) as [|[|] fs]; split; reflexivity.
Qed.

(** What [onPinStatusUpdate] does to the pins table: nothing, unless the
    status is "failed" and the update goes through. *)
Lemma onPinStatusUpdate_pins (cont : uint) (status : string) (w : World) :
  fst (onPinStatusUpdate cont status w) = Done tt /\
  pins (db (snd (onPinStatusUpdate cont status w))) =
    if String.eqb status "failed" && negb (hd false (db_faults w))
    then map (mark_failed cont) (pins (db w))
    else pins (db w).
Proof.
  unfold onPinStatusUpdate, bind, on_error, go, log, emit, sendRpcMessage,
    ret, gorm_UpdateColumns, bind, statement, get_db, put_db.
  destruct (String.eqb status "failed");
    destruct (db_faults w) as [|[|] fs];
    destruct (rpc_faults w) as [|[|] rs];
    cbn [fst snd db pins db_faults rpc_faults trace hd tl andb negb];
    split; reflexivity.
Qed.

(** ** Unpin and the primary key *)

Lemma filter_none_all (f : Pin -> bool) (l : list Pin) :
  lowest_id (filter f l) = None ->
  filter (fun p => negb (f p)) l = l.
Proof.
  intros Hnone.
  assert (Hempty : filter f l = []).
  { destruct (filter f l) as [|x rest] eqn:Hfl; [reflexivity |].
    destruct (@lowest_id_nonempty (x :: rest)) as [q Hq]; [discriminate |].
    congruence. }
  clear Hnone. induction l as [|a l IH]; simpl in *; [reflexivity |].
  destruct (f a); [discriminate |]. simpl. f_equal. apply IH. exact Hempty.
Qed.

(** When the database answers every statement, [Unpin] removes exactly the
    rows whose primary key is its argument. *)
Lemma Unpin_pins_no_fault (contid : uint) (w : World) :
  db_faults w = [] ->
  pins (db (snd (Unpin contid w))) =
    filter (fun q => negb (N.eqb (Pin_ID q) contid)) (pins (db w)).
Proof.
  intros Hf. unfold Unpin, bind. rewrite gorm_First_run; cbv zeta.
  rewrite Hf; cbn [hd tl].
  destruct (lowest_id _) as [pin|] eqn:Hfirst.
  - apply lowest_id_filter in Hfirst. destruct Hfirst as [_ Hid].
    rewrite where_id in Hid. apply N.eqb_eq in Hid.
    rewrite gorm_Delete_Pin_run; cbn [db db_faults rpc_faults trace hd tl].
    rewrite gorm_Delete_ObjRef_run; cbn [db db_faults rpc_faults trace hd tl].
    rewrite clearUnreferencedObjects_run. rewrite Hid. reflexivity.
  - cbn [snd db]. symmetry.
    apply (filter_none_all (where_pin "id = ?" contid)). exact Hfirst.
Qed.

(** ** Rows as stored *)



Lemma number_obj_refs_Pin (seq : uint) (l : list ObjRef) :
  map ObjRef_Pin (number_obj_refs seq l) = map ObjRef_Pin l.
Proof.
  revert seq; induction l as [|o rest IH]; intros seq; simpl;
    [reflexivity | rewrite IH; reflexivity].
Qed.


(** ** Restoring the queue *)

Lemma queue_rows_run (rows : list Pin) :
  forall w,
    for_each rows (fun c => addPinToQueue c [] 0%N) w =
      (Done tt,
       mkWorld (db w) (db_faults w) (rpc_faults w)
               (trace w ++ map (fun p => EvPinMgrAdd (restored_op p)) rows)).
Proof.
  induction rows as [|p rest IH]; intros w; simpl.
  - rewrite app_nil_r. destruct w; reflexivity.
  - unfold bind, addPinToQueue, PinMgr_Add, emit. rewrite IH.
    cbn [db db_faults rpc_faults trace]. rewrite <- app_assoc. reflexivity.
Qed.

Lemma NoDup_map_filter {A B} (f : A -> B) (g : A -> bool) (l : list A) :
  NoDup (map f l) -> NoDup (map f (filter g l)).
Proof.
  induction l as [|a rest IH]; simpl; intros Hnd; [constructor |].
  inversion Hnd as [|x xs Hnotin Hrest]; subst.
  destruct (g a); simpl; [| apply IH; exact Hrest].
  constructor; [| apply IH; exact Hrest].
  intros Hin. apply Hnotin.
  apply in_map_iff in Hin. destruct Hin as (y & Hy & Hyin).
  apply filter_In in Hyin. apply in_map_iff. exists y. tauto.
Qed.

(** ** Channel tracker *)

Lemma map_get_set_same (m : trackingChannels) (k : string) (v : chanTrack) :
  map_get (map_set m k v) k = Some v.
Proof.
  induction m as [|[k' v'] rest IH]; simpl.
  - rewrite String.eqb_refl. reflexivity.
  - destruct (String.eqb k k') eqn:Hk; simpl.
    + rewrite String.eqb_refl. reflexivity.
    + rewrite Hk. exact IH.
Qed.

Lemma map_get_set_other (m : trackingChannels) (k k' : string)
  (v : chanTrack) :
  k <> k' -> map_get (map_set m k v) k' = map_get m k'.
Proof.
  intros Hne. induction m as [|[k0 v0] rest IH]; simpl.
  - apply String.eqb_neq in Hne. rewrite String.eqb_sym, Hne. reflexivity.
  - destruct (String.eqb k k0) eqn:Hk; simpl.
    + apply String.eqb_eq in Hk. subst k0.
      assert (Hk' : String.eqb k' k = false)
        by (apply String.eqb_neq; congruence).
      rewrite Hk'. reflexivity.
    + destruct (String.eqb k' k0); [reflexivity | exact IH].
Qed.

(** An event for a channel without an entry changes nothing and sends
    nothing. *)
Lemma onTransferEvent_untracked (tc : trackingChannels)
  (event : datatransfer.Event) (st : datatransfer.ChannelState) :
  map_get tc (datatransfer.ChannelID st) = None ->
  onTransferEvent tc event st = (tc, []).
Proof.
  intros Hnone. unfold onTransferEvent. rewrite Hnone. reflexivity.
Qed.

(** An event leaves the entries of the other channels alone, and what it
    sends is about its own channel. *)
Lemma onTransferEvent_other (tc : trackingChannels)
  (event : datatransfer.Event) (st : datatransfer.ChannelState)
  (chid : string) :
  datatransfer.ChannelID st <> chid ->
  map_get (fst (onTransferEvent tc event st)) chid = map_get tc chid /\
  sent_for chid (snd (onTransferEvent tc event st)) = [].
Proof.
  intros Hne. unfold onTransferEvent.
  destruct (map_get tc (datatransfer.ChannelID st)) as [trk|];
    [| split; reflexivity].
  match goal with |- context [if ?c then _ else _] => destruct c end;
    [| split; reflexivity].
  cbn [fst snd]. split.
  - apply map_get_set_other. exact Hne.
  - unfold sent_for; simpl.
    apply String.eqb_neq in Hne. rewrite Hne. reflexivity.
Qed.

(** An event for a tracked channel: an update is sent exactly when the
    status differs from the last one recorded, and afterwards the recorded
    status is that of the event. *)
Lemma onTransferEvent_tracked (tc : trackingChannels)
  (event : datatransfer.Event) (st : datatransfer.ChannelState)
  (trk : chanTrack) :
  map_get tc (datatransfer.ChannelID st) = Some trk ->
  exists trk',
    map_get (fst (onTransferEvent tc event st)) (datatransfer.ChannelID st)
      = Some trk' /\
    dbid trk' = dbid trk /\
    option_map filclient.Status (last trk')
      = Some (datatransfer.Status st) /\
    sent_for (datatransfer.ChannelID st) (snd (onTransferEvent tc event st))
      = compress (option_map filclient.Status (last trk))
                 [datatransfer.Status st] /\
    Forall (fun m => drpc.DealDBID m = dbid trk)
           (snd (onTransferEvent tc event st)).
Proof.
  intros Hget. unfold onTransferEvent. rewrite Hget.
  destruct (last trk) as [l|] eqn:Hlast; simpl.
  - destruct (N.eqb (filclient.Status l) (datatransfer.Status st)) eqn:Heq;
      simpl.
    + exists trk. rewrite Hget, Hlast; simpl.
      apply N.eqb_eq in Heq. rewrite Heq. repeat split. constructor.
    + eexists. rewrite map_get_set_same. unfold sent_for; simpl.
      rewrite String.eqb_refl; simpl. repeat split.
      constructor; [reflexivity | constructor].
  - eexists. rewrite map_get_set_same. unfold sent_for; simpl.
    rewrite String.eqb_refl; simpl. repeat split.
    constructor; [reflexivity | constructor].
Qed.

Lemma sent_for_app (chid : string) (a b : list drpc.TransferStatus) :
  sent_for chid (a ++ b) = sent_for chid a ++ sent_for chid b.
Proof.
  unfold sent_for. rewrite filter_app, map_app. reflexivity.
Qed.

Lemma onTransferEvents_cons (tc : trackingChannels)
  (event : datatransfer.Event) (st : datatransfer.ChannelState) rest :
  onTransferEvents tc ((event, st) :: rest) =
    (fst (onTransferEvents (fst (onTransferEvent tc event st)) rest),
     snd (onTransferEvent tc event st)
     ++ snd (onTransferEvents (fst (onTransferEvent tc event st)) rest)).
Proof.
  simpl. destruct (onTransferEvent tc event st) as [tc' out].
  simpl. destruct (onTransferEvents tc' rest). reflexivity.
Qed.

(** Events never reach a channel that has no entry. *)
Lemma onTransferEvents_untracked (chid : string) evs :
  forall tc,
    map_get tc chid = None ->
    sent_for chid (snd (onTransferEvents tc evs)) = [].
Proof.
  induction evs as [|[event st] rest IH]; intros tc Hnone; [reflexivity |].
  rewrite onTransferEvents_cons; cbn [snd]. rewrite sent_for_app.
  destruct (String.eqb (datatransfer.ChannelID st) chid) eqn:Hc.
  - apply String.eqb_eq in Hc. subst chid.
    rewrite (onTransferEvent_untracked tc event st Hnone); simpl.
    apply IH. exact Hnone.
  - apply String.eqb_neq in Hc.
    destruct (onTransferEvent_other tc event st Hc) as [Hget Hsent].
    rewrite Hsent; simpl. apply IH. rewrite Hget. exact Hnone.
Qed.

Lemma onTransferEvents_tracked (chid : string) evs :
  forall tc trk,
    map_get tc chid = Some trk ->
    sent_for chid (snd (onTransferEvents tc evs)) =
      compress (option_map filclient.Status (last trk))
               (statuses_for chid evs) /\
    Forall (fun m => drpc.Chanid m = chid -> drpc.DealDBID m = dbid trk)
           (snd (onTransferEvents tc evs)).
Proof.
  induction evs as [|[event st] rest IH]; intros tc trk Hget.
  - split; [reflexivity | constructor].
  - rewrite onTransferEvents_cons; cbn [snd]. rewrite sent_for_app.
    unfold statuses_for; simpl.
    destruct (String.eqb (datatransfer.ChannelID st) chid) eqn:Hc.
    + apply String.eqb_eq in Hc. subst chid.
      destruct (onTransferEvent_tracked tc event st Hget)
        as (trk' & Hget' & Hdbid & Hlast & Hsent & Hall).
      destruct (IH _ _ Hget') as [IHsent IHall].
      rewrite Hsent, IHsent, Hlast. split.
      * simpl. unfold statuses_for.
        destruct (match option_map filclient.Status (last trk) with
                  | Some y => N.eqb y (datatransfer.Status st)
                  | None => false
                  end); reflexivity.
      * apply Forall_app. split.
        -- eapply Forall_impl; [| exact Hall]. simpl; intros m Hm _. exact Hm.
        -- rewrite <- Hdbid. exact IHall.
    + apply String.eqb_neq in Hc.
      destruct (onTransferEvent_other tc event st Hc) as [Hget' Hsent].
      rewrite Hsent; simpl. rewrite <- Hget' in Hget.
      destruct (IH _ _ Hget) as [IHsent IHall]. split; [exact IHsent |].
      apply Forall_app. split; [| exact IHall].
      unfold onTransferEvent.
      destruct (map_get tc (datatransfer.ChannelID st)) as [t|];
        [| constructor].
      match goal with |- context [if ?c then _ else _] => destruct c end;
        [| constructor].
      constructor; [| constructor]. simpl. intros Heq. contradiction.
Qed.

(** ** RPC session *)

(** Inside the loops the session only ever adds message frames to what is
    already on the wire. *)
Lemma session_step_wire (s : Session) (e : SessionEvent) :
  exists more,
    wire (session_of (session_step s e)) = wire s ++ more /\
    forallb is_message_frame more = true.
Proof.
  destruct e as [[cmd|err]| |msg [err|]]; simpl.
  - destruct (reading s); exists []; rewrite app_nil_r; split; reflexivity.
  - destruct (reading s); exists []; rewrite app_nil_r; split; reflexivity.
  - destruct (readDone s); exists []; rewrite app_nil_r; split; reflexivity.
  - exists [(MessageFrame msg, false)]. split; reflexivity.
  - exists [(MessageFrame msg, true)]. split; reflexivity.
Qed.

Lemma session_loop_wire (evs : list SessionEvent) :
  forall s, exists more,
    wire (session_of (session_loop s evs)) = wire s ++ more /\
    forallb is_message_frame more = true.
Proof.
  induction evs as [|e rest IH]; intros s; simpl.
  - exists []. rewrite app_nil_r. split; reflexivity.
  - destruct (session_step_wire s e) as (m1 & Hw1 & Hm1).
    destruct (session_step s e) as [s1|err s1|s1]; simpl in Hw1.
    + destruct (IH s1) as (m2 & Hw2 & Hm2).
      exists (m1 ++ m2). rewrite Hw2, Hw1, app_assoc. split; [reflexivity |].
      rewrite forallb_app, Hm1, Hm2. reflexivity.
    + exists m1. split; assumption.
    + exists m1. split; assumption.
Qed.

(** The loops are left only through the read-done signal, and that signal
    is only ever raised by a failed read. *)
Lemma session_loop_returns (evs : list SessionEvent) :
  forall s err s',
    session_loop s evs = Returned err s' ->
    err = Some (Errorf "read routine exited, assuming socket is closed") /\
    readDone s' = true /\
    (readDone s = false ->
     exists pre e post, evs = pre ++ Receive (Err e) :: post).
Proof.
  induction evs as [|ev rest IH]; intros s err s' H; simpl in H;
    [discriminate |].
  destruct ev as [[cmd|e]| |msg [e|]]; simpl in H.
  - destruct (reading s); [| discriminate].
    apply IH in H. destruct H as (He & Hd & Hpre). repeat split; auto.
    simpl in Hpre. intros Hs. destruct (Hpre Hs) as (pre & e & post & ->).
    exists (Receive (Ok cmd) :: pre), e, post. reflexivity.
  - destruct (reading s); [| discriminate].
    apply IH in H. destruct H as (He & Hd & _). repeat split; auto.
    intros _. exists [], e, rest. reflexivity.
  - destruct (readDone s) eqn:Hrd; [| discriminate].
    injection H as <- <-. repeat split. intros Hfalse. discriminate.
  - apply IH in H. destruct H as (He & Hd & Hpre). repeat split; auto.
    simpl in Hpre. intros Hs. destruct (Hpre Hs) as (pre & e0 & post & ->).
    exists (Outgoing msg (Some e) :: pre), e0, post. reflexivity.
  - apply IH in H. destruct H as (He & Hd & Hpre). repeat split; auto.
    simpl in Hpre. intros Hs. destruct (Hpre Hs) as (pre & e0 & post & ->).
    exists (Outgoing msg None :: pre), e0, post. reflexivity.
Qed.

(** Commands and outgoing messages, written or not, keep a session with a
    live read side in its loops. *)
Lemma session_loop_running (pre rest : list SessionEvent) :
  forall s,
    forallb keeps_running pre = true ->
    reading s = true ->
    exists s1,
      session_loop s (pre ++ rest) = session_loop s1 rest /\
      reading s1 = true /\ readDone s1 = readDone s /\
      taken s1 = taken s + length pre.
Proof.
  induction pre as [|e pre IH]; intros s Hall Hr; simpl in *.
  - exists s. repeat split; auto.
  - apply andb_true_iff in Hall. destruct Hall as [He Hall].
    destruct e as [[cmd|err]| |msg [err|]]; try discriminate; simpl.
    + rewrite Hr.
      match goal with |- context [session_loop ?s0 (pre ++ rest)] =>
        destruct (IH s0 Hall eq_refl) as (s1 & -> & Hr1 & Hd1 & Ht1) end.
      exists s1. simpl in *. repeat split; auto. lia.
    + match goal with |- context [session_loop ?s0 (pre ++ rest)] =>
        destruct (IH s0 Hall Hr) as (s1 & -> & Hr1 & Hd1 & Ht1) end.
      exists s1. simpl in *. repeat split; auto. lia.
    + match goal with |- context [session_loop ?s0 (pre ++ rest)] =>
        destruct (IH s0 Hall Hr) as (s1 & -> & Hr1 & Hd1 & Ht1) end.
      exists s1. simpl in *. repeat split; auto. lia.
Qed.

(** Outgoing messages, written or not, keep any session in its loops. *)
Lemma session_loop_outgoing (mid rest : list SessionEvent) :
  forall s,
    forallb is_outgoing mid = true ->
    exists s1,
      session_loop s (mid ++ rest) = session_loop s1 rest /\
      reading s1 = reading s /\ readDone s1 = readDone s /\
      taken s1 = taken s + length mid.
Proof.
  induction mid as [|e mid IH]; intros s Hall; simpl in *.
  - exists s. repeat split; auto.
  - apply andb_true_iff in Hall. destruct Hall as [He Hall].
    destruct e as [r| |msg [err|]]; try discriminate; simpl.
    + match goal with |- context [session_loop ?s0 (mid ++ rest)] =>
        destruct (IH s0 Hall) as (s1 & -> & Hr1 & Hd1 & Ht1) end.
      exists s1. simpl in *. repeat split; auto. lia.
    + match goal with |- context [session_loop ?s0 (mid ++ rest)] =>
        destruct (IH s0 Hall) as (s1 & -> & Hr1 & Hd1 & Ht1) end.
      exists s1. simpl in *. repeat split; auto. lia.
Qed.

Lemma RunRpcConnection_sessions (d : Shuttle)
  (attempts : list (option Conn)) :
  forall o,
    In (Ran o) (RunRpcConnection d attempts) ->
    exists conn, In (Some conn) attempts /\ o = runRpc d conn.
Proof.
  induction attempts as [|[conn|] rest IH]; intros o Hin; simpl in Hin.
  - contradiction.
  - assert (Hhere : In (Ran o) [Dialed true; Ran (runRpc d conn)] ->
                    o = runRpc d conn).
    { intros [H | [H | []]]; [discriminate | injection H as <-; reflexivity]. }
    destruct (runRpc d conn) as [s|[e|] s|s] eqn:Hrun.
    + exists conn. split; [left; reflexivity |]. rewrite Hrun.
      apply Hhere. exact Hin.
    + destruct Hin as [H | [H | [H | [H | Hin]]]]; try discriminate.
      * injection H as <-. exists conn. split; [left; reflexivity | auto].
      * destruct (IH o Hin) as (c & Hc & Ho). exists c.
        split; [right; exact Hc | exact Ho].
    + destruct Hin as [H | [H | [H | [H | Hin]]]]; try discriminate.
      * injection H as <-. exists conn. split; [left; reflexivity | auto].
      * destruct (IH o Hin) as (c & Hc & Ho). exists c.
        split; [right; exact Hc | exact Ho].
    + exists conn. split; [left; reflexivity |]. rewrite Hrun.
      apply Hhere. exact Hin.
  - destruct Hin as [H | [H | [H | Hin]]]; try discriminate.
    destruct (IH o Hin) as (c & Hc & Ho). exists c.
    split; [right; exact Hc | exact Ho].
Qed.

(** ** Upload handler *)

Lemma bind_Done_inv {A B} (m : M A) (k : A -> M B) (w : World) b w' :
  bind m k w = (Done b, w') ->
  exists a w1, m w = (Done a, w1) /\ k a w1 = (Done b, w').
Proof.
  unfold bind. destruct (m w) as [[a|e|s] w1]; intros H;
    [eauto | discriminate | discriminate].
Qed.

Lemma lift_Done_inv {A} (r : Result A) (w : World) a w' :
  lift r w = (Done a, w') -> r = Ok a /\ w' = w.
Proof.
  destruct r as [x|e]; unfold lift, ret, throw; intros H;
    [injection H as <- <-; auto | discriminate].
Qed.

Lemma defer_Done_inv {A} (body : M A) (f : M unit) (w : World) a w' :
  defer body f w = (Done a, w') ->
  exists w1, body w = (Done a, w1).
Proof.
  unfold defer. destruct (body w) as [r w1]. destruct (f w1) as [u w2].
  intros H. injection H as -> _. eauto.
Qed.

(** ** The walk and the graph *)

Lemma Has_In (s : cid.Set_) (c : cid.Cid) : cid.Has s c = true <-> In c s.
Proof.
  unfold cid.Has. rewrite existsb_exists. split.
  - intros (x & Hx & Heq). apply cid_eqb_eq in Heq. subst x. exact Hx.
  - intros Hin. exists c. split; [exact Hin | apply cid_eqb_eq; reflexivity].
Qed.

Lemma cid_eq_dec (a b : cid.Cid) : {a = b} + {a <> b}.
Proof.
  destruct (cid.eqb a b) eqn:H.
  - left. apply cid_eqb_eq. exact H.
  - right. intros Heq. apply cid_eqb_eq in Heq. congruence.
Qed.

Section WalkGraph.

Variable dserv : ipld.NodeGetter.
Variable root : cid.Cid.

Lemma links_in_incl (s1 s2 : cid.Set_) (x : cid.Cid) :
  incl s1 s2 -> links_in dserv s1 x -> links_in dserv s2 x.
Proof.
  intros Hincl H node l Hn Hr Hl. apply Hincl. eapply H; eauto.
Qed.

Lemma Walk_graph (depth : nat) :
  forall c st st',
    merkledag.Walk (walk_callback dserv) depth c st = Ok st' ->
    walk_inv dserv root st -> reachable dserv root c ->
    walk_inv dserv root st' /\ incl (fst st) (fst st') /\ In c (fst st') /\
    (forall x, In x (fst st') -> ~ In x (fst st) -> links_in dserv (fst st') x).
Proof.
  induction depth as [|d IH]; intros c st st' Hwalk Hinv Hc; simpl in Hwalk;
    [discriminate |].
  unfold cid.Visit in Hwalk.
  destruct (cid.Has (fst st) c) eqn:Hhas.
  - injection Hwalk as <-. apply Has_In in Hhas.
    split; [exact Hinv |]. split; [apply incl_refl |].
    split; [exact Hhas |]. intros x Hx Hnx. contradiction.
  - assert (Hfresh : ~ In c (fst st)).
    { intros Hin. apply Has_In in Hin. congruence. }
    destruct st as [cset [objs total]]; cbn [fst snd] in *.
    unfold walk_callback in Hwalk at 1.
    destruct (dserv c) as [node|e] eqn:Hget; [| discriminate].
    set (o := mkObject 0 c (Z.of_nat (length (ipld.RawData node)))) in *.
    set (links := if N.eqb (cid.Type_ c) cid.Raw then [] else ipld.Links node).
    assert (Hlinks : forall l, In l links -> reachable dserv root l).
    { intros l Hl. unfold links in Hl.
      destruct (N.eqb (cid.Type_ c) cid.Raw) eqn:Hraw; [contradiction |].
      apply N.eqb_neq in Hraw. eapply reach_link; eauto. }
    set (st1 := (c :: cset, (objs ++ [o], int64_add total (Object_Size o)))).
    assert (Hinv1 : walk_inv dserv root st1).
    { destruct Hinv as (Hsame & Hnd & Hmeas & Hreach). cbn [fst snd] in *.
      unfold walk_inv, st1; cbn [fst snd]. rewrite map_app; simpl map.
      split; [| split; [| split]].
      - intros x. rewrite in_app_iff; simpl. rewrite <- Hsame. tauto.
      - apply NoDup_app; [exact Hnd | repeat constructor; intros [] | ].
        intros x Hx [<- | []]. apply Hfresh. apply Hsame. exact Hx.
      - apply Forall_app. split; [exact Hmeas |].
        constructor; [| constructor]. exists node. split; [exact Hget | reflexivity].
      - intros x [<- | Hx]; [exact Hc | apply Hreach; exact Hx]. }
    assert (Hloop :
      walk_inv dserv root st' /\ incl (fst st1) (fst st') /\
      (forall l, In l links -> In l (fst st')) /\
      (forall x, In x (fst st') -> ~ In x (fst st1) -> links_in dserv (fst st') x)).
    { assert (Hrun :
        (fix each (ls : list cid.Cid) (st : cid.Set_ * (list Object * Z)) :=
           match ls with
           | [] => Ok st
           | l :: rest =>
               match merkledag.Walk (walk_callback dserv) d l st with
               | Ok st' => each rest st'
               | Err e => Err e
               end
           end) links st1 = Ok st').
      { unfold links, st1, o; cbn [Object_Size].
        destruct (N.eqb (cid.Type_ c) cid.Raw); exact Hwalk. }
      clear Hwalk. revert Hrun Hinv1 Hlinks. generalize st1. generalize links.
      clear - IH. intros ls.
      induction ls as [|l rest IHl]; intros s1 Hrun Hinv1 Hlinks.
      - injection Hrun as <-.
        split; [exact Hinv1 |]. split; [apply incl_refl |].
        split; [intros l [] |]. intros x Hx Hnx. contradiction.
      - destruct (merkledag.Walk (walk_callback dserv) d l s1) as [s2|e] eqn:Hl;
          [| discriminate].
        destruct (IH _ _ _ Hl Hinv1 (Hlinks l (or_introl eq_refl)))
          as (Hinv2 & Hincl2 & Hin2 & Hnew2).
        destruct (IHl s2 Hrun Hinv2 (fun x Hx => Hlinks x (or_intror Hx)))
          as (Hinv3 & Hincl3 & Hin3 & Hnew3).
        split; [exact Hinv3 |].
        split; [eapply incl_tran; eauto |].
        split.
        + intros x [<- | Hx]; [apply Hincl3; exact Hin2 | apply Hin3; exact Hx].
        + intros x Hx Hnx.
          destruct (in_dec cid_eq_dec x (fst s2)) as [Hx2 | Hx2].
          * eapply links_in_incl; [exact Hincl3 | apply Hnew2; assumption].
          * apply Hnew3; assumption. }
    destruct Hloop as (Hinv' & Hincl' & Hin' & Hnew').
    split; [exact Hinv' |].
    split; [intros x Hx; apply Hincl'; right; exact Hx |].
    split; [apply Hincl'; left; reflexivity |].
    intros x Hx Hnx.
    destruct (cid_eq_dec x c) as [-> | Hxc].
    + intros node' l Hn Hr Hl. rewrite Hget in Hn. injection Hn as <-.
      apply Hin'. unfold links. apply N.eqb_neq in Hr. rewrite Hr. exact Hl.
    + apply Hnew'; [exact Hx |]. intros [Heq | Hin]; [congruence | contradiction].
Qed.

End WalkGraph.

(** What the walk with its callbacks in turn has gathered when it succeeds
    from the empty set. *)
Lemma Walk_from_root (dserv : ipld.NodeGetter) (depth : nat)
  (root : cid.Cid) (cset : cid.Set_) (visited : list Object) (total : Z) :
  merkledag.Walk (walk_callback dserv) depth root (cid.NewSet, ([], 0%Z))
    = Ok (cset, (visited, total)) ->
  total = sum_sizes visited /\
  NoDup (map Object_Cid visited) /\
  (forall c, In c cset <-> In c (map Object_Cid visited)) /\
  Forall (measured dserv) visited /\
  (forall c, In c cset <-> reachable dserv root c).
Proof.
  intros Hwalk.
  assert (Hinv0 : walk_inv dserv root (cid.NewSet, ([], 0%Z))).
  { unfold walk_inv; simpl. repeat split; try tauto; constructor. }
  destruct (@Walk_graph dserv root depth _ _ _ Hwalk Hinv0
              (reach_root dserv root))
    as ((Hsame & Hnd & Hmeas & Hreach) & _ & Hroot & Hclosed).
  cbn [fst snd] in *.
  split; [exact (Walk_total _ _ _ Hwalk) |].
  split; [exact Hnd |]. split; [exact Hsame |]. split; [exact Hmeas |].
  intros c. split; [apply Hreach |].
  intros Hc.
  induction Hc as [|c node l Hc IHc Hget Hraw Hl]; [exact Hroot |].
  apply (Hclosed c IHc (fun H => H) node l Hget Hraw Hl).
Qed.

(** ** Callbacks that overlap *)

Lemma pick_In {A} (positions : list nat) (l : list A) (a : A) :
  In a (pick positions l) <->
  exists i, In i positions /\ nth_error l i = Some a.
Proof.
  unfold pick. rewrite in_flat_map. split.
  - intros (i & Hi & Ha). apply nodup_In in Hi.
    destruct (nth_error l i) as [b|] eqn:Hn; [| contradiction].
    destruct Ha as [<- | []]. eauto.
  - intros (i & Hi & Hn). exists i. rewrite nodup_In, Hn.
    split; [exact Hi | left; reflexivity].
Qed.

Lemma pick_incl {A} (positions : list nat) (l : list A) :
  incl (pick positions l) l.
Proof.
  intros a Ha. apply pick_In in Ha. destruct Ha as (i & _ & Hn).
  eapply nth_error_In. exact Hn.
Qed.

Lemma pick_NoDup {A B} (f : A -> B) (positions : list nat) (l : list A) :
  NoDup (map f l) -> NoDup (map f (pick positions l)).
Proof.
  intros Hnd. unfold pick.
  assert (Hpos : NoDup (nodup Nat.eq_dec positions)) by apply NoDup_nodup.
  induction Hpos as [|i rest Hi _ IH]; simpl; [constructor |].
  rewrite map_app. destruct (nth_error l i) as [a|] eqn:Hn; simpl; [| exact IH].
  constructor; [| exact IH].
  intros Hin. apply in_map_iff in Hin. destruct Hin as (b & Hfb & Hb).
  apply in_flat_map in Hb. destruct Hb as (j & Hj & Hbj).
  destruct (nth_error l j) as [b'|] eqn:Hnj; [| contradiction].
  destruct Hbj as [<- | []].
  assert (Hij : i = j).
  { apply (proj1 (NoDup_nth_error (map f l)) Hnd).
    - rewrite length_map. apply nth_error_Some. congruence.
    - rewrite !nth_error_map, Hn, Hnj. simpl. congruence. }
  subst j. contradiction.
Qed.

(** What overlapping callbacks can and cannot do to the two variables: no
    record is made up or doubled, and the total is the sum over some of
    the records, each at most once; callbacks in turn lose nothing. *)
Lemma Concurrent_inv (i : context.Interleaving) (visited recorded : list Object)
  (total : Z) :
  NoDup (map Object_Cid visited) ->
  Concurrent i (visited, sum_sizes visited) = (recorded, total) ->
  exists added,
    incl recorded visited /\ NoDup (map Object_Cid recorded) /\
    incl added visited /\ NoDup (map Object_Cid added) /\
    total = sum_sizes added /\
    (i = context.InTurn -> recorded = visited /\ added = visited).
Proof.
  intros Hnd H. destruct i as [|kept added]; cbn [Concurrent fst] in H.
  - injection H as <- <-. exists visited.
    repeat split; auto using incl_refl.
  - injection H as <- <-. exists (pick added visited).
    split; [apply pick_incl |]. split; [apply pick_NoDup; exact Hnd |].
    split; [apply pick_incl |]. split; [apply pick_NoDup; exact Hnd |].
    split; [reflexivity | discriminate].
Qed.

Lemma walk_concurrent_inv (dserv : ipld.NodeGetter) (ctx : context.Context)
  (root : cid.Cid) (cset : cid.Set_) (recorded : list Object) (total : Z) :
  walk_concurrent dserv ctx root = Ok (cset, (recorded, total)) ->
  exists visited,
    merkledag.Walk (walk_callback dserv) (context.Depth ctx) root
                   (cid.NewSet, ([], 0%Z))
      = Ok (cset, (visited, sum_sizes visited)) /\
    Concurrent (context.Goroutines ctx) (visited, sum_sizes visited)
      = (recorded, total).
Proof.
  unfold walk_concurrent.
  destruct (merkledag.Walk _ _ _ _) as [[cs [visited t]]|e] eqn:Hwalk;
    [| discriminate].
  intros H. injection H as <- H.
  pose proof (Walk_total _ _ _ Hwalk) as ->.
  exists visited. split; [reflexivity | exact H].
Qed.

(** * The claims *)

(** C1 (the code falls short of the claim).  [Unpin] never returns normally
    and never removes an Object: once the Pin row and its ObjRef rows are
    deleted it reaches [clearUnreferencedObjects], which panics.  On the
    sample database, unpinning key 1 deletes pin 1 and its three ObjRefs and
    panics; objects 1 and 2, now without any ObjRef, stay in the table. *)
Theorem Unpin_panics_before_reclaiming :
  (forall contid w,
      fst (Unpin contid w) <> Done tt /\
      objects (db (snd (Unpin contid w))) = objects (db w)) /\
  Unpin 1 (world_of two_pins_db) =
    (Panicked "nyi",
     mkWorld (mkDB [pin_two]
                   [mkObject 1 root_a 2; mkObject 2 leaf_x 3;
                    mkObject 3 leaf_y 1; mkObject 4 root_b 1]
                   [mkObjRef 4 2 4; mkObjRef 5 2 3] 2 4 5)
             [] []
             [EvSql (SelectFirstPin "id = ?" 1); EvSql (DeletePin 1);
              EvSql (DeleteObjRefs "pin = ?" 1);
              EvLock "addPinLk"; EvUnlock "addPinLk"]).
Proof.
  split.
  - intros contid w.
    destruct (Unpin_outcome contid w) as (Hnot & Hobjs & _).
    split; assumption.
  - vm_compute. reflexivity.
Qed.




(** C3 (the code falls short of the claim).  When gathering the snapshot
    fails, [report] logs the failure and then, instead of skipping the
    tick, hands the RPC session an update message whose [ShuttleUpdate] is
    nil; that message is sent unless the hand-over itself fails.  In the
    sample run the second of three reports fails to gather: three messages
    are sent all the same, the second one empty. *)
Theorem report_sends_nil_update_when_gathering_fails :
  (forall queue e d fs rs tr,
      report (mkProbe queue (Err e)) (mkWorld d fs rs tr) =
        (Done tt,
         mkWorld d fs (tl rs)
                 (tr ++ [EvLog "failed to get update packet";
                         if hd false rs
                         then EvLog "failed to send shuttle update"
                         else EvRpcSend nil_update]))) /\
  trace (snd (reporter good_probe [bad_probe; good_probe]
                (world_of restart_db))) =
    [EvSql (CountPins "active");
     EvRpcSend (drpc.mkMessage drpc.OP_ShuttleUpdate
                  (drpc.mkMsgParams
                     (Some (drpc.mkShuttleUpdate 4096000 1638400 1 3))
                     None None));
     EvLog "failed to get update packet";
     EvRpcSend nil_update;
     EvSql (CountPins "active");
     EvRpcSend (drpc.mkMessage drpc.OP_ShuttleUpdate
                  (drpc.mkMsgParams
                     (Some (drpc.mkShuttleUpdate 4096000 1638400 1 3))
                     None None))].
Proof.
  split.
  - intros queue e d fs rs tr.
    unfold report, bind, or_nil, getUpdatePacket, bind, lift, throw, on_error,
      sendRpcMessage, log, emit.
    destruct rs as [|[|] rs];
      cbn [Statfs fst snd db db_faults rpc_faults trace hd tl];
      rewrite <- app_assoc; reflexivity.
  - vm_compute. reflexivity.
Qed.

(** C4, as the claim states it, fails: a write that fails does not end the
    session.  On the connection below the first message cannot be written;
    the session stays in its loops and writes the next one. *)
Lemma failed_write_does_not_end_session :
  runRpc sample_shuttle lossy_conn =
    Running
      (mkSession true false
         [(HelloFrame sample_hello, true);
          (MessageFrame (status_msg 1), false);
          (MessageFrame (status_msg 2), true)]
         [] ["failed to send message"%string] 2).
Proof. vm_compute. reflexivity. Qed.

(** C4, amended.  A read error ends the session: the read loop logs it,
    stops for good and raises the read-done signal, and when the write
    loop takes that signal [runRpc] returns an error, after which the
    supervising loop logs it, sleeps ten seconds and goes on to the next
    attempt.  That is the only way out of the loops.  A write error does
    not end the session: it is logged and the write loop goes on to the
    next message. *)
Theorem read_error_ends_session (d : Shuttle) :
  (forall s e,
      reading s = true ->
      exists s1,
        session_step s (Receive (Err e)) = Running s1 /\
        reading s1 = false /\ readDone s1 = true /\
        wire s1 = wire s /\
        (forall r, session_step s1 (Receive r) = Impossible s1) /\
        exists s2,
          session_step s1 ReadDone =
            Returned
              (Some (Errorf "read routine exited, assuming socket is closed"))
              s2) /\
  (forall s msg e,
      session_step s (Outgoing msg (Some e)) =
        Running (mkSession (reading s) (readDone s)
                           (wire s ++ [(MessageFrame msg, false)])
                           (dispatched s)
                           (session_log s ++ ["failed to send message"%string])
                           (S (taken s)))) /\
  (forall s evs err s',
      session_loop s evs = Returned err s' ->
      err = Some (Errorf "read routine exited, assuming socket is closed") /\
      readDone s' = true /\
      (readDone s = false ->
       exists pre e post, evs = pre ++ Receive (Err e) :: post)) /\
  (forall conn hello pre e mid post,
      getHelloMessage d = Ok hello ->
      hello_send conn = None ->
      schedule conn = pre ++ Receive (Err e) :: mid ++ ReadDone :: post ->
      forallb keeps_running pre = true ->
      forallb is_outgoing mid = true ->
      exists s,
        runRpc d conn =
          Returned
            (Some (Errorf "read routine exited, assuming socket is closed"))
            s /\
        reading s = false /\
        taken s = length pre + length mid + 2) /\
  (forall conn rest e s,
      runRpc d conn = Returned (Some e) s ->
      RunRpcConnection d (Some conn :: rest) =
        [Dialed true; Ran (runRpc d conn);
         Logged "rpc routine exited with an error"; Slept 10]
        ++ RunRpcConnection d rest).
Proof.
  split; [| split; [| split; [| split]]].
  - intros s e Hr. simpl. rewrite Hr.
    eexists. split; [reflexivity |]. cbn [reading readDone wire].
    repeat split.
    + intros [cmd|e']; reflexivity.
    + eexists. reflexivity.
  - intros s msg e. reflexivity.
  - intros s evs err s' H. exact (session_loop_returns _ _ H).
  - intros conn hello pre e mid post Hhello Hsend Hsched Hpre Hmid.
    unfold runRpc. rewrite Hhello, Hsend, Hsched.
    match goal with |- context [session_loop ?s0 _] =>
      destruct (session_loop_running pre
                  (Receive (Err e) :: mid ++ ReadDone :: post) s0 Hpre eq_refl)
        as (s1 & -> & Hr1 & Hd1 & Ht1) end.
    cbn [session_loop session_step]. rewrite Hr1.
    match goal with |- context [session_loop ?s0 _] =>
      destruct (session_loop_outgoing mid (ReadDone :: post) s0 Hmid)
        as (s2 & -> & Hr2 & Hd2 & Ht2) end.
    cbn [reading readDone taken] in Hr2, Hd2, Ht2.
    cbn [session_loop session_step]. rewrite Hd2.
    eexists. split; [reflexivity |]. cbn [reading taken].
    split; [exact Hr2 |]. rewrite Ht2, Ht1. simpl. lia.
  - intros conn rest e s Hrun. simpl. rewrite Hrun. reflexivity.
Qed.

(** A session whose read side breaks, and the attempt after it. *)
Lemma read_error_ends_session_witness :
  runRpc sample_shuttle broken_conn =
    Returned
      (Some (Errorf "read routine exited, assuming socket is closed"))
      (mkSession false true
         [(HelloFrame sample_hello, true);
          (MessageFrame (status_msg 1), true);
          (MessageFrame (status_msg 2), true)]
         [drpc.mkCommand "AddPin"]
         ["failed to read command from websocket"%string] 5) /\
  RunRpcConnection sample_shuttle [Some broken_conn; None] =
    [Dialed true; Ran (runRpc sample_shuttle broken_conn);
     Logged "rpc routine exited with an error"; Slept 10;
     Dialed false; Logged "failed to dial estuary rpc endpoint"; Slept 10].
Proof.
  assert (Hrun : runRpc sample_shuttle broken_conn =
                 Returned
                   (Some (Errorf
                            "read routine exited, assuming socket is closed"))
                   (mkSession false true
                      [(HelloFrame sample_hello, true);
                       (MessageFrame (status_msg 1), true);
                       (MessageFrame (status_msg 2), true)]
                      [drpc.mkCommand "AddPin"]
                      ["failed to read command from websocket"%string] 5))
    by (vm_compute; reflexivity).
  split; [exact Hrun |].
  destruct (read_error_ends_session sample_shuttle)
    as (_ & _ & _ & _ & Hsup).
  rewrite (Hsup broken_conn [None] _ _ Hrun). reflexivity.
Defined.

(** C5, as the claim states it, fails: a status that comes back after
    another one is sent again.  The transfer below shows statuses 1, 1, 2,
    2, 1 on a tracked channel; three updates are sent, two of them with
    status 1. *)
Lemma returning_status_is_sent_again :
  statuses_for "chan-1" back_and_forth = [1; 1; 2; 2; 1]%N /\
  map (fun m => filclient.Status (drpc.State m))
      (snd (onTransferEvents one_channel back_and_forth)) = [1; 2; 1]%N.
Proof. vm_compute. split; reflexivity. Qed.

(** C5, amended.  For the events delivered for a tracked channel, the
    tracker sends one update for each event whose status differs from the
    last status recorded for that channel, in the order of the events, each
    carrying the channel's deal id: one update per run of equal statuses,
    so a status that returns after another one is sent again.  An event
    whose status equals the last recorded one sends nothing, and events for
    a channel without an entry send nothing and leave the tracker as it
    was. *)
Theorem tracker_sends_on_status_change (tc : trackingChannels)
  (evs : list (datatransfer.Event * datatransfer.ChannelState))
  (chid : string) :
  match map_get tc chid with
  | Some trk =>
      sent_for chid (snd (onTransferEvents tc evs)) =
        compress (option_map filclient.Status (last trk))
                 (statuses_for chid evs) /\
      Forall (fun m => drpc.Chanid m = chid -> drpc.DealDBID m = dbid trk)
             (snd (onTransferEvents tc evs))
  | None =>
      sent_for chid (snd (onTransferEvents tc evs)) = [] /\
      forall event st,
        datatransfer.ChannelID st = chid ->
        onTransferEvent tc event st = (tc, [])
  end.
Proof.
  destruct (map_get tc chid) as [trk|] eqn:Hget.
  - apply onTransferEvents_tracked. exact Hget.
  - split.
    + apply onTransferEvents_untracked. exact Hget.
    + intros event st Hc. apply onTransferEvent_untracked.
      rewrite Hc. exact Hget.
Qed.

(** C6, as the claim states it, fails: when the insert of the ObjRefs is
    the statement that fails, processing returns the error with the Pin
    already marked active.  Here the fourth statement of the run fails. *)
Lemma failed_ref_insert_leaves_pin_active :
  let run := doPinning sample_shuttle 4 queued_op
               (mkWorld queued_db [false; false; false; true] [] []) in
  fst run = Failed (Errorf "failed to create refs: database error") /\
  map flags (pins queued_db) = [(true, false, false)] /\
  map flags (pins (db (snd run))) = [(false, true, false)].
Proof. vm_compute. repeat split. Qed.

(** C6, amended.  When processing a Pin fails, [doPinning] returns the
    error and no row has its [failed] flag changed; the rows are exactly as
    before, unless the failing statement is the insert of the ObjRefs, in
    which case the rows with that content id have already been marked
    active.  When the status callback receives "failed" and the database
    takes the update, the rows with that content id end with pinning and
    active false and failed true, and the other rows are untouched. *)
Theorem pinning_failure_and_failed_status :
  (forall d ctx op w e w',
      doPinning d ctx op w = (Failed e, w') ->
      map Pin_Failed (pins (db w')) = map Pin_Failed (pins (db w)) /\
      (pins (db w') = pins (db w) \/
       exists total msg,
         e = Errorf ("failed to create refs: " ++ msg) /\
         pins (db w') =
           map (mark_active (pinner.ContId op) total) (pins (db w)))) /\
  (forall cont w,
      hd false (db_faults w) = false ->
      fst (onPinStatusUpdate cont "failed" w) = Done tt /\
      pins (db (snd (onPinStatusUpdate cont "failed" w))) =
        map (fun p => if N.eqb (Pin_Content p) cont
                      then mkPin (Pin_ID p) (Pin_CreatedAt p) (Pin_Content p)
                                 (Pin_Cid p) (Pin_UserID p)
                                 false false true (Pin_Size p)
                      else p)
            (pins (db w))).
Proof.
  split.
  - intros d ctx op w e w' Hrun.
    apply doPinning_inv in Hrun.
    destruct Hrun as (w0 & w1 & Hw0 & Hrun & Hdb).
    apply addDatabaseTrackingToContent_inv in Hrun.
    rewrite Hdb, <- Hw0.
    destruct Hrun as [Hsame | (total & msg & He & Hpins)].
    + rewrite Hsame. split; [reflexivity | left; reflexivity].
    + rewrite Hpins. split.
      * rewrite map_map. apply map_ext. intros p. apply mark_active_Failed.
      * right. exists total, msg. split; [exact He | reflexivity].
  - intros cont w Hf.
    destruct (onPinStatusUpdate_pins cont "failed" w) as [Hr Hpins].
    split; [exact Hr |]. rewrite Hpins, Hf. reflexivity.
Qed.

(** A walk cut short leaves the sample pin as it was; a "failed" status
    marks it failed. *)
Lemma pinning_failure_and_failed_status_witness :
  (doPinning sample_shuttle 1 queued_op (world_of queued_db)
     = (Failed (Errorf "context canceled"),
        mkWorld queued_db [] []
                [EvSql (SelectFirstPin "content = ?" 7)]) /\
   map Pin_Failed (pins queued_db) = [false]) /\
  (hd false (db_faults (world_of queued_db)) = false /\
   map flags
       (pins (db (snd (onPinStatusUpdate 7 "failed" (world_of queued_db)))))
     = [(false, false, true)]).
Proof.
  assert (Hrun : doPinning sample_shuttle 1 queued_op (world_of queued_db)
                 = (Failed (Errorf "context canceled"),
                    mkWorld queued_db [] []
                            [EvSql (SelectFirstPin "content = ?" 7)]))
    by (vm_compute; reflexivity).
  destruct pinning_failure_and_failed_status as [Hfail Hstatus].
  split.
  - split; [exact Hrun |].
    destruct (Hfail _ _ _ _ _ _ Hrun) as [Hflags _]. exact Hflags.
  - split; [reflexivity |].
    destruct (Hstatus 7%N (world_of queued_db) eq_refl) as [_ Hpins].
    rewrite Hpins. reflexivity.
Defined.

(** C7.  A user with storage disabled gets the 400 error with the
    content-adding-disabled code, and the handler has touched nothing: the
    world, and with it the pins table, is as before.  A request that
    completes gets status 200 and a JSON body whose only field, "cid", is
    the printed address of the root the importer returned.  Behind
    [AuthRequired], an authenticated user with the needed permission level
    reaches exactly this handler. *)
Theorem handleAdd_disabled_or_cid (s : Shuttle) (env : AddEnv) (c : Upload)
  (u : User) (w : World) :
  (StorageDisabled u = true ->
   handleAdd s env c u w =
     (Failed (HttpError 400 util.ERR_CONTENT_ADDING_DISABLED), w)) /\
  (forall reply w',
      handleAdd s env c u w = (Done reply, w') ->
      exists root,
        importFile env = Ok root /\
        reply = mkJSON 200 [("cid"%string, cid.String_ root)]) /\
  (forall auth checkTokenAuth token,
      auth = Ok token ->
      checkTokenAuth token = Ok u ->
      (util.PermLevelUser <= Perms u)%Z ->
      content_add s env auth checkTokenAuth c w = handleAdd s env c u w).
Proof.
  split; [| split].
  - intros Hdis. unfold handleAdd. rewrite Hdis. reflexivity.
  - intros reply w' H. unfold handleAdd in H.
    destruct (StorageDisabled u); [discriminate |].
    apply bind_Done_inv in H. destruct H as (x1 & w1 & _ & H).
    apply defer_Done_inv in H. destruct H as (w1' & H).
    apply bind_Done_inv in H. destruct H as (fname & w2 & _ & H).
    apply bind_Done_inv in H. destruct H as (x3 & w3 & _ & H).
    apply defer_Done_inv in H. destruct H as (w3' & H).
    apply bind_Done_inv in H. destruct H as ([bsid bs] & w4 & _ & H).
    apply defer_Done_inv in H. destruct H as (w5 & H).
    apply bind_Done_inv in H. destruct H as (nd & w6 & Himport & H).
    apply lift_Done_inv in Himport. destruct Himport as [Himport _].
    apply bind_Done_inv in H. destruct H as (contid & w7 & _ & H).
    apply bind_Done_inv in H. destruct H as (row & w8 & _ & H).
    apply bind_Done_inv in H. destruct H as (x9 & w9 & _ & H).
    apply bind_Done_inv in H. destruct H as (x10 & w10 & _ & H).
    apply bind_Done_inv in H. destruct H as (x11 & w11 & _ & H).
    unfold ret in H. injection H as <- _.
    exists nd. split; [exact Himport | reflexivity].
  - intros auth checkTokenAuth token -> Htoken Hperm.
    unfold content_add, AuthRequired, bind, lift, ret.
    rewrite Htoken. apply Z.leb_le in Hperm. rewrite Hperm. reflexivity.
Qed.

(** The sample upload, by a user with storage disabled and by one with
    storage enabled. *)
Lemma handleAdd_disabled_or_cid_witness :
  StorageDisabled disabled_user = true /\
  handleAdd sample_shuttle sample_env sample_upload disabled_user
      (world_of restart_db)
    = (Failed (HttpError 400 "ERR_CONTENT_ADDING_DISABLED"),
       world_of restart_db) /\
  fst (handleAdd sample_shuttle sample_env sample_upload enabled_user
         (world_of empty_db))
    = Done (mkJSON 200 [("cid"%string, "bafyroot-a"%string)]).
Proof.
  split; [reflexivity |]. split.
  - destruct (handleAdd_disabled_or_cid sample_shuttle sample_env
                sample_upload disabled_user (world_of restart_db))
      as (Hdisabled & _).
    exact (Hdisabled eq_refl).
  - destruct (handleAdd sample_shuttle sample_env sample_upload enabled_user
                (world_of empty_db)) as [[reply|e|msg] w'] eqn:Hrun;
      try (vm_compute in Hrun; discriminate).
    destruct (handleAdd_disabled_or_cid sample_shuttle sample_env
                sample_upload enabled_user (world_of empty_db))
      as (_ & Hdone & _).
    destruct (Hdone reply w' Hrun) as (root & Himport & ->).
    injection Himport as <-. reflexivity.
Defined.

(** C8.  On every connection attempt the first thing written to the
    connection is the Hello (host, peer identity, default wallet address,
    reachable addresses), and every frame after it is a queued message:
    whenever the wallet gives its default address the Hello is built from
    it and is the first write tried on the connection.  When the wallet
    gives an error the Hello cannot be built and nothing is written, and
    when the send of the Hello fails nothing else is written; in both cases
    [runRpc] returns the error without the read goroutine started and
    without an event of the loops taken.  A dial that fails writes nothing
    at all: the supervising loop logs, sleeps and dials again; after a dial
    that succeeds it runs [runRpc] on the connection, and it runs sessions
    in no other way. *)
Theorem hello_is_first_frame (d : Shuttle) :
  (forall conn,
      match Wallet_GetDefault (Shuttle_Node d) with
      | Ok addr =>
          let hello :=
            drpc.mkHello (hostname d) (Host_ID (Shuttle_Node d)) addr
              (peer.mk (Host_ID (Shuttle_Node d))
                       (Host_Addrs (Shuttle_Node d))) in
          getHelloMessage d = Ok hello /\
          match hello_send conn with
          | None =>
              exists more,
                wire (session_of (runRpc d conn))
                  = (HelloFrame hello, true) :: more /\
                forallb is_message_frame more = true
          | Some e =>
              runRpc d conn =
                Returned (Some e)
                  (mkSession false false [(HelloFrame hello, false)] [] [] 0)
          end
      | Err e =>
          getHelloMessage d = Err e /\
          runRpc d conn = Returned (Some e) (mkSession false false [] [] [] 0)
      end) /\
  (forall rest,
      RunRpcConnection d (None :: rest) =
        [Dialed false; Logged "failed to dial estuary rpc endpoint";
         Slept 10] ++ RunRpcConnection d rest) /\
  (forall attempts o,
      In (Ran o) (RunRpcConnection d attempts) ->
      exists conn, In (Some conn) attempts /\ o = runRpc d conn) /\
  (forall conn rest,
      exists more,
        RunRpcConnection d (Some conn :: rest) =
          [Dialed true; Ran (runRpc d conn)] ++ more).
Proof.
  split; [| split; [reflexivity |
                    split; [apply RunRpcConnection_sessions |]]].
  2: { intros conn rest. cbn [RunRpcConnection].
       destruct (runRpc d conn) as [s|[e|] s|s]; eexists; reflexivity. }
  intros conn. unfold runRpc, getHelloMessage.
  destruct (Wallet_GetDefault (Shuttle_Node d)) as [addr|e];
    [| split; reflexivity].
  cbv zeta. split; [reflexivity |].
  destruct (hello_send conn) as [e|]; [reflexivity |].
  match goal with |- context [session_loop ?s0 ?evs] =>
    destruct (session_loop_wire evs s0) as (more & Hw & Hm) end.
  exists more. split; [exact Hw | exact Hm].
Qed.

(** The sample shuttle, whose wallet answers, on two connections: on the
    one whose read side breaks the Hello is the first frame and the two
    messages taken before the session returned follow it; on one that
    refuses the first write the Hello is the only thing tried. *)
Lemma hello_is_first_frame_witness :
  (getHelloMessage sample_shuttle = Ok sample_hello /\
   exists more,
     wire (session_of (runRpc sample_shuttle broken_conn))
       = (HelloFrame sample_hello, true) :: more /\
     forallb is_message_frame more = true) /\
  (getHelloMessage sample_shuttle = Ok sample_hello /\
   runRpc sample_shuttle refusing_conn =
     Returned (Some (Errorf "broken pipe"))
       (mkSession false false [(HelloFrame sample_hello, false)] [] [] 0)).
Proof.
  split.
  - exact (proj1 (hello_is_first_frame sample_shuttle) broken_conn).
  - exact (proj1 (hello_is_first_frame sample_shuttle) refusing_conn).
Defined.

(** C9, as the claim states it, fails: when the scan of the pins table
    cannot be run, [refreshPinQueue] returns the error, [main] logs it and
    goes on, and nothing is queued, though two of the five sample pins are
    waiting. *)
Lemma failed_scan_restores_nothing :
  let w := mkWorld restart_db [true] [] [] in
  map Pin_ID
      (filter (fun p => negb (Pin_Active p) && Pin_Pinning p) (pins (db w)))
    = [1; 5]%N /\
  refreshPinQueue w =
    (Failed (Errorf "database error"),
     mkWorld restart_db [] []
             [EvSql (SelectPins "active = false and pinning = true")]) /\
  main_refresh w =
    (Done tt,
     mkWorld restart_db [] []
             [EvSql (SelectPins "active = false and pinning = true");
              EvLog "failed to refresh pin queue"]).
Proof. vm_compute. repeat split. Qed.

(** C9, amended.  When the scan of the pins table succeeds,
    [refreshPinQueue] hands the pin manager one operation for each row with
    active false and pinning true, in table order, with no peers and no
    replacement target, and nothing for any other row; with primary keys
    unique, no row is queued twice.  The database is left as it was.  When
    the scan fails, [refreshPinQueue] returns the error with nothing
    queued, and [main] logs it and goes on. *)
Theorem refreshPinQueue_enqueues_pinning_rows (w : World) :
  (hd false (db_faults w) = false ->
   exists queued,
     refreshPinQueue w =
       (Done tt,
        mkWorld (db w) (tl (db_faults w)) (rpc_faults w)
                (trace w
                 ++ [EvSql (SelectPins "active = false and pinning = true");
                     EvLog "refreshing pins"]
                 ++ map (fun p =>
                           EvPinMgrAdd
                             (pinner.mk (Pin_Content p) (Pin_UserID p)
                                        (Pin_Cid p) [] (Pin_CreatedAt p)
                                        "queued" 0))
                        queued)) /\
     queued = filter (fun p => negb (Pin_Active p) && Pin_Pinning p)
                     (pins (db w)) /\
     (forall p, In p queued <->
                In p (pins (db w)) /\
                Pin_Active p = false /\ Pin_Pinning p = true) /\
     (NoDup (map Pin_ID (pins (db w))) -> NoDup (map Pin_ID queued))) /\
  (hd false (db_faults w) = true ->
   refreshPinQueue w =
     (Failed (Errorf "database error"),
      mkWorld (db w) (tl (db_faults w)) (rpc_faults w)
              (trace w
               ++ [EvSql (SelectPins "active = false and pinning = true")])) /\
   main_refresh w =
     (Done tt,
      mkWorld (db w) (tl (db_faults w)) (rpc_faults w)
              (trace w
               ++ [EvSql (SelectPins "active = false and pinning = true");
                   EvLog "failed to refresh pin queue"]))).
Proof.
  split.
  - intros Hf.
    exists (filter (fun p => negb (Pin_Active p) && Pin_Pinning p)
                   (pins (db w))).
    split; [| split; [reflexivity | split]].
    + unfold refreshPinQueue, bind. rewrite gorm_Find_run; cbv zeta.
      rewrite Hf. unfold log at 1, emit at 1.
      rewrite queue_rows_run. cbn [db db_faults rpc_faults trace].
      repeat rewrite <- app_assoc. reflexivity.
    + intros p. rewrite filter_In, andb_true_iff, negb_true_iff. tauto.
    + apply NoDup_map_filter.
  - intros Hf.
    assert (Hrun : refreshPinQueue w =
              (Failed (Errorf "database error"),
               mkWorld (db w) (tl (db_faults w)) (rpc_faults w)
                       (trace w
                        ++ [EvSql (SelectPins
                                     "active = false and pinning = true")]))).
    { unfold refreshPinQueue, bind. rewrite gorm_Find_run; cbv zeta.
      rewrite Hf. reflexivity. }
    split; [exact Hrun |].
    unfold main_refresh, on_error. rewrite Hrun. unfold log, emit.
    cbn [db db_faults rpc_faults trace]. rewrite <- app_assoc. reflexivity.
Qed.

(** Of the five sample pins, the two that are waiting are queued. *)
Lemma refreshPinQueue_enqueues_pinning_rows_witness :
  hd false (db_faults (world_of restart_db)) = false /\
  trace (snd (refreshPinQueue (world_of restart_db))) =
    [EvSql (SelectPins "active = false and pinning = true");
     EvLog "refreshing pins";
     EvPinMgrAdd (pinner.mk 7 3 root_a [] 100 "queued" 0);
     EvPinMgrAdd (pinner.mk 11 6 root_b [] 140 "queued" 0)].
Proof.
  split; [reflexivity |].
  destruct (proj1 (refreshPinQueue_enqueues_pinning_rows
                     (world_of restart_db)) eq_refl)
    as (queued & Hrun & Hq & _).
  rewrite Hrun, Hq. reflexivity.
Defined.

(** C10.  [Unpin] picks the row by primary key: when the database answers
    every statement, the rows that go are exactly those whose [ID] is the
    argument.  The other operations pick by the [content] column: a row
    with another content id comes through the status update, the
    walk-and-record step and the processing of an operation unchanged, and
    a "failed" status marks exactly the rows with that content id.  Hence a
    Pin whose primary key differs from its content id is still there after
    [Unpin] of its content id. *)
Theorem Unpin_selects_by_primary_key (w : World) (p : Pin) :
  In p (pins (db w)) ->
  (forall contid,
      db_faults w = [] ->
      pins (db (snd (Unpin contid w))) =
        filter (fun q => negb (N.eqb (Pin_ID q) contid)) (pins (db w))) /\
  (forall cont,
      db_faults w = [] ->
      pins (db (snd (onPinStatusUpdate cont "failed" w))) =
        map (fun q => if N.eqb (Pin_Content q) cont
                      then set_columns failed_columns q else q)
            (pins (db w))) /\
  (forall cont status,
      Pin_Content p <> cont ->
      In p (pins (db (snd (onPinStatusUpdate cont status w))))) /\
  (forall d ctx contid dserv root,
      Pin_Content p <> contid ->
      In p (pins (db (snd (addDatabaseTrackingToContent d ctx contid dserv
                             root w))))) /\
  (forall d ctx op,
      Pin_Content p <> pinner.ContId op ->
      In p (pins (db (snd (doPinning d ctx op w))))) /\
  (Pin_ID p <> Pin_Content p ->
   In p (pins (db (snd (Unpin (Pin_Content p) w))))).
Proof.
  intros Hin.
  assert (Hadd : forall d ctx contid dserv root w0,
             db w0 = db w -> Pin_Content p <> contid ->
             In p (pins (db (snd (addDatabaseTrackingToContent
                                    d ctx contid dserv root w0))))).
  { intros d ctx contid dserv root w0 Hw0 Hne.
    destruct (addDatabaseTrackingToContent d ctx contid dserv root w0)
      as [r w1] eqn:Hrun.
    apply addDatabaseTrackingToContent_inv in Hrun. cbn [snd].
    rewrite Hw0 in Hrun.
    destruct r as [[]|e|s].
    - destruct Hrun as (dbpin & cset & objs0 & total & _ & _ & Hdb & _).
      rewrite Hdb; cbn [pins].
      apply In_map_fixed; [apply mark_active_other; exact Hne | exact Hin].
    - destruct Hrun as [-> | (total & msg & _ & ->)]; [exact Hin |].
      apply In_map_fixed; [apply mark_active_other; exact Hne | exact Hin].
    - contradiction. }
  repeat split.
  - intros contid Hf. apply Unpin_pins_no_fault. exact Hf.
  - intros cont Hf.
    destruct (onPinStatusUpdate_pins cont "failed" w) as [_ ->].
    rewrite Hf. reflexivity.
  - intros cont status Hne.
    destruct (onPinStatusUpdate_pins cont status w) as [_ ->].
    destruct (_ && _); [| exact Hin].
    apply In_map_fixed; [apply mark_failed_other; exact Hne | exact Hin].
  - intros d ctx contid dserv root Hne. apply Hadd; [reflexivity | exact Hne].
  - intros d ctx op Hne.
    destruct (doPinning d ctx op w) as [r w'] eqn:Hrun.
    apply doPinning_inv in Hrun.
    destruct Hrun as (w0 & w1 & Hw0 & Hrun & Hdb).
    cbn [snd]. rewrite Hdb.
    specialize (Hadd d ctx (pinner.ContId op) (Node_DAG (Shuttle_Node d))
                  (pinner.Obj op) w0 Hw0 Hne).
    rewrite Hrun in Hadd. exact Hadd.
  - intros Hne.
    destruct (Unpin_outcome (Pin_Content p) w) as (_ & _ & [-> | ->]);
      [exact Hin |].
    apply filter_In. split; [exact Hin |].
    apply N.eqb_neq in Hne. rewrite Hne. reflexivity.
Qed.

(** Pin 2 has content id 1: unpinning 1 removes pin 1 and leaves pin 2. *)
Lemma Unpin_selects_by_primary_key_witness :
  In pin_two (pins (db (world_of two_pins_db))) /\
  Pin_ID pin_two <> Pin_Content pin_two /\
  In pin_two
     (pins (db (snd (Unpin (Pin_Content pin_two) (world_of two_pins_db))))).
Proof.
  assert (Hin : In pin_two (pins (db (world_of two_pins_db))))
    by (right; left; reflexivity).
  assert (Hne : Pin_ID pin_two <> Pin_Content pin_two) by discriminate.
  split; [exact Hin |]. split; [exact Hne |].
  destruct (Unpin_selects_by_primary_key (world_of two_pins_db) pin_two Hin)
    as (_ & _ & _ & _ & _ & Hstays).
  exact (Hstays Hne).
Defined.

(** * Further properties *)

(** ** The walk and what it records *)

(** X1.  Whatever the way the callbacks of a successful walk interleave, no
    address is recorded twice, every recorded address is one the walk
    entered, every record has the length of the node the DAG service
    returned for it, and the total is the sum of the sizes of nodes the
    walk entered, none counted twice.  When the callbacks run in turn every
    address entered is recorded and the total is the sum of all the
    recorded sizes. *)
Theorem walk_records_no_address_twice (dserv : ipld.NodeGetter)
  (ctx : context.Context) (root : cid.Cid) (cset : cid.Set_)
  (objs : list Object) (total : Z) :
  walk_concurrent dserv ctx root = Ok (cset, (objs, total)) ->
  NoDup (map Object_Cid objs) /\
  (forall c, In c (map Object_Cid objs) -> In c cset) /\
  Forall (measured dserv) objs /\
  (exists added,
      NoDup (map Object_Cid added) /\
      (forall c, In c (map Object_Cid added) -> In c cset) /\
      Forall (measured dserv) added /\
      total = sum_sizes added) /\
  (context.Goroutines ctx = context.InTurn ->
   (forall c, In c cset <-> In c (map Object_Cid objs)) /\
   total = sum_sizes objs).
Proof.
  intros Hwalk.
  destruct (@walk_concurrent_inv _ _ _ _ _ _ Hwalk)
    as (visited & Hseq & Hconc).
  destruct (@Walk_from_root _ _ _ _ _ _ Hseq)
    as (_ & Hnd & Hsame & Hmeas & _).
  destruct (@Concurrent_inv _ _ _ _ Hnd Hconc)
    as (added & Hrec & Hrecnd & Hadd & Haddnd & Htotal & Hturn).
  assert (Hsub : forall l, incl l visited ->
            (forall c, In c (map Object_Cid l) -> In c cset) /\
            Forall (measured dserv) l).
  { intros l Hl. split.
    - intros c Hc. apply Hsame. apply in_map_iff in Hc.
      destruct Hc as (o & <- & Ho). apply in_map. apply Hl. exact Ho.
    - apply Forall_forall. intros o Ho.
      exact (proj1 (Forall_forall _ _) Hmeas o (Hl o Ho)). }
  split; [exact Hrecnd |].
  split; [apply (Hsub objs Hrec) |]. split; [apply (Hsub objs Hrec) |].
  split.
  - exists added. split; [exact Haddnd |].
    split; [apply (Hsub added Hadd) |]. split; [apply (Hsub added Hadd) |].
    exact Htotal.
  - intros Hin. destruct (Hturn Hin) as [Ho Ha]. subst objs added.
    split; [exact Hsame | exact Htotal].
Qed.

(** The walk of the sample graph from [root_a] with the callbacks of its
    two leaves overlapping: three addresses entered, two recorded. *)
Lemma walk_records_no_address_twice_witness :
  walk_concurrent sample_dag overlapping_leaves root_a
    = Ok ([leaf_y; leaf_x; root_a],
          ([mkObject 0 root_a 2; mkObject 0 leaf_y 1], 3%Z)) /\
  NoDup [root_a; leaf_y].
Proof.
  assert (Hwalk : walk_concurrent sample_dag overlapping_leaves root_a
                  = Ok ([leaf_y; leaf_x; root_a],
                        ([mkObject 0 root_a 2; mkObject 0 leaf_y 1], 3%Z)))
    by (vm_compute; reflexivity).
  split; [exact Hwalk |].
  destruct (@walk_records_no_address_twice _ _ _ _ _ _ Hwalk) as (Hnd & _).
  exact Hnd.
Defined.

(** X2.  The addresses a successful walk has entered are exactly those that
    can be reached from the root through the links of nodes that are not
    raw leaves, however its callbacks interleave.  Every recorded address
    is reachable, and when the callbacks run in turn every reachable
    address is recorded. *)
Theorem walk_visits_what_is_reachable (dserv : ipld.NodeGetter)
  (ctx : context.Context) (root : cid.Cid) (cset : cid.Set_)
  (objs : list Object) (total : Z) :
  walk_concurrent dserv ctx root = Ok (cset, (objs, total)) ->
  (forall c, In c cset <-> reachable dserv root c) /\
  (forall c, In c (map Object_Cid objs) -> reachable dserv root c) /\
  (context.Goroutines ctx = context.InTurn ->
   forall c, In c (map Object_Cid objs) <-> reachable dserv root c).
Proof.
  intros Hwalk.
  destruct (@walk_concurrent_inv _ _ _ _ _ _ Hwalk)
    as (visited & Hseq & Hconc).
  destruct (@Walk_from_root _ _ _ _ _ _ Hseq)
    as (_ & Hnd & Hsame & _ & Hreach).
  destruct (@Concurrent_inv _ _ _ _ Hnd Hconc)
    as (added & Hrec & _ & _ & _ & _ & Hturn).
  split; [exact Hreach |]. split.
  - intros c Hc. apply Hreach. apply Hsame. apply in_map_iff in Hc.
    destruct Hc as (o & <- & Ho). apply in_map. apply Hrec. exact Ho.
  - intros Hin c. destruct (Hturn Hin) as [Ho _]. subst objs.
    rewrite <- Hsame. apply Hreach.
Qed.

(** In the sample graph [leaf_y] is reachable from [root_a], and [root_b],
    which links to it, is not. *)
Lemma walk_visits_what_is_reachable_witness :
  reachable sample_dag root_a leaf_y /\ ~ reachable sample_dag root_a root_b.
Proof.
  assert (Hwalk : walk_concurrent sample_dag overlapping_leaves root_a
                  = Ok ([leaf_y; leaf_x; root_a],
                        ([mkObject 0 root_a 2; mkObject 0 leaf_y 1], 3%Z)))
    by (vm_compute; reflexivity).
  destruct (@walk_visits_what_is_reachable _ _ _ _ _ _ Hwalk) as (Hiff & _).
  split.
  - apply Hiff. simpl. auto.
  - intros Hb. apply Hiff in Hb. simpl in Hb.
    destruct Hb as [H | [H | [H | []]]]; discriminate.
Defined.

(** ** Copying the staging store *)

Lemma put_many_run (env : AddEnv) (batch : list Block) (w : World) :
  put_many env batch w =
    (match PutMany env batch with
     | Some e => Failed e
     | None => Done tt
     end,
     mkWorld (db w) (db_faults w) (rpc_faults w)
             (trace w ++ [EvPutMany (map Block_Cid batch)])).
Proof.
  unfold put_many, bind, emit, check.
  destruct (PutMany env batch); reflexivity.
Qed.

Lemma dump_keys_inv (env : AddEnv) (from : Blockstore) (keys : list cid.Cid) :
  forall batch w r w',
    dump_keys env from keys batch w = (r, w') ->
    length batch <= 500 ->
    db w' = db w /\
    exists bs fetched,
      trace w' = trace w ++ put_events bs /\
      match r with
      | Done rest =>
          Forall2 (fun k b => Get from k = Ok b) keys fetched /\
          batch ++ fetched = concat bs ++ rest /\
          length rest <= 500 /\
          Forall (full_batch env) bs
      | Failed e =>
          (exists pre k post lost,
              keys = pre ++ k :: post /\
              Forall2 (fun k b => Get from k = Ok b) pre fetched /\
              Get from k = Err e /\
              batch ++ fetched = concat bs ++ lost /\
              length lost <= 500 /\
              Forall (full_batch env) bs) \/
          (exists pre post bs0 b,
              keys = pre ++ post /\
              Forall2 (fun k b => Get from k = Ok b) pre fetched /\
              bs = bs0 ++ [b] /\
              PutMany env b = Some e /\ length b = 501 /\
              batch ++ fetched = concat bs /\
              Forall (full_batch env) bs0)
      | Panicked _ => False
      end.
Proof.
  induction keys as [|k rest IH]; intros batch w r w' Hrun Hlen.
  - simpl in Hrun. injection Hrun as <- <-. split; [reflexivity |].
    exists [], []. simpl. rewrite !app_nil_r.
    repeat split; auto; constructor.
  - simpl in Hrun. unfold bind at 1 in Hrun.
    destruct (Get from k) as [blk|e] eqn:Hget; unfold lift, ret, throw in Hrun.
    + destruct (Nat.ltb_spec 500 (length (batch ++ [blk]))) as [Hfull | Hroom].
      * assert (Hb : length (batch ++ [blk]) = 501)
          by (rewrite length_app in *; simpl in *; lia).
        unfold bind in Hrun. rewrite put_many_run in Hrun.
        destruct (PutMany env (batch ++ [blk])) as [e|] eqn:Hput.
        -- injection Hrun as <- <-. split; [reflexivity |].
           exists [batch ++ [blk]], [blk]. split; [reflexivity |].
           right. exists [k], rest, [], (batch ++ [blk]).
           simpl. rewrite app_nil_r.
           repeat split; auto; repeat constructor; auto.
        -- apply IH in Hrun; [| simpl; lia].
           destruct Hrun as (Hdb & bs & fetched & Htr & Hr).
           split; [exact Hdb |].
           exists ((batch ++ [blk]) :: bs), (blk :: fetched).
           split; [rewrite Htr; cbn [trace]; unfold put_events; simpl;
                   rewrite <- app_assoc; reflexivity |].
           destruct r as [left_over|e|s]; [| | exact Hr].
           ++ destruct Hr as (Hf & Heq & Hl & Hall).
              split; [constructor; assumption |].
              split; [simpl in *; rewrite <- app_assoc, <- Heq; simpl;
                      rewrite <- app_assoc; reflexivity |].
              split; [exact Hl |]. constructor; [split; assumption | exact Hall].
           ++ destruct Hr as [(pre & k0 & post & lost & -> & Hf & Hg & Heq & Hl & Hall)
                             | (pre & post & bs0 & b & -> & Hf & -> & Hp & Hbl & Heq & Hall)].
              ** left. exists (k :: pre), k0, post, lost.
                 split; [reflexivity |]. split; [constructor; assumption |].
                 split; [exact Hg |].
                 split; [simpl in *; rewrite <- app_assoc, <- Heq; simpl;
                         rewrite <- app_assoc; reflexivity |].
                 split; [exact Hl |]. constructor; [split; assumption | exact Hall].
              ** right. exists (k :: pre), post, ((batch ++ [blk]) :: bs0), b.
                 split; [reflexivity |]. split; [constructor; assumption |].
                 split; [reflexivity |]. split; [exact Hp |]. split; [exact Hbl |].
                 split; [simpl in *; rewrite <- Heq; simpl;
                         rewrite <- app_assoc; reflexivity |].
                 constructor; [split; assumption | exact Hall].
      * apply IH in Hrun; [| exact Hroom].
        destruct Hrun as (Hdb & bs & fetched & Htr & Hr).
        split; [exact Hdb |].
        exists bs, (blk :: fetched). split; [exact Htr |].
        destruct r as [left_over|e|s]; [| | exact Hr].
        -- destruct Hr as (Hf & Heq & Hl & Hall).
           split; [constructor; assumption |].
           split; [rewrite <- Heq, <- app_assoc; reflexivity |].
           split; assumption.
        -- destruct Hr as [(pre & k0 & post & lost & -> & Hf & Hg & Heq & Hl & Hall)
                          | (pre & post & bs0 & b & -> & Hf & -> & Hp & Hbl & Heq & Hall)].
           ++ left. exists (k :: pre), k0, post, lost.
              split; [reflexivity |]. split; [constructor; assumption |].
              split; [exact Hg |].
              split; [rewrite <- Heq, <- app_assoc; reflexivity |].
              split; assumption.
           ++ right. exists (k :: pre), post, bs0, b.
              split; [reflexivity |]. split; [constructor; assumption |].
              split; [reflexivity |]. split; [exact Hp |]. split; [exact Hbl |].
              split; [rewrite <- Heq, <- app_assoc; reflexivity | exact Hall].
    + injection Hrun as <- <-. split; [reflexivity |].
      exists [], []. split; [unfold put_events; simpl; rewrite app_nil_r; reflexivity |].
      left. exists [], k, rest, batch. simpl. rewrite app_nil_r.
      repeat split; auto; constructor.
Qed.

(** X3.  When [dumpBlockstoreTo] succeeds, every key of the staging store
    was read and every block read was handed to [PutMany] exactly once, in
    key order, in batches that the main blockstore accepted.  A batch is
    flushed when it has grown past 500, so every batch but the last holds
    exactly 501 blocks and the last between 1 and 501.  The database is not
    touched. *)
Theorem dumpBlockstoreTo_copies_every_block (env : AddEnv)
  (from : Blockstore) (w w' : World) :
  dumpBlockstoreTo env from w = (Done tt, w') ->
  exists keys blks bs,
    AllKeysChan from = Ok keys /\
    Forall2 (fun k b => Get from k = Ok b) keys blks /\
    concat bs = blks /\
    trace w' = trace w ++ put_events bs /\
    Forall (fun b => 0 < length b <= 501 /\ PutMany env b = None) bs /\
    (forall i b, nth_error bs i = Some b -> S i < length bs ->
                 length b = 501) /\
    db w' = db w.
Proof.
  unfold dumpBlockstoreTo, bind. intros Hrun.
  destruct (AllKeysChan from) as [keys|e]; unfold lift, ret, throw in Hrun;
    [| discriminate].
  destruct (dump_keys env from keys [] w) as [[rest|e|s] w1] eqn:Hdump;
    try discriminate.
  apply dump_keys_inv in Hdump; [| simpl; lia].
  destruct Hdump as (Hdb & bs & fetched & Htr & Hf & Heq & Hl & Hall).
  simpl in Heq.
  assert (Hfull : Forall (fun b => 0 < length b <= 501 /\ PutMany env b = None) bs).
  { eapply Forall_impl; [| exact Hall]. intros b [Hb Hp]. split; [lia | exact Hp]. }
  destruct (Nat.ltb_spec 0 (length rest)) as [Hsome | Hnone].
  - rewrite put_many_run in Hrun.
    destruct (PutMany env rest) eqn:Hput; [discriminate |].
    injection Hrun as <-. cbn [db trace].
    exists keys, fetched, (bs ++ [rest]).
    split; [reflexivity |]. split; [exact Hf |].
    split; [rewrite concat_app; simpl; rewrite app_nil_r; symmetry; exact Heq |].
    split; [rewrite Htr; unfold put_events; rewrite map_app, <- app_assoc;
            reflexivity |].
    split; [apply Forall_app; split; [exact Hfull |];
            constructor; [split; [lia | exact Hput] | constructor] |].
    split; [| exact Hdb].
    intros i b Hb Hi. rewrite length_app in Hi; simpl in Hi.
    rewrite nth_error_app1 in Hb by lia.
    apply nth_error_In in Hb.
    rewrite Forall_forall in Hall. apply Hall in Hb. apply Hb.
  - injection Hrun as <-.
    assert (rest = []) by (destruct rest; simpl in *; [reflexivity | lia]).
    subst rest. rewrite app_nil_r in Heq.
    exists keys, fetched, bs.
    split; [reflexivity |]. split; [exact Hf |].
    split; [symmetry; exact Heq |]. split; [exact Htr |].
    split; [exact Hfull |]. split; [| exact Hdb].
    intros i b Hb _. apply nth_error_In in Hb.
    rewrite Forall_forall in Hall. apply Hall in Hb. apply Hb.
Qed.

(** A staging store of 502 blocks is copied in a batch of 501 and a batch
    of one. *)
Lemma dumpBlockstoreTo_copies_every_block_witness :
  let run := dumpBlockstoreTo sample_env big_staging (world_of empty_db) in
  run = (Done tt, snd run) /\
  trace (snd run) =
    [EvPutMany (firstn 501 many_keys); EvPutMany (skipn 501 many_keys)] /\
  db (snd run) = empty_db.
Proof.
  cbv zeta.
  assert (Hrun : dumpBlockstoreTo sample_env big_staging (world_of empty_db)
                 = (Done tt,
                    snd (dumpBlockstoreTo sample_env big_staging
                           (world_of empty_db))))
    by (vm_compute; reflexivity).
  split; [exact Hrun |]. split; [vm_compute; reflexivity |].
  destruct (@dumpBlockstoreTo_copies_every_block _ _ _ _ Hrun)
    as (keys & blks & bs & _ & _ & _ & _ & _ & _ & Hdb).
  exact Hdb.
Defined.

(** X4.  When the main blockstore takes every batch and [dumpBlockstoreTo]
    still fails, either the keys could not be listed and nothing happened,
    or a block could not be read: no key after it is read, the blocks read
    before it have been written in batches of 501, and the up to 500 blocks
    read since the last flush are dropped without being written. *)
Theorem dumpBlockstoreTo_read_error_drops_pending (env : AddEnv)
  (from : Blockstore) (w : World) (e : error) (w' : World) :
  (forall b, PutMany env b = None) ->
  dumpBlockstoreTo env from w = (Failed e, w') ->
  (AllKeysChan from = Err e /\ w' = w) \/
  exists keys pre k post blks bs lost,
    AllKeysChan from = Ok keys /\
    keys = pre ++ k :: post /\
    Forall2 (fun k b => Get from k = Ok b) pre blks /\
    Get from k = Err e /\
    blks = concat bs ++ lost /\
    Forall (fun b => length b = 501) bs /\
    length lost <= 500 /\
    trace w' = trace w ++ put_events bs /\
    db w' = db w.
Proof.
  intros Hput. unfold dumpBlockstoreTo, bind. intros Hrun.
  destruct (AllKeysChan from) as [keys|e0]; unfold lift, ret, throw in Hrun.
  - right.
    destruct (dump_keys env from keys [] w) as [[rest|e1|s] w1] eqn:Hdump.
    + destruct (Nat.ltb 0 (length rest)); [| discriminate].
      rewrite put_many_run, Hput in Hrun. discriminate.
    + injection Hrun as <- <-.
      apply dump_keys_inv in Hdump; [| simpl; lia].
      destruct Hdump as (Hdb & bs & fetched & Htr & [H | H]).
      * destruct H as (pre & k & post & lost & Hk & Hf & Hg & Heq & Hl & Hall).
        exists keys, pre, k, post, fetched, bs, lost.
        repeat split; auto.
        eapply Forall_impl; [| exact Hall]. intros b [Hb _]. exact Hb.
      * destruct H as (pre & post & bs0 & b & _ & _ & _ & Hp & _).
        rewrite Hput in Hp. discriminate.
    + discriminate.
  - left. injection Hrun as <- <-. split; reflexivity.
Qed.

(** Two blocks are read before the third fails; neither is written. *)
Lemma dumpBlockstoreTo_read_error_drops_pending_witness :
  let run := dumpBlockstoreTo sample_env broken_staging
               (world_of queued_db) in
  (forall b, PutMany sample_env b = None) /\
  run = (Failed (Errorf "block not found"), snd run) /\
  trace (snd run) = [] /\
  db (snd run) = queued_db.
Proof.
  cbv zeta.
  assert (Hput : forall b, PutMany sample_env b = None)
    by (intros b; reflexivity).
  assert (Hrun : dumpBlockstoreTo sample_env broken_staging
                   (world_of queued_db)
                 = (Failed (Errorf "block not found"),
                    snd (dumpBlockstoreTo sample_env broken_staging
                           (world_of queued_db))))
    by (vm_compute; reflexivity).
  split; [exact Hput |]. split; [exact Hrun |].
  split; [vm_compute; reflexivity |].
  destruct (@dumpBlockstoreTo_read_error_drops_pending _ _ _ _ _ Hput Hrun)
    as [[_ Hw] | (keys & pre & k & post & blks & bs & lost & H)].
  - rewrite Hw. reflexivity.
  - apply H.
Defined.

(** ** Uploads and the pins table *)

Lemma gorm_Create_run (t : Z) (p : Pin) (w : World) :
  gorm_Create t p w =
    let row := mkPin (N.succ (pin_seq (db w))) t (Pin_Content p) (Pin_Cid p)
                     (Pin_UserID p) (Pin_Active p) (Pin_Pinning p)
                     (Pin_Failed p) (Pin_Size p) in
    let tr := trace w ++ [EvSql (InsertPin row)] in
    if hd false (db_faults w) then
      (Failed (Errorf "database error"),
       mkWorld (db w) (tl (db_faults w)) (rpc_faults w) tr)
    else
      (Done row,
       mkWorld (mkDB (pins (db w) ++ [row]) (objects (db w))
                     (obj_refs (db w)) (N.succ (pin_seq (db w)))
                     (object_seq (db w)) (obj_ref_seq (db w)))
               (tl (db_faults w)) (rpc_faults w) tr).
Proof.
  unfold gorm_Create, bind, get_db. rewrite statement_run.
  destruct (hd false (db_faults w)); reflexivity.
Qed.

Lemma dumpBlockstoreTo_db (env : AddEnv) (from : Blockstore) (w : World) :
  db (snd (dumpBlockstoreTo env from w)) = db w /\
  forall s, fst (dumpBlockstoreTo env from w) <> Panicked s.
Proof.
  unfold dumpBlockstoreTo, bind.
  destruct (AllKeysChan from) as [keys|e]; unfold lift, ret, throw;
    [| split; [reflexivity | discriminate]].
  destruct (dump_keys env from keys [] w) as [r w1] eqn:Hdump.
  apply dump_keys_inv in Hdump; [| simpl; lia].
  destruct Hdump as (Hdb & bs & fetched & _ & Hr).
  destruct r as [rest|e|s]; [| split; [exact Hdb | discriminate] | contradiction].
  destruct (Nat.ltb 0 (length rest)).
  - rewrite put_many_run. cbn [fst snd db].
    split; [exact Hdb |]. destruct (PutMany env rest); discriminate.
  - split; [exact Hdb | discriminate].
Qed.

Lemma lowest_id_single_match (contid : uint) (old : list Pin) (row : Pin) :
  Forall (fun p => Pin_Content p <> contid) old ->
  Pin_Content row = contid ->
  lowest_id (filter (where_pin "content = ?" contid) (old ++ [row]))
    = Some row.
Proof.
  intros Hold Hrow. rewrite filter_app.
  assert (Hnone : filter (where_pin "content = ?" contid) old = []).
  { induction Hold as [|p l Hp _ IH]; simpl; [reflexivity |].
    rewrite where_content. apply N.eqb_neq in Hp. rewrite Hp. exact IH. }
  rewrite Hnone. simpl. rewrite where_content, Hrow, N.eqb_refl. reflexivity.
Qed.

Lemma handleAdd_inv (s : Shuttle) (env : AddEnv) (c : Upload) (u : User)
  (w : World) r w' :
  handleAdd s env c u w = (r, w') ->
  match r with
  | Done reply =>
      exists fname root contid total refs,
        FormFile_data c = Ok fname /\
        importFile env = Ok root /\
        createContent s env u root fname (FormValue_collection c)
          = Ok contid /\
        (exists cset recorded,
            walk_concurrent (staging_dag env) (Request_Context c) root
              = Ok (cset, (recorded, total))) /\
        pins (db w') =
          map (mark_active contid total)
              (pins (db w) ++ [uploaded_row env u (db w) root contid]) /\
        obj_refs (db w') = obj_refs (db w) ++ refs /\
        (Forall (fun p => Pin_Content p <> contid) (pins (db w)) ->
         Forall (fun r => ObjRef_Pin r = N.succ (pin_seq (db w))) refs)
  | Failed e =>
      pins (db w') = pins (db w) \/
      exists fname root contid,
        FormFile_data c = Ok fname /\
        importFile env = Ok root /\
        createContent s env u root fname (FormValue_collection c)
          = Ok contid /\
        (pins (db w') =
           pins (db w) ++ [uploaded_row env u (db w) root contid] \/
         exists total,
           pins (db w') =
             map (mark_active contid total)
                 (pins (db w) ++ [uploaded_row env u (db w) root contid]))
  | Panicked _ => False
  end.
Proof.
  unfold handleAdd. intros Hrun.
  destruct (StorageDisabled u);
    [injection Hrun as <- <-; left; reflexivity |].
  unfold bind at 1 in Hrun. unfold check at 1 in Hrun.
  destruct (MultipartForm c); unfold throw, ret in Hrun;
    [injection Hrun as <- <-; left; reflexivity |].
  unfold defer at 1 in Hrun.
  match type of Hrun with (let (_, _) := ?body w in _) = _ =>
    destruct (body w) as [ra wa] eqn:Hform_body end.
  unfold emit in Hrun. injection Hrun as <- <-. cbn [db].
  rename Hform_body into Hrun.
  unfold bind at 1 in Hrun.
  destruct (FormFile_data c) as [fname|e] eqn:Hform; unfold lift, throw, ret in Hrun;
    [| injection Hrun as <- <-; left; reflexivity].
  unfold bind at 1 in Hrun. unfold check at 1 in Hrun.
  destruct (Open c); unfold throw, ret in Hrun;
    [injection Hrun as <- <-; left; reflexivity |].
  unfold defer at 1 in Hrun.
  match type of Hrun with (let (_, _) := ?body w in _) = _ =>
    destruct (body w) as [rb wb] eqn:Hfile_body end.
  unfold emit in Hrun. injection Hrun as <- <-. cbn [db].
  rename Hfile_body into Hrun. cbv zeta in Hrun.
  unfold bind at 1 in Hrun.
  destruct (AllocNew env) as [[bsid bs]|e]; unfold lift, throw, ret in Hrun;
    [| injection Hrun as <- <-; left; reflexivity].
  unfold defer in Hrun.
  match type of Hrun with (let (_, _) := ?body w in _) = _ =>
    destruct (body w) as [r5 w5] eqn:Hbody end.
  unfold go, emit in Hrun. injection Hrun as <- <-. cbn [db].
  unfold bind at 1 in Hbody.
  destruct (importFile env) as [root|e] eqn:Himport; unfold lift, throw, ret in Hbody;
    [| injection Hbody as <- <-; left; reflexivity].
  unfold bind at 1 in Hbody.
  destruct (createContent s env u root fname (FormValue_collection c))
    as [contid|e] eqn:Hcreate; unfold lift, throw, ret in Hbody;
    [| injection Hbody as <- <-; left; reflexivity].
  unfold bind at 1 in Hbody. rewrite gorm_Create_run in Hbody.
  cbv zeta in Hbody. cbn [Pin_Content Pin_Cid Pin_UserID Pin_Active Pin_Pinning Pin_Failed Pin_Size] in Hbody.
  fold (uploaded_row env u (db w) root contid) in Hbody.
  destruct (hd false (db_faults w));
    [injection Hbody as <- <-; left; reflexivity |].
  unfold bind at 1 in Hbody.
  match type of Hbody with context [wrap_error ?p ?m ?w0] =>
    destruct (wrap_error p m w0) as [r1 w1] eqn:Hadd end.
  apply wrap_error_inv in Hadd.
  assert (Hadd' : exists r0, addDatabaseTrackingToContent s (Request_Context c)
             contid (staging_dag env) root
             (mkWorld
                (mkDB (pins (db w) ++ [uploaded_row env u (db w) root contid])
                      (objects (db w)) (obj_refs (db w))
                      (N.succ (pin_seq (db w))) (object_seq (db w))
                      (obj_ref_seq (db w)))
                (tl (db_faults w)) (rpc_faults w)
                (trace w ++
                 [EvSql (InsertPin (uploaded_row env u (db w) root contid))]))
             = (r0, w1) /\
             match r0 with Failed _ => exists e, r1 = Failed e | _ => r1 = r0 end).
  { destruct Hadd as [(e & Hc & ->) | (Hc & Hne)].
    - exists (Failed e). split; [exact Hc | eauto].
    - exists r1. split; [exact Hc |]. destruct r1; auto.
      exfalso. eapply Hne. reflexivity. }
  clear Hadd. destruct Hadd' as (r0 & Hadd & Hr1).
  apply addDatabaseTrackingToContent_inv in Hadd. cbn [db trace pins objects obj_refs pin_seq object_seq obj_ref_seq] in Hadd.
  destruct r0 as [[]|e0|s0]; [| | contradiction].
  - subst r1.
    destruct Hadd as (dbpin & cset & objs0 & total & Hfirst & Hwalk & Hdb & _).
    cbv zeta in Hdb.
    unfold bind at 1 in Hbody.
    match type of Hbody with context [wrap_error ?p ?m ?w0] =>
      destruct (wrap_error p m w0) as [r2 w2] eqn:Hdump end.
    assert (Hdb2 : db w2 = db w1 /\ forall s0, r2 <> Panicked s0).
    { unfold wrap_error in Hdump.
      destruct (dumpBlockstoreTo_db env bs w1) as [Hd Hnp].
      destruct (dumpBlockstoreTo env bs w1) as [[[]|e2|s2] w2'];
        cbn [fst snd] in *; injection Hdump as <- <-;
        (split; [exact Hd |]); intros s0; try discriminate.
      apply Hnp. }
    destruct Hdb2 as [Hdb2 Hnp].
    assert (Hpins : pins (db w2) =
              map (mark_active contid total)
                  (pins (db w) ++ [uploaded_row env u (db w) root contid])).
    { rewrite Hdb2, Hdb. reflexivity. }
    destruct r2 as [[]|e2|s2].
    + unfold bind, go, emit, ret in Hbody. injection Hbody as <- <-.
      cbn [db]. exists fname, root, contid, total.
      eexists. split; [first [reflexivity | assumption] |].
      split; [first [reflexivity | assumption] |].
      split; [first [reflexivity | assumption] |].
      split; [exists cset, objs0; exact Hwalk |]. split; [exact Hpins |].
      split; [rewrite Hdb2, Hdb; reflexivity |].
      intros Hold.
      rewrite (@lowest_id_single_match contid (pins (db w))
                 (uploaded_row env u (db w) root contid) Hold eq_refl)
        in Hfirst.
      injection Hfirst as <-.
      apply Forall_forall. intros r Hr.
      apply (in_map ObjRef_Pin) in Hr.
      rewrite number_obj_refs_Pin, map_map in Hr. cbn [ObjRef_Pin] in Hr.
      apply in_map_iff in Hr. destruct Hr as (o & Ho & _).
      symmetry. exact Ho.
    + injection Hbody as <- <-. right.
      exists fname, root, contid.
      split; [first [reflexivity | assumption] |].
      split; [first [reflexivity | assumption] |].
      split; [first [reflexivity | assumption] |].
      right. exists total. exact Hpins.
    + exfalso. eapply Hnp. reflexivity.
  - destruct Hr1 as [e1 ->]. injection Hbody as <- <-. right.
    exists fname, root, contid.
    split; [first [reflexivity | assumption] |].
    split; [first [reflexivity | assumption] |].
    split; [first [reflexivity | assumption] |].
    destruct Hadd as [Hsame | (total & msg & _ & Hpins)].
    + left. exact Hsame.
    + right. exists total. exact Hpins.
Qed.

Lemma createContent_nonzero (s : Shuttle) (env : AddEnv) (u : User)
  (root : cid.Cid) (fname collection : string) (id : uint) :
  createContent s env u root fname collection = Ok id -> id <> 0%N.
Proof.
  unfold createContent. destruct (post_json _ _ _ _) as [x|e]; [| discriminate].
  destruct (N.eqb x 0) eqn:Hx; [discriminate |].
  intros H. injection H as <-. apply N.eqb_neq. exact Hx.
Qed.

Lemma mark_active_same (contid : uint) (total : Z) (p : Pin) :
  Pin_Content p = contid ->
  mark_active contid total p =
    mkPin (Pin_ID p) (Pin_CreatedAt p) (Pin_Content p) (Pin_Cid p)
          (Pin_UserID p) true false (Pin_Failed p) total.
Proof.
  intros Hc. unfold mark_active. rewrite where_content.
  rewrite (proj2 (N.eqb_eq _ _) Hc). reflexivity.
Qed.

Lemma map_mark_active_others (contid : uint) (total : Z) (l : list Pin) :
  Forall (fun p => Pin_Content p <> contid) l ->
  map (mark_active contid total) l = l.
Proof.
  intros H. induction H as [|p l Hp _ IH]; simpl; [reflexivity |].
  rewrite mark_active_other by exact Hp. rewrite IH. reflexivity.
Qed.

(** X5.  After an upload that succeeds, the pins table has one more row: it
    has the next primary key, the root the importer returned, the
    uploading user and the content id that [createContent] got from the
    coordinator for that root and the uploaded file's name, which is never
    zero; it is active and no longer pinning, and its size is the total the
    concurrent walk of the staging store accumulated.  When no older row
    has that content id, the older rows are unchanged and every ObjRef the
    upload created points to the new row. *)
Theorem handleAdd_leaves_active_pin (s : Shuttle) (env : AddEnv)
  (c : Upload) (u : User) (w : World) (reply : JSON) (w' : World) :
  handleAdd s env c u w = (Done reply, w') ->
  exists fname root contid cset recorded total refs,
    FormFile_data c = Ok fname /\
    importFile env = Ok root /\
    createContent s env u root fname (FormValue_collection c) = Ok contid /\
    contid <> 0%N /\
    walk_concurrent (staging_dag env) (Request_Context c) root
      = Ok (cset, (recorded, total)) /\
    pins (db w') =
      map (mark_active contid total) (pins (db w))
      ++ [mkPin (N.succ (pin_seq (db w))) (now env) contid root (User_ID u)
                true false false total] /\
    obj_refs (db w') = obj_refs (db w) ++ refs /\
    (Forall (fun p => Pin_Content p <> contid) (pins (db w)) ->
     pins (db w') =
       pins (db w)
       ++ [mkPin (N.succ (pin_seq (db w))) (now env) contid root (User_ID u)
                 true false false total] /\
     Forall (fun r => ObjRef_Pin r = N.succ (pin_seq (db w))) refs).
Proof.
  intros Hrun. apply handleAdd_inv in Hrun.
  destruct Hrun as (fname & root & contid & total & refs & Hfile & Himport
                    & Hcreate & (cset & recorded & Hwalk) & Hpins & Hrefs
                    & Hown).
  exists fname, root, contid, cset, recorded, total, refs.
  split; [exact Hfile |]. split; [exact Himport |]. split; [exact Hcreate |].
  split; [exact (@createContent_nonzero _ _ _ _ _ _ _ Hcreate) |].
  split; [exact Hwalk |].
  assert (Hpins' : pins (db w') =
            map (mark_active contid total) (pins (db w))
            ++ [mkPin (N.succ (pin_seq (db w))) (now env) contid root
                      (User_ID u) true false false total]).
  { rewrite Hpins, map_app. simpl.
    rewrite (@mark_active_same contid total
               (uploaded_row env u (db w) root contid) eq_refl).
    reflexivity. }
  split; [exact Hpins' |]. split; [exact Hrefs |].
  intros Hold. split; [| exact (Hown Hold)].
  rewrite Hpins', (@map_mark_active_others contid total _ Hold). reflexivity.
Qed.

(** The sample upload into an empty database: the coordinator answers 7,
    and 7 is the content id of the new row. *)
Lemma handleAdd_leaves_active_pin_witness :
  let run := handleAdd sample_shuttle sample_env sample_upload enabled_user
               (world_of empty_db) in
  run = (Done (mkJSON 200 [("cid"%string, "bafyroot-a"%string)]), snd run) /\
  createContent sample_shuttle sample_env enabled_user root_a "photo.jpg"
                EmptyString = Ok 7%N /\
  pins (db (snd run)) = [mkPin 1 100 7 root_a 3 true false false 6] /\
  map ObjRef_Pin (obj_refs (db (snd run))) = [1; 1; 1]%N.
Proof.
  cbv zeta.
  assert (Hrun : handleAdd sample_shuttle sample_env sample_upload
                   enabled_user (world_of empty_db)
                 = (Done (mkJSON 200 [("cid"%string, "bafyroot-a"%string)]),
                    snd (handleAdd sample_shuttle sample_env sample_upload
                           enabled_user (world_of empty_db))))
    by (vm_compute; reflexivity).
  split; [exact Hrun |].
  destruct (@handleAdd_leaves_active_pin _ _ _ _ _ _ _ Hrun)
    as (fname & root & contid & cset & recorded & total & refs & Hfile
        & Himport & Hcreate & _ & Hwalk & Hpins & _ & _).
  injection Hfile as <-. injection Himport as <-.
  assert (Hid : contid = 7%N).
  { vm_compute in Hcreate. injection Hcreate as <-. reflexivity. }
  subst contid.
  split; [exact Hcreate |].
  split; [| vm_compute; reflexivity].
  rewrite Hpins. vm_compute in Hwalk. injection Hwalk as <- <- <-.
  reflexivity.
Defined.

(** X6.  An upload that fails never removes a row and is not rolled back:
    the pins table is as before, or it has kept the new row as it was
    created (pinning), or it has kept the new row already marked active,
    which is what is left when the copy to the main blockstore is the step
    that fails. *)
Theorem handleAdd_failure_keeps_rows (s : Shuttle) (env : AddEnv)
  (c : Upload) (u : User) (w : World) (e : error) (w' : World) :
  handleAdd s env c u w = (Failed e, w') ->
  pins (db w') = pins (db w) \/
  exists root contid,
    importFile env = Ok root /\ contid <> 0%N /\
    (pins (db w') =
       pins (db w)
       ++ [mkPin (N.succ (pin_seq (db w))) (now env) contid root (User_ID u)
                 false true false 0] \/
     exists total,
       pins (db w') =
         map (mark_active contid total) (pins (db w))
         ++ [mkPin (N.succ (pin_seq (db w))) (now env) contid root
                   (User_ID u) true false false total]).
Proof.
  intros Hrun. apply handleAdd_inv in Hrun.
  destruct Hrun as [Hsame | (fname & root & contid & _ & Himport & Hcreate
                             & Hrows)]; [left; exact Hsame | right].
  exists root, contid. split; [exact Himport |].
  split; [exact (@createContent_nonzero _ _ _ _ _ _ _ Hcreate) |].
  destruct Hrows as [Hrow | (total & Hpins)]; [left; exact Hrow | right].
  exists total. rewrite Hpins, map_app. simpl.
  rewrite (@mark_active_same contid total
             (uploaded_row env u (db w) root contid) eq_refl).
  reflexivity.
Qed.

(** With a main blockstore that refuses the write, the upload fails and its
    Pin stays, active. *)
Lemma handleAdd_failure_keeps_rows_witness :
  let run := handleAdd sample_shuttle full_disk_env sample_upload
               enabled_user (world_of empty_db) in
  run = (Failed (Errorf
                   ("failed to move data from staging to main blockstore: "
                    ++ "no space left on device")), snd run) /\
  pins (db (snd run)) = [mkPin 1 100 7 root_a 3 true false false 6].
Proof.
  cbv zeta.
  assert (Hrun : handleAdd sample_shuttle full_disk_env sample_upload
                   enabled_user (world_of empty_db)
                 = (Failed
                      (Errorf
                         ("failed to move data from staging to main blockstore: "
                          ++ "no space left on device")),
                    snd (handleAdd sample_shuttle full_disk_env sample_upload
                           enabled_user (world_of empty_db))))
    by (vm_compute; reflexivity).
  split; [exact Hrun |].
  destruct (@handleAdd_failure_keeps_rows _ _ _ _ _ _ _ Hrun)
    as [Hsame | (root & contid & _ & _ & _)];
    vm_compute; reflexivity.
Defined.

(** X7.  Once the staging store for an upload has been allocated, its
    clean-up is started on every way out of the handler, whatever the
    outcome: of the three deferred calls it is the first to run, and after
    it come only the closing of the uploaded file and the removal of the
    form's temporary files, in that order. *)
Theorem handleAdd_always_cleans_staging (s : Shuttle) (env : AddEnv)
  (c : Upload) (u : User) (w : World) (fname bsid : string)
  (bs : Blockstore) :
  StorageDisabled u = false ->
  MultipartForm c = None ->
  FormFile_data c = Ok fname ->
  Open c = None ->
  AllocNew env = Ok (bsid, bs) ->
  exists tr,
    trace (snd (handleAdd s env c u w)) =
      tr ++ [EvStagingCleanUp bsid; EvFileClose; EvFormRemoveAll].
Proof.
  intros Hu Hform Hfile Hopen Halloc.
  unfold handleAdd. rewrite Hu.
  unfold bind at 1. unfold check at 1. rewrite Hform. unfold ret at 1.
  unfold defer at 1. unfold bind at 1. rewrite Hfile.
  unfold lift at 1, ret at 1.
  unfold bind at 1. unfold check at 1. rewrite Hopen. unfold ret at 1.
  unfold defer at 1. cbv zeta.
  unfold bind at 1. rewrite Halloc. unfold lift at 1, ret at 1.
  unfold defer.
  match goal with |- context [let (_, _) := ?body w in _] =>
    destruct (body w) as [r5 w5] end.
  unfold go, emit. cbn [snd trace]. exists (trace w5).
  repeat rewrite <- app_assoc. reflexivity.
Qed.

(** The upload that fails on a full disk still starts the clean-up of its
    staging store, then closes the file and removes the form. *)
Lemma handleAdd_always_cleans_staging_witness :
  exists tr,
    trace (snd (handleAdd sample_shuttle full_disk_env sample_upload
                  enabled_user (world_of empty_db)))
      = tr ++ [EvStagingCleanUp "staging-1"; EvFileClose; EvFormRemoveAll].
Proof.
  exact (@handleAdd_always_cleans_staging sample_shuttle full_disk_env
           sample_upload enabled_user (world_of empty_db) _ _ _
           eq_refl eq_refl eq_refl eq_refl eq_refl).
Defined.

(** ** The update packet and the reporter *)

Lemma gorm_Count_run (q : string) (w : World) :
  gorm_Count q w =
    let w' := mkWorld (db w) (tl (db_faults w)) (rpc_faults w)
                      (trace w ++ [EvSql (CountPins q)]) in
    if hd false (db_faults w) then (Failed (Errorf "database error"), w')
    else (Done (Z.of_nat (length (filter (where_pin q 0%N) (pins (db w))))),
          w').
Proof.
  unfold gorm_Count, bind. rewrite statement_run.
  destruct (hd false (db_faults w)); reflexivity.
Qed.

Lemma uint64_mul_range (a b : Z) : (0 <= uint64_mul a b < 2 ^ 64)%Z.
Proof. unfold uint64_mul, uint64_wrap. apply Z.mod_pos_bound. lia. Qed.

Lemma uint64_mul_exact (a b : Z) :
  (0 <= a)%Z -> (0 <= b)%Z -> (a * b < 2 ^ 64)%Z ->
  uint64_mul a (uint64_wrap b) = (a * b)%Z.
Proof.
  intros Ha Hb Hab. unfold uint64_mul, uint64_wrap.
  destruct (Z.eq_dec a 0) as [-> | Hnz].
  - rewrite !Z.mul_0_l. reflexivity.
  - assert (Hb64 : (b < 2 ^ 64)%Z) by nia.
    rewrite (Z.mod_small b) by lia. apply Z.mod_small. lia.
Qed.

(** X8.  A snapshot that [getUpdatePacket] returns was gathered from a
    successful [Statfs]: it carries the pin manager's queue size, the number
    of active rows of the pins table, and the two products blocks * block
    size and available blocks * block size as unsigned 64-bit numbers (the
    exact products whenever those fit).  Gathering it leaves the database as
    it was. *)
Theorem getUpdatePacket_snapshot (pr : Probe) (w : World)
  (upd : drpc.ShuttleUpdate) (w' : World) :
  getUpdatePacket pr w = (Done upd, w') ->
  exists st,
    Statfs pr = Ok st /\
    drpc.PinQueueSize upd = PinQueueSize pr /\
    drpc.NumPins upd = Z.of_nat (length (filter Pin_Active (pins (db w)))) /\
    (0 <= drpc.BlockstoreSize upd < 2 ^ 64)%Z /\
    (0 <= drpc.BlockstoreFree upd < 2 ^ 64)%Z /\
    ((0 <= Bsize st)%Z -> (0 <= Blocks st)%Z ->
     (Blocks st * Bsize st < 2 ^ 64)%Z ->
     drpc.BlockstoreSize upd = (Blocks st * Bsize st)%Z) /\
    ((0 <= Bsize st)%Z -> (0 <= Bavail st)%Z ->
     (Bavail st * Bsize st < 2 ^ 64)%Z ->
     drpc.BlockstoreFree upd = (Bavail st * Bsize st)%Z) /\
    db w' = db w.
Proof.
  unfold getUpdatePacket, bind. intros Hrun.
  destruct (Statfs pr) as [st|e]; unfold lift, ret, throw in Hrun;
    [| discriminate].
  rewrite gorm_Count_run in Hrun. cbv zeta in Hrun.
  destruct (hd false (db_faults w)); [discriminate |].
  injection Hrun as <- <-. exists st. cbn.
  split; [reflexivity |]. split; [reflexivity |]. split; [reflexivity |].
  split; [apply uint64_mul_range |]. split; [apply uint64_mul_range |].
  split; [intros; apply uint64_mul_exact; assumption |].
  split; [intros; apply uint64_mul_exact; assumption | reflexivity].
Qed.

(** The snapshot of a shuttle with two active pins on a disk of 1000 blocks
    of 4096 bytes, 400 of them free. *)
Lemma getUpdatePacket_snapshot_witness :
  getUpdatePacket good_probe (world_of two_pins_db)
    = (Done (drpc.mkShuttleUpdate 4096000 1638400 2 3),
       mkWorld two_pins_db [] [] [EvSql (CountPins "active")]) /\
  exists st,
    Statfs good_probe = Ok st /\
    (Blocks st * Bsize st)%Z = 4096000%Z /\
    length (filter Pin_Active (pins two_pins_db)) = 2.
Proof.
  assert (Hrun : getUpdatePacket good_probe (world_of two_pins_db)
                 = (Done (drpc.mkShuttleUpdate 4096000 1638400 2 3),
                    mkWorld two_pins_db [] [] [EvSql (CountPins "active")]))
    by (vm_compute; reflexivity).
  split; [exact Hrun |].
  destruct (@getUpdatePacket_snapshot _ _ _ _ Hrun)
    as (st & Hst & _ & Hn & _ & _ & Hsize & _ & _).
  exists st. split; [exact Hst |].
  injection Hst as <-. split; [reflexivity |].
  apply Nat2Z.inj. etransitivity; [symmetry; exact Hn | reflexivity].
Defined.

Lemma sends_app (a b : list Event) : sends (a ++ b) = sends a ++ sends b.
Proof. unfold sends. apply flat_map_app. Qed.

Lemma send_or_log_run (msg : drpc.Message) (line : string) (w : World) :
  exists w' msgs,
    on_error (sendRpcMessage msg) (fun _ => log line) w = (Done tt, w') /\
    db w' = db w /\
    rpc_faults w' = tl (rpc_faults w) /\
    sends (trace w') = sends (trace w) ++ msgs /\
    Forall (fun m => m = msg) msgs /\
    length msgs + length (filter id (firstn 1 (rpc_faults w))) = 1.
Proof.
  unfold on_error, sendRpcMessage, log, emit.
  destruct (rpc_faults w) as [|[|] rs]; cbn [fst snd db db_faults rpc_faults trace tl].
  - eexists. exists [msg]. split; [reflexivity |].
    cbn [db rpc_faults trace]. rewrite sends_app. repeat split. repeat constructor.
  - eexists. exists []. split; [reflexivity |].
    cbn [db rpc_faults trace]. rewrite sends_app. repeat split. constructor.
  - eexists. exists [msg]. split; [reflexivity |].
    cbn [db rpc_faults trace]. rewrite sends_app. repeat split. repeat constructor.
Qed.

Lemma or_nil_getUpdatePacket_run (pr : Probe) (w : World) :
  exists upd w1,
    or_nil (getUpdatePacket pr) "failed to get update packet" w
      = (Done upd, w1) /\
    db w1 = db w /\ rpc_faults w1 = rpc_faults w /\
    sends (trace w1) = sends (trace w).
Proof.
  unfold or_nil, getUpdatePacket, bind.
  destruct (Statfs pr) as [st|e]; unfold lift, ret, throw;
    [rewrite gorm_Count_run; cbv zeta; destruct (hd false (db_faults w)) |];
    unfold log, emit; cbn [fst snd db db_faults rpc_faults trace];
    eexists; eexists; (split; [reflexivity |]);
    cbn [db rpc_faults trace]; rewrite ?sends_app; simpl;
    rewrite ?app_nil_r; repeat split.
Qed.

Lemma report_run (pr : Probe) (w : World) :
  exists w' msgs,
    report pr w = (Done tt, w') /\
    db w' = db w /\
    rpc_faults w' = tl (rpc_faults w) /\
    sends (trace w') = sends (trace w) ++ msgs /\
    Forall (fun m => drpc.Op m = drpc.OP_ShuttleUpdate) msgs /\
    length msgs + length (filter id (firstn 1 (rpc_faults w))) = 1.
Proof.
  unfold report. unfold bind at 1.
  destruct (or_nil_getUpdatePacket_run pr w)
    as (upd & w1 & -> & Hdb1 & Hf1 & Hs1).
  match goal with |- context [on_error (sendRpcMessage ?msg) _ w1] =>
    destruct (send_or_log_run msg "failed to send shuttle update" w1)
      as (w' & msgs & Hrun & Hdb & Hf & Hs & Hall & Hn) end.
  exists w', msgs. split; [exact Hrun |].
  split; [congruence |]. split; [congruence |]. split; [congruence |].
  split; [| rewrite <- Hf1; exact Hn].
  eapply Forall_impl; [| exact Hall]. intros m ->. reflexivity.
Qed.

Lemma firstn_S_tl {A} (n : nat) (l : list A) :
  firstn (S n) l = firstn 1 l ++ firstn n (tl l).
Proof. destruct l; simpl; [rewrite firstn_nil |]; reflexivity. Qed.

Lemma skipn_S_tl {A} (n : nat) (l : list A) :
  skipn (S n) l = skipn n (tl l).
Proof. destruct l; simpl; [rewrite skipn_nil |]; reflexivity. Qed.

Lemma reports_run (ts : list Probe) :
  forall w,
    exists w' msgs,
      for_each ts report w = (Done tt, w') /\
      db w' = db w /\
      rpc_faults w' = skipn (length ts) (rpc_faults w) /\
      sends (trace w') = sends (trace w) ++ msgs /\
      Forall (fun m => drpc.Op m = drpc.OP_ShuttleUpdate) msgs /\
      length msgs + length (filter id (firstn (length ts) (rpc_faults w)))
        = length ts.
Proof.
  induction ts as [|t ts IH]; intros w.
  - exists w, []. simpl. rewrite app_nil_r. repeat split; constructor.
  - destruct (report_run t w)
      as (w1 & m1 & Hrun1 & Hdb1 & Hf1 & Hs1 & Hop1 & Hn1).
    destruct (IH w1) as (w2 & m2 & Hrun2 & Hdb2 & Hf2 & Hs2 & Hop2 & Hn2).
    exists w2, (m1 ++ m2).
    split; [cbn [for_each]; unfold bind; rewrite Hrun1; exact Hrun2 |].
    split; [congruence |].
    split; [rewrite Hf2, Hf1; symmetry; apply skipn_S_tl |].
    split; [rewrite Hs2, Hs1, <- app_assoc; reflexivity |].
    split; [apply Forall_app; split; assumption |].
    change (length (t :: ts)) with (S (length ts)).
    rewrite firstn_S_tl, filter_app, !length_app, <- Hf1. lia.
Qed.

(** X9.  The reporter never stops and never touches the database: for the
    first report and for every tick it makes exactly one call of
    [sendRpcMessage], whether or not the snapshot could be gathered and
    whether or not earlier sends failed.  The messages handed over are all
    of kind ShuttleUpdate, one for each call that did not fail. *)
Theorem reporter_sends_on_every_tick (first : Probe) (ticks : list Probe)
  (w : World) :
  exists w' msgs,
    reporter first ticks w = (Done tt, w') /\
    db w' = db w /\
    rpc_faults w' = skipn (S (length ticks)) (rpc_faults w) /\
    sends (trace w') = sends (trace w) ++ msgs /\
    Forall (fun m => drpc.Op m = drpc.OP_ShuttleUpdate) msgs /\
    length msgs
    + length (filter id (firstn (S (length ticks)) (rpc_faults w)))
      = S (length ticks).
Proof.
  destruct (reports_run (first :: ticks) w) as (w' & msgs & Hrun & H).
  exists w', msgs. split; [exact Hrun | exact H].
Qed.

(** ** The tracker's memory *)

(** X10.  The tracker's entry for a channel keeps its deal id, and after any
    sequence of events its recorded state carries the status of the last
    event delivered for that channel (what it had before when none was);
    events never create an entry for a channel that has none. *)
Theorem tracker_remembers_latest_status (chid : string)
  (evs : list (datatransfer.Event * datatransfer.ChannelState)) :
  forall tc,
    match map_get tc chid with
    | Some trk =>
        exists trk',
          map_get (fst (onTransferEvents tc evs)) chid = Some trk' /\
          dbid trk' = dbid trk /\
          option_map filclient.Status (last trk') =
            latest (option_map filclient.Status (last trk))
                   (statuses_for chid evs)
    | None => map_get (fst (onTransferEvents tc evs)) chid = None
    end.
Proof.
  induction evs as [|[event st] rest IH]; intros tc.
  - simpl. destruct (map_get tc chid) as [trk|]; [| reflexivity].
    exists trk. repeat split.
  - rewrite onTransferEvents_cons; cbn [fst].
    specialize (IH (fst (onTransferEvent tc event st))).
    unfold statuses_for; simpl.
    destruct (String.eqb (datatransfer.ChannelID st) chid) eqn:Hc.
    + apply String.eqb_eq in Hc. subst chid.
      destruct (map_get tc (datatransfer.ChannelID st)) as [trk|] eqn:Hget.
      * destruct (onTransferEvent_tracked tc event st Hget)
          as (trk1 & Hget1 & Hdbid1 & Hlast1 & _).
        rewrite Hget1 in IH. destruct IH as (trk' & Hget' & Hdbid' & Hlast').
        exists trk'. split; [exact Hget' |]. split; [congruence |].
        simpl. rewrite Hlast', Hlast1. reflexivity.
      * rewrite (onTransferEvent_untracked tc event st Hget) in IH |- *.
        cbn [fst] in IH |- *. rewrite Hget in IH. exact IH.
    + apply String.eqb_neq in Hc.
      destruct (onTransferEvent_other tc event st Hc) as [Hget _].
      rewrite Hget in IH. exact IH.
Qed.

(** ** The session and its supervisor *)

Lemma runRpc_returns_error (d : Shuttle) (conn : Conn) :
  match runRpc d conn with
  | Returned None _ => False
  | _ => True
  end.
Proof.
  unfold runRpc.
  destruct (getHelloMessage d) as [hello|e]; [| exact I].
  destruct (hello_send conn) as [e|]; [exact I |].
  match goal with |- context [session_loop ?s0 ?evs] =>
    destruct (session_loop s0 evs) as [s|[e|] s|s] eqn:Hloop end;
    try exact I.
  apply session_loop_returns in Hloop. destruct Hloop as [H _]. discriminate.
Qed.

(** X11.  [runRpc] has no way to return without an error, so the
    supervising loop never takes its one-second branch: every pause between
    two connection attempts is ten seconds, after a failed dial as after a
    session that ended, and every line the loop logs is one of its two error
    lines. *)
Theorem supervisor_always_waits_ten_seconds (d : Shuttle)
  (attempts : list (option Conn)) :
  Forall (fun ev =>
            match ev with
            | Slept n => n = 10
            | Ran (Returned None _) => False
            | Logged msg =>
                msg = "failed to dial estuary rpc endpoint"%string \/
                msg = "rpc routine exited with an error"%string
            | _ => True
            end)
         (RunRpcConnection d attempts).
Proof.
  induction attempts as [|[conn|] rest IH]; simpl.
  - constructor.
  - pose proof (runRpc_returns_error d conn) as Hret.
    destruct (runRpc d conn) as [s|[e|] s|s]; try contradiction.
    + repeat constructor.
    + repeat (constructor; auto).
    + repeat constructor.
  - repeat (constructor; auto).
Qed.

Lemma session_loop_fifo (evs : list SessionEvent) :
  forall s,
    let s' := session_of (session_loop s evs) in
    taken s <= taken s' /\
    taken s' - taken s <= length evs /\
    wire s' = wire s ++ flat_map frame_of (firstn (taken s' - taken s) evs) /\
    dispatched s' =
      dispatched s ++ flat_map command_of (firstn (taken s' - taken s) evs).
Proof.
  induction evs as [|e rest IH]; intros s; cbv zeta.
  - simpl. rewrite Nat.sub_diag. simpl. rewrite !app_nil_r.
    repeat split; lia.
  - simpl session_loop.
    assert (Hstep :
      match session_step s e with
      | Running s1 =>
          taken s1 = S (taken s) /\ wire s1 = wire s ++ frame_of e /\
          dispatched s1 = dispatched s ++ command_of e
      | Returned _ s1 =>
          taken s1 = S (taken s) /\ wire s1 = wire s ++ frame_of e /\
          dispatched s1 = dispatched s ++ command_of e
      | Impossible s1 => s1 = s
      end).
    { destruct e as [[cmd|err]| |msg [err|]]; simpl;
        try destruct (reading s); try destruct (readDone s); simpl;
        rewrite ?app_nil_r; auto. }
    destruct (session_step s e) as [s1|err s1|s1].
    + destruct Hstep as (Ht1 & Hw1 & Hd1).
      destruct (IH s1) as (Hle & Hlen & Hw & Hd). cbv zeta in *.
      set (s' := session_of (session_loop s1 rest)) in *.
      replace (taken s' - taken s) with (S (taken s' - taken s1)) by lia.
      simpl. rewrite Hw, Hd, Hw1, Hd1, <- !app_assoc.
      repeat split; lia.
    + destruct Hstep as (Ht1 & Hw1 & Hd1). simpl.
      replace (taken s1 - taken s) with 1 by lia. simpl.
      rewrite !app_nil_r. repeat split; auto; lia.
    + subst s1. simpl. rewrite Nat.sub_diag. simpl. rewrite !app_nil_r.
      repeat split; lia.
Qed.

(** X12.  Once the Hello has been written, a session writes the messages of
    the outbound queue in the order it takes them, each exactly once whether
    or not the write succeeds, and nothing else; and it hands the commands
    it receives to the handler in the order of arrival.  Nothing of the
    schedule after the point where the session returned is written or
    handled. *)
Theorem session_writes_in_queue_order (d : Shuttle) (conn : Conn)
  (hello : drpc.Hello) :
  getHelloMessage d = Ok hello ->
  hello_send conn = None ->
  let s := session_of (runRpc d conn) in
  taken s <= length (schedule conn) /\
  wire s =
    (HelloFrame hello, true)
    :: flat_map frame_of (firstn (taken s) (schedule conn)) /\
  dispatched s = flat_map command_of (firstn (taken s) (schedule conn)).
Proof.
  intros Hhello Hsend. cbv zeta. unfold runRpc. rewrite Hhello, Hsend.
  match goal with |- context [session_loop ?s0 ?evs] =>
    destruct (session_loop_fifo evs s0) as (Hle & Hlen & Hw & Hd) end.
  cbv zeta in *. cbn [taken wire dispatched] in *.
  rewrite Nat.sub_0_r in *.
  repeat split; assumption.
Qed.

(** On the connection whose read side breaks, the two messages taken before
    the session returned are on the wire after the Hello, the third is not,
    and the one command received was handed on. *)
Lemma session_writes_in_queue_order_witness :
  let s := session_of (runRpc sample_shuttle broken_conn) in
  taken s <= 6 /\
  wire s = [(HelloFrame sample_hello, true);
            (MessageFrame (status_msg 1), true);
            (MessageFrame (status_msg 2), true)] /\
  dispatched s = [drpc.mkCommand "AddPin"].
Proof.
  exact (@session_writes_in_queue_order sample_shuttle broken_conn
           sample_hello eq_refl eq_refl).
Defined.

(** ** The token check in front of the upload handler *)

Lemma content_add_run (s : Shuttle) (env : AddEnv) (token : string)
  (checkToken : string -> Result User) (c : Upload) (w : World) :
  content_add s env (Ok token) checkToken c w =
    match checkToken token with
    | Err e => (Failed e, w)
    | Ok u =>
        if Z.leb util.PermLevelUser (Perms u) then handleAdd s env c u w
        else (Failed (HttpError 401 util.ERR_NOT_AUTHORIZED),
              mkWorld (db w) (db_faults w) (rpc_faults w)
                      (trace w ++ [EvLog "User not authorized"]))
    end.
Proof.
  unfold content_add, AuthRequired, bind, lift, ret, throw, log, emit.
  destruct (checkToken token) as [u|e]; [| reflexivity].
  destruct (Z.leb util.PermLevelUser (Perms u)); reflexivity.
Qed.

(** X13.  When the coordinator answers the token check, the upload route
    goes by that answer alone.  A status other than 200 or a body that does
    not decode fails the request with the world untouched; a viewer below
    the user permission level gets the 401 not-authorized error, after one
    log line and with the database untouched; a viewer whose settings
    disable content adding gets the 400 error with the world untouched;
    and any other viewer reaches the handler as a user with the viewer's id,
    name and permissions, the presented token, and storage enabled. *)
Theorem rejected_token_never_reaches_handler (s : Shuttle) (env : AddEnv)
  (Do : string -> string -> Result ViewerReply) (token : string)
  (c : Upload) (w : World) (resp : ViewerReply) :
  Do ("https://" ++ estuaryHost s ++ "/viewer")%string
     ("Bearer " ++ token)%string = Ok resp ->
  let run := content_add s env (Ok token) (checkTokenAuth s Do) c w in
  if negb (Z.eqb (StatusCode resp) 200) then
    snd run = w /\
    exists msg, fst run = Failed (Errorf msg)
  else
    match decode_ViewerResponse resp with
    | Err e => run = (Failed e, w)
    | Ok out =>
        if Z.ltb (Viewer_Perms out) util.PermLevelUser then
          fst run = Failed (HttpError 401 util.ERR_NOT_AUTHORIZED) /\
          db (snd run) = db w /\
          trace (snd run) = trace w ++ [EvLog "User not authorized"]
        else if ContentAddingDisabled out then
          run = (Failed (HttpError 400 util.ERR_CONTENT_ADDING_DISABLED), w)
        else
          run = handleAdd s env c
                  (mkUser (Viewer_ID out) (Viewer_Username out)
                          (Viewer_Perms out) token false) w
    end.
Proof.
  intros Hdo. cbv zeta. rewrite content_add_run.
  unfold checkTokenAuth. rewrite Hdo.
  destruct (negb (Z.eqb (StatusCode resp) 200)).
  - destruct (decode_HttpError resp) as [[code message]|e];
      cbn [fst snd]; split; eauto.
  - destruct (decode_ViewerResponse resp) as [out|e]; [| reflexivity].
    cbn [Perms].
    destruct (Z.ltb_spec (Viewer_Perms out) util.PermLevelUser) as [Hlow | Hok].
    + apply Z.leb_gt in Hlow. rewrite Hlow. cbn [fst snd db trace].
      repeat split.
    + apply Z.leb_le in Hok. rewrite Hok.
      destruct (ContentAddingDisabled out) eqn:Hdis; [| reflexivity].
      unfold handleAdd. cbn [StorageDisabled]. reflexivity.
Qed.

(** A token the coordinator answers with 401 changes nothing and fails. *)
Lemma rejected_token_never_reaches_handler_witness :
  let run := content_add sample_shuttle sample_env (Ok "token-z"%string)
               (checkTokenAuth sample_shuttle sample_viewer) sample_upload
               (world_of empty_db) in
  snd run = world_of empty_db /\
  exists msg, fst run = Failed (Errorf msg).
Proof.
  exact (@rejected_token_never_reaches_handler sample_shuttle sample_env
           sample_viewer "token-z" sample_upload (world_of empty_db) _
           eq_refl).
Defined.

(** ** Status updates *)

(** X14.  Whatever the status and whether or not the database accepts the
    update, [onPinStatusUpdate] returns normally and hands exactly one
    UpdatePinStatus message with the content id and the status to the RPC
    layer, after everything else it does; only the status "failed" makes it
    issue a database statement, and a failure of that statement is logged
    and nothing more. *)
Theorem onPinStatusUpdate_always_reports (cont : uint) (status : string)
  (w : World) :
  hd false (rpc_faults w) = false ->
  fst (onPinStatusUpdate cont status w) = Done tt /\
  trace (snd (onPinStatusUpdate cont status w)) =
    trace w
    ++ [EvLog "updating pin status"]
    ++ (if String.eqb status "failed" then
          EvSql (UpdatePins "content = ?" cont failed_columns)
          :: (if hd false (db_faults w)
              then [EvLog "failed to mark pin as failed in database"]
              else [])
        else [])
    ++ [EvRpcSend
          (drpc.mkMessage "UpdatePinStatus"
             (drpc.mkMsgParams None None
                (Some (drpc.mkUpdatePinStatus cont status))))] /\
  (String.eqb status "failed" = false ->
   db (snd (onPinStatusUpdate cont status w)) = db w /\
   db_faults (snd (onPinStatusUpdate cont status w)) = db_faults w).
Proof.
  intros Hr.
  unfold onPinStatusUpdate, bind, on_error, go, log, emit, sendRpcMessage,
    ret, gorm_UpdateColumns, bind, statement, get_db, put_db.
  destruct (String.eqb status "failed");
    destruct (db_faults w) as [|[|] fs];
    destruct (rpc_faults w) as [|[|] rs]; try discriminate;
    cbn [fst snd db pins db_faults rpc_faults trace hd tl];
    (split; [reflexivity |]);
    (split; [repeat rewrite <- app_assoc; reflexivity |]);
    first [discriminate | intros _; split; reflexivity].
Qed.

(** A "failed" status whose database update fails is still reported. *)
Lemma onPinStatusUpdate_always_reports_witness :
  let run := onPinStatusUpdate 7 "failed" (mkWorld queued_db [true] [] []) in
  fst run = Done tt /\
  trace (snd run) =
    [EvLog "updating pin status";
     EvSql (UpdatePins "content = ?" 7 failed_columns);
     EvLog "failed to mark pin as failed in database";
     EvRpcSend
       (drpc.mkMessage "UpdatePinStatus"
          (drpc.mkMsgParams None None
             (Some (drpc.mkUpdatePinStatus 7 "failed"))))].
Proof.
  destruct (@onPinStatusUpdate_always_reports 7%N "failed"
              (mkWorld queued_db [true] [] []) eq_refl) as (Hret & Htr & _).
  split; [exact Hret | exact Htr].
Defined.

(** ** Unpin *)

Lemma lowest_id_none (f : Pin -> bool) (l : list Pin) :
  Forall (fun p => f p = false) l -> lowest_id (filter f l) = None.
Proof.
  intros H. assert (filter f l = []) as ->; [| reflexivity].
  induction H as [|p l Hp _ IH]; simpl; [reflexivity |].
  rewrite Hp. exact IH.
Qed.

(** X15.  [Unpin] of a number that is no pin's primary key fails with
    "record not found" after its one select, and deletes nothing, even when
    the number is the content id of a pin. *)
Theorem Unpin_unknown_key (contid : uint) (w : World) :
  Forall (fun p => Pin_ID p <> contid) (pins (db w)) ->
  hd false (db_faults w) = false ->
  Unpin contid w =
    (Failed (Errorf "record not found"),
     mkWorld (db w) (tl (db_faults w)) (rpc_faults w)
             (trace w ++ [EvSql (SelectFirstPin "id = ?" contid)])).
Proof.
  intros Hnone Hf. unfold Unpin, bind. rewrite gorm_First_run; cbv zeta.
  rewrite Hf. rewrite lowest_id_none; [reflexivity |].
  eapply Forall_impl; [| exact Hnone]. intros p Hp.
  rewrite where_id. apply N.eqb_neq. exact Hp.
Qed.

(** The content id 5 of pin 1 is no primary key. *)
Lemma Unpin_unknown_key_witness :
  Unpin 5 (world_of two_pins_db) =
    (Failed (Errorf "record not found"),
     mkWorld two_pins_db [] [] [EvSql (SelectFirstPin "id = ?" 5)]).
Proof.
  apply (@Unpin_unknown_key 5%N (world_of two_pins_db));
    [repeat constructor; discriminate | reflexivity].
Defined.

(** X16.  When a pin has the given primary key and every statement
    succeeds, [Unpin] has removed, by the time it reaches the unfinished
    clean-up, exactly the pins with that key and exactly the ObjRefs of that
    pin; every other pin and ObjRef, and the whole objects table, are as
    before. *)
Theorem Unpin_removes_refs_of_that_pin (contid : uint) (w : World)
  (p : Pin) :
  In p (pins (db w)) -> Pin_ID p = contid ->
  db_faults w = [] ->
  pins (db (snd (Unpin contid w))) =
    filter (fun q => negb (N.eqb (Pin_ID q) contid)) (pins (db w)) /\
  obj_refs (db (snd (Unpin contid w))) =
    filter (fun r => negb (N.eqb (ObjRef_Pin r) contid)) (obj_refs (db w)) /\
  objects (db (snd (Unpin contid w))) = objects (db w).
Proof.
  intros Hin Hid Hf. unfold Unpin, bind. rewrite gorm_First_run; cbv zeta.
  rewrite Hf; cbn [hd tl].
  destruct (lowest_id _) as [pin|] eqn:Hfirst.
  - apply lowest_id_filter in Hfirst. destruct Hfirst as [_ Hpin].
    rewrite where_id in Hpin. apply N.eqb_eq in Hpin.
    rewrite gorm_Delete_Pin_run; cbn [db db_faults rpc_faults trace hd tl].
    rewrite gorm_Delete_ObjRef_run; cbn [db db_faults rpc_faults trace hd tl].
    rewrite clearUnreferencedObjects_run. rewrite Hpin.
    cbn [snd db pins obj_refs objects]. repeat split.
  - exfalso.
    destruct (filter (where_pin "id = ?" contid) (pins (db w)))
      as [|x l] eqn:Hfl.
    + assert (Hp : In p (filter (where_pin "id = ?" contid) (pins (db w)))).
      { apply filter_In. split; [exact Hin |].
        rewrite where_id. apply N.eqb_eq. exact Hid. }
      rewrite Hfl in Hp. contradiction.
    + destruct (@lowest_id_nonempty (x :: l)) as [q Hq]; [discriminate |].
      congruence.
Qed.

(** Unpinning key 1 leaves pin 2 with its two ObjRefs and all four
    objects. *)
Lemma Unpin_removes_refs_of_that_pin_witness :
  pins (db (snd (Unpin 1 (world_of two_pins_db)))) = [pin_two] /\
  obj_refs (db (snd (Unpin 1 (world_of two_pins_db))))
    = [mkObjRef 4 2 4; mkObjRef 5 2 3] /\
  objects (db (snd (Unpin 1 (world_of two_pins_db))))
    = objects two_pins_db.
Proof.
  exact (@Unpin_removes_refs_of_that_pin 1%N (world_of two_pins_db) pin_one
           (or_introl eq_refl) eq_refl eq_refl).
Defined.

(** ** The life of a pin *)

Lemma settled_rows_not_restored (cont : uint) (w1 : World) :
  (forall p, In p (pins (db w1)) -> Pin_Content p = cont ->
             waiting p = false) ->
  not_restored cont w1.
Proof.
  intros Hrows w2 Hdb. unfold refreshPinQueue, bind.
  rewrite gorm_Find_run; cbv zeta.
  destruct (hd false (db_faults w2)).
  - cbn [snd trace]. eexists. split; [reflexivity |].
    intros op [H | []]. discriminate.
  - unfold log at 1, emit at 1. rewrite queue_rows_run.
    cbn [snd db db_faults rpc_faults trace].
    eexists. split; [repeat rewrite <- app_assoc; reflexivity |].
    intros op Hin. simpl in Hin.
    destruct Hin as [H | [H | Hin]]; try discriminate.
    apply in_map_iff in Hin. destruct Hin as (p & Hop & Hp).
    injection Hop as <-. apply filter_In in Hp. destruct Hp as [Hp Hwait].
    rewrite Hdb in Hp. cbn [pinner.ContId restored_op].
    intros Hc. specialize (Hrows p Hp Hc). unfold waiting in Hrows.
    unfold where_pin in Hwait; simpl in Hwait. congruence.
Qed.

Lemma marked_active_rows_settled (cont : uint) (total : Z) (l : list Pin) :
  forall p, In p (map (mark_active cont total) l) -> Pin_Content p = cont ->
            waiting p = false.
Proof.
  intros p Hin Hc. apply in_map_iff in Hin. destruct Hin as (q & <- & _).
  unfold mark_active in *. rewrite where_content in *.
  destruct (N.eqb (Pin_Content q) cont) eqn:Hq; [reflexivity |].
  apply N.eqb_neq in Hq. contradiction.
Qed.

Lemma marked_failed_rows_settled (cont : uint) (l : list Pin) :
  forall p, In p (map (mark_failed cont) l) -> Pin_Content p = cont ->
            waiting p = false.
Proof.
  intros p Hin Hc. apply in_map_iff in Hin. destruct Hin as (q & <- & _).
  unfold mark_failed in *. rewrite where_content in *.
  destruct (N.eqb (Pin_Content q) cont) eqn:Hq; [reflexivity |].
  apply N.eqb_neq in Hq. contradiction.
Qed.

(** X17.  A pin that has been dealt with is not picked up again after a
    restart.  Once [doPinning] has returned normally for a content id, or a
    "failed" status for it has been written to the database, no later scan
    of an unchanged pins table by [refreshPinQueue] queues an operation for
    that content id.  The same holds after a [doPinning] that failed but
    changed the pins table, which is the failure at the ObjRef insert: that
    pin is not retried. *)
Theorem settled_pins_are_not_restored :
  (forall d ctx op w w1,
      doPinning d ctx op w = (Done tt, w1) ->
      not_restored (pinner.ContId op) w1) /\
  (forall cont w,
      hd false (db_faults w) = false ->
      not_restored cont (snd (onPinStatusUpdate cont "failed" w))) /\
  (forall d ctx op w e w1,
      doPinning d ctx op w = (Failed e, w1) ->
      pins (db w1) <> pins (db w) ->
      not_restored (pinner.ContId op) w1).
Proof.
  split; [| split].
  - intros d ctx op w w1 Hrun. apply doPinning_inv in Hrun.
    destruct Hrun as (w0 & w1' & _ & Hadd & Hdb).
    apply addDatabaseTrackingToContent_inv in Hadd.
    destruct Hadd as (dbpin & cset & objs0 & total & _ & _ & Hdb' & _).
    apply settled_rows_not_restored. rewrite Hdb, Hdb'; cbn [pins].
    apply marked_active_rows_settled.
  - intros cont w Hf. apply settled_rows_not_restored.
    destruct (onPinStatusUpdate_pins cont "failed" w) as [_ ->].
    rewrite Hf. apply marked_failed_rows_settled.
  - intros d ctx op w e w1 Hrun Hchanged. apply doPinning_inv in Hrun.
    destruct Hrun as (w0 & w1' & Hw0 & Hadd & Hdb).
    apply addDatabaseTrackingToContent_inv in Hadd.
    rewrite Hdb, <- Hw0 in Hchanged.
    destruct Hadd as [Hsame | (total & msg & _ & Hpins)]; [contradiction |].
    apply settled_rows_not_restored. rewrite Hdb, Hpins.
    apply marked_active_rows_settled.
Qed.

(** After the queued pin has been processed, a scan finds nothing to queue
    for its content id 7. *)
Lemma settled_pins_are_not_restored_witness :
  let w1 := snd (doPinning sample_shuttle 10 queued_op (world_of queued_db)) in
  fst (doPinning sample_shuttle 10 queued_op (world_of queued_db)) = Done tt /\
  exists tr,
    trace (snd (refreshPinQueue w1)) = trace w1 ++ tr /\
    forall op, In (EvPinMgrAdd op) tr -> pinner.ContId op <> 7%N.
Proof.
  cbv zeta.
  assert (Hrun : doPinning sample_shuttle 10 queued_op (world_of queued_db)
                 = (Done tt,
                    snd (doPinning sample_shuttle 10 queued_op
                           (world_of queued_db))))
    by (vm_compute; reflexivity).
  split; [rewrite Hrun; reflexivity |].
  exact (proj1 settled_pins_are_not_restored _ _ _ _ _ Hrun _ eq_refl).
Defined.

Lemma mark_failed_one_flag (cont : uint) (p : Pin) :
  at_most_one_flag p = true -> at_most_one_flag (mark_failed cont p) = true.
Proof.
  unfold mark_failed. destruct (where_pin _ cont p); [reflexivity | auto].
Qed.

Lemma mark_active_one_flag (cont : uint) (total : Z) (p : Pin) :
  at_most_one_flag p = true ->
  (Pin_Content p = cont -> Pin_Failed p = false) ->
  at_most_one_flag (mark_active cont total p) = true.
Proof.
  intros Hp Hf. unfold mark_active. rewrite where_content.
  destruct (N.eqb (Pin_Content p) cont) eqn:Hc; [| exact Hp].
  apply N.eqb_eq in Hc. specialize (Hf Hc).
  unfold at_most_one_flag; simpl. rewrite Hf. reflexivity.
Qed.

Lemma Forall_map_mark_active (cont : uint) (total : Z) (l : list Pin) :
  Forall (fun p => at_most_one_flag p = true) l ->
  Forall (fun p => Pin_Content p = cont -> Pin_Failed p = false) l ->
  Forall (fun p => at_most_one_flag p = true) (map (mark_active cont total) l).
Proof.
  intros H1 H2. apply Forall_map. rewrite Forall_forall in *.
  intros p Hp. apply mark_active_one_flag; auto.
Qed.

(** X18.  If every row of the pins table has at most one of the flags
    pinning, active and failed set, then this still holds after a status
    update, after an [Unpin], after a [doPinning] for a content id none of
    whose rows is marked failed, and after an upload into a table with no
    failed row, however each of them ends. *)
Theorem lifecycle_flags_stay_exclusive (w : World) :
  Forall (fun p => at_most_one_flag p = true) (pins (db w)) ->
  (forall cont status,
      Forall (fun p => at_most_one_flag p = true)
             (pins (db (snd (onPinStatusUpdate cont status w))))) /\
  (forall contid,
      Forall (fun p => at_most_one_flag p = true)
             (pins (db (snd (Unpin contid w))))) /\
  (forall d ctx op,
      Forall (fun p => Pin_Content p = pinner.ContId op ->
                       Pin_Failed p = false) (pins (db w)) ->
      Forall (fun p => at_most_one_flag p = true)
             (pins (db (snd (doPinning d ctx op w))))) /\
  (forall s env c u,
      Forall (fun p => Pin_Failed p = false) (pins (db w)) ->
      Forall (fun p => at_most_one_flag p = true)
             (pins (db (snd (handleAdd s env c u w))))).
Proof.
  intros Hall. split; [| split; [| split]].
  - intros cont status.
    destruct (onPinStatusUpdate_pins cont status w) as [_ ->].
    destruct (_ && _); [| exact Hall].
    apply Forall_map. eapply Forall_impl; [| exact Hall].
    intros p Hp. apply mark_failed_one_flag. exact Hp.
  - intros contid.
    destruct (Unpin_outcome contid w) as (_ & _ & [-> | ->]); [exact Hall |].
    rewrite Forall_forall in *. intros p Hp. apply filter_In in Hp.
    apply Hall. apply Hp.
  - intros d ctx op Hnf.
    destruct (doPinning d ctx op w) as [r w1] eqn:Hrun. cbn [snd].
    apply doPinning_inv in Hrun.
    destruct Hrun as (w0 & w1' & Hw0 & Hadd & Hdb).
    apply addDatabaseTrackingToContent_inv in Hadd. rewrite Hdb.
    rewrite Hw0 in Hadd.
    destruct r as [[]|e|s]; [| | contradiction].
    + destruct Hadd as (dbpin & cset & objs0 & total & _ & _ & -> & _).
      cbn [pins]. apply Forall_map_mark_active; assumption.
    + destruct Hadd as [-> | (total & msg & _ & ->)]; [exact Hall |].
      apply Forall_map_mark_active; assumption.
  - intros s env c u Hnf.
    assert (Hnew : forall root contid,
              Forall (fun p => at_most_one_flag p = true)
                     (pins (db w) ++ [uploaded_row env u (db w) root contid]) /\
              Forall (fun p => Pin_Content p = contid -> Pin_Failed p = false)
                     (pins (db w) ++ [uploaded_row env u (db w) root contid])).
    { intros root contid. split; apply Forall_app; split;
        try exact Hall; try (constructor; [reflexivity | constructor]).
      eapply Forall_impl; [| exact Hnf]. auto. }
    destruct (handleAdd s env c u w) as [r w1] eqn:Hrun. cbn [snd].
    apply handleAdd_inv in Hrun.
    destruct r as [reply|e|msg]; [| | contradiction].
    + destruct Hrun as (fname & root & contid & total & refs & _ & _ & _ & _
                        & -> & _).
      apply Forall_map_mark_active; apply Hnew.
    + destruct Hrun as [-> | (fname & root & contid & _ & _ & _
                              & [-> | (total & ->)])].
      * exact Hall.
      * apply Hnew.
      * apply Forall_map_mark_active; apply Hnew.
Qed.

(** The table a restart finds, after the pin waiting under content id 7 has
    been processed and after pin 2 has been unpinned. *)
Lemma lifecycle_flags_stay_exclusive_witness :
  Forall (fun p => at_most_one_flag p = true)
         (pins (db (snd (doPinning sample_shuttle 10 queued_op
                           (world_of restart_db))))) /\
  Forall (fun p => at_most_one_flag p = true)
         (pins (db (snd (Unpin 2 (world_of restart_db))))).
Proof.
  assert (Hall : Forall (fun p => at_most_one_flag p = true)
                        (pins (db (world_of restart_db))))
    by (repeat constructor).
  destruct (@lifecycle_flags_stay_exclusive (world_of restart_db) Hall)
    as (_ & Hunpin & Hpin & _).
  split; [| exact (Hunpin 2%N)].
  apply Hpin.
  repeat (apply Forall_cons || apply Forall_nil);
    intros H; first [reflexivity | discriminate H].
Defined.

(** X19.  Processing never clears the failed flag.  When [doPinning]
    returns normally, every row with the operation's content id is still in
    the table under its primary key, active and no longer pinning, with the
    failed flag it had before: a pin marked failed that is processed again
    ends up both active and failed. *)
Theorem doPinning_keeps_failed_flag (d : Shuttle)
  (ctx : context.Context)
  (op : pinner.PinningOperation) (w w1 : World) (p : Pin) :
  doPinning d ctx op w = (Done tt, w1) ->
  In p (pins (db w)) ->
  Pin_Content p = pinner.ContId op ->
  exists q,
    In q (pins (db w1)) /\
    Pin_ID q = Pin_ID p /\
    Pin_Content q = Pin_Content p /\
    Pin_Active q = true /\
    Pin_Pinning q = false /\
    Pin_Failed q = Pin_Failed p.
Proof.
  intros Hrun Hin Hc. apply doPinning_inv in Hrun.
  destruct Hrun as (w0 & w1' & Hw0 & Hadd & Hdb).
  apply addDatabaseTrackingToContent_inv in Hadd.
  destruct Hadd as (dbpin & cset & objs0 & total & _ & _ & Hdb' & _).
  exists (mark_active (pinner.ContId op) total p).
  split.
  - rewrite Hdb, Hdb', Hw0; cbn [pins]. apply in_map. exact Hin.
  - unfold mark_active. rewrite where_content.
    rewrite (proj2 (N.eqb_eq _ _) Hc). repeat split.
Qed.

(** The pin that had failed is active and failed after being processed. *)
Lemma doPinning_keeps_failed_flag_witness :
  exists q,
    In q (pins (db (snd (doPinning sample_shuttle 10 queued_op
                           (world_of retried_db))))) /\
    Pin_ID q = 1%N /\
    Pin_Active q = true /\
    Pin_Failed q = true /\
    at_most_one_flag q = false.
Proof.
  assert (Hrun : doPinning sample_shuttle 10 queued_op (world_of retried_db)
                 = (Done tt,
                    snd (doPinning sample_shuttle 10 queued_op
                           (world_of retried_db))))
    by (vm_compute; reflexivity).
  destruct (@doPinning_keeps_failed_flag _ _ _ _ _
              (mkPin 1 100 7 root_a 3 false false true 0) Hrun
              (or_introl eq_refl) eq_refl)
    as (q & Hin & Hid & _ & Hact & Hpin & Hfail).
  exists q. cbn [Pin_ID Pin_Failed] in Hid, Hfail.
  split; [exact Hin |]. split; [exact Hid |]. split; [exact Hact |].
  split; [exact Hfail |].
  unfold at_most_one_flag. rewrite Hact, Hpin, Hfail. reflexivity.
Defined.
